(** * obra-abc migration scripts: crawler, content processor, image fetcher
    and image transcoder, as a shallow embedding.

    JavaScript strings are sequences of UTF-16 code units, here [list N].
    Regular-expression replacements of the scripts are written as the list
    functions they denote; the regular expression is quoted next to each. *)

From Stdlib Require Import NArith String Ascii Lia DecimalN.
From stdpp Require Import base list numbers gmap.

Local Open Scope N_scope.

(** ** JavaScript strings *)

Module JS.

Definition jsstring := list N.

(** A literal of ASCII characters. *)
Definition lit (s : string) : jsstring :=
  List.map N_of_ascii (list_ascii_of_string s).

Definition inRange (lo hi c : N) : bool := (lo <=? c) && (c <=? hi).

Definition isDigit (c : N) : bool := inRange 48 57 c.
Definition isLowerAz (c : N) : bool := inRange 97 122 c.
Definition isUpperAz (c : N) : bool := inRange 65 90 c.

Arguments inRange : simpl never.
Arguments isDigit : simpl never.
Arguments isLowerAz : simpl never.
Arguments isUpperAz : simpl never.

(** [\s] of a regular expression, which is also what [trim] strips. *)
Definition isWhiteSpace (c : N) : bool :=
  inRange 9 13 c || (c =? 32) || (c =? 160) || (c =? 5760)
  || inRange 8192 8202 c || (c =? 8232) || (c =? 8233) || (c =? 8239)
  || (c =? 8287) || (c =? 12288) || (c =? 65279).

(** The characters [.] does not match. *)
Definition isLineTerminator (c : N) : bool :=
  (c =? 10) || (c =? 13) || (c =? 8232) || (c =? 8233).

(** [String.prototype.toLowerCase], one code unit at a time.  Exact on Basic
    Latin and Latin-1, and on every code unit whose lower case lies in that
    range (U+0130, U+0178, U+1E9E, U+212A, U+212B).  Other code units are
    kept: their lower case lies outside Latin-1 as well, and no pattern of
    the scripts tells two such code units apart. *)
Definition lowerUnit (c : N) : list N :=
  if isUpperAz c then [c + 32]
  else if inRange 192 222 c && negb (c =? 215) then [c + 32]
  else if c =? 304 then [105; 775]
  else if c =? 376 then [255]
  else if c =? 7838 then [223]
  else if c =? 8490 then [107]
  else if c =? 8491 then [229]
  else [c].

Definition toLowerCase (s : jsstring) : jsstring := flat_map lowerUnit s.

Fixpoint startsWith (p s : jsstring) : bool :=
  match p, s with
  | [], _ => true
  | a :: p', b :: s' => (a =? b) && startsWith p' s'
  | _ :: _, [] => false
  end.

Definition endsWith (p s : jsstring) : bool :=
  startsWith (reverse p) (reverse s).

Fixpoint includes (p s : jsstring) : bool :=
  startsWith p s ||
  match s with
  | [] => false
  | _ :: s' => includes p s'
  end.

(** [s.replace(p, '')] for a string pattern [p]: the first occurrence goes. *)
Fixpoint removeFirst (p s : jsstring) : jsstring :=
  if startsWith p s then drop (length p) s
  else match s with
       | [] => []
       | c :: s' => c :: removeFirst p s'
       end.

Fixpoint dropWhile (f : N -> bool) (s : jsstring) : jsstring :=
  match s with
  | [] => []
  | c :: s' => if f c then dropWhile f s' else s
  end.

Definition dropWhileEnd (f : N -> bool) (s : jsstring) : jsstring :=
  reverse (dropWhile f (reverse s)).

Definition trim (s : jsstring) : jsstring :=
  dropWhileEnd isWhiteSpace (dropWhile isWhiteSpace s).

(** Decimal digits of a number, as [String(n)] prints a non-negative
    integer. *)
Fixpoint digitsOfUint (u : Decimal.uint) : jsstring :=
  match u with
  | Decimal.Nil => []
  | Decimal.D0 r => 48 :: digitsOfUint r
  | Decimal.D1 r => 49 :: digitsOfUint r
  | Decimal.D2 r => 50 :: digitsOfUint r
  | Decimal.D3 r => 51 :: digitsOfUint r
  | Decimal.D4 r => 52 :: digitsOfUint r
  | Decimal.D5 r => 53 :: digitsOfUint r
  | Decimal.D6 r => 54 :: digitsOfUint r
  | Decimal.D7 r => 55 :: digitsOfUint r
  | Decimal.D8 r => 56 :: digitsOfUint r
  | Decimal.D9 r => 57 :: digitsOfUint r
  end.

Definition numberToString (n : N) : jsstring := digitsOfUint (N.to_uint n).

End JS.

Import JS.

(** ** Content processor: slug, title, category, exclusion *)

Module Content.

Definition hyphen : N := 45.
Definition slash : N := 47.

Definition isHyphen (c : N) : bool := c =? hyphen.
Definition isSlash (c : N) : bool := c =? slash.

(** The character class [[a-z0-9-]]. *)
Definition isSlugChar (c : N) : bool := isLowerAz c || isDigit c || isHyphen c.

Arguments isHyphen : simpl never.
Arguments isSlash : simpl never.
Arguments isSlugChar : simpl never.

(** [.replace(/^\/+|\/+$/g, '')] *)
Definition trimSlashes (s : jsstring) : jsstring :=
  dropWhileEnd isSlash (dropWhile isSlash s).

(** [.replace(/[^a-z0-9-]/g, '-')] *)
Definition replaceNonSlugChars (s : jsstring) : jsstring :=
  List.map (fun c => if isSlugChar c then c else hyphen) s.

(** [.replace(/-+/g, '-')]: of a run of hyphens the last one stays. *)
Fixpoint collapseHyphens (s : jsstring) : jsstring :=
  match s with
  | [] => []
  | c :: r =>
      if isHyphen c then
        match r with
        | d :: _ => if isHyphen d then collapseHyphens r else c :: collapseHyphens r
        | [] => [c]
        end
      else c :: collapseHyphens r
  end.

Definition dropLeadingHyphen (s : jsstring) : jsstring :=
  match s with
  | c :: r => if isHyphen c then r else s
  | [] => []
  end.

Fixpoint dropTrailingHyphen (s : jsstring) : jsstring :=
  match s with
  | [] => []
  | c :: r =>
      match r with
      | [] => if isHyphen c then [] else [c]
      | _ :: _ => c :: dropTrailingHyphen r
      end
  end.

(** [.replace(/^-|-$/g, '')]: one hyphen at the start and one at the end. *)
Definition stripEdgeHyphens (s : jsstring) : jsstring :=
  dropTrailingHyphen (dropLeadingHyphen s).

Definition baseUrl : jsstring := lit "https://obraabc.org".

(** The part of the URL the slug is made of:
    [url.replace(baseUrl, '').replace(/^\/+|\/+$/g, '')]. *)
Definition slugPath (url : jsstring) : jsstring :=
  trimSlashes (removeFirst baseUrl url).

Definition createSlug (url : jsstring) : jsstring :=
  let slug := slugPath url in
  match slug with
  | [] => lit "index"
  | _ :: _ =>
      stripEdgeHyphens (collapseHyphens (replaceNonSlugChars (toLowerCase slug)))
  end.

(** The letters and digits of a path, as the slug sees them: the code units
    whose lower case holds a character of [[a-z0-9]].  These are the ASCII
    letters and digits, and U+0130 and U+212A, whose lower case is ASCII. *)
Definition isAlphanumeric (c : N) : bool :=
  isLowerAz c || isUpperAz c || isDigit c || (c =? 304) || (c =? 8490).

Definition isLowerAlnum (c : N) : bool := isLowerAz c || isDigit c.

(** No two hyphens side by side. *)
Fixpoint noDoubleHyphen (s : jsstring) : bool :=
  match s with
  | [] => true
  | c :: r =>
      match r with
      | [] => true
      | d :: _ => negb (isHyphen c && isHyphen d) && noDoubleHyphen r
      end
  end.

(** *** Page records, as [pages-data.json] holds them *)

Record Meta := {
  description : option jsstring;
  ogTitle : option jsstring;
  ogDescription : option jsstring;
  canonical : option jsstring
}.

Record PageContent := { main : option jsstring }.

(** [title], [content] and [meta] may be missing from a record. *)
Record PageData := {
  url : jsstring;
  title : option jsstring;
  content : option PageContent;
  meta : option Meta
}.

(** [pageData.title || ''] *)
Definition titleOrEmpty (p : PageData) : jsstring :=
  match title p with
  | Some t => t
  | None => []
  end.

(** *** cleanTitle *)

Definition pipe : N := 124.

(** Whether [/\s*c\s*.*$/] matches at the very start of [s], for a separator
    [c] that is not white space: white space, the separator, white space
    again, and then no line terminator up to the end of the input. *)
Definition suffixMatchesAt (sep : N) (s : jsstring) : bool :=
  match dropWhile isWhiteSpace s with
  | c :: rest =>
      (c =? sep) && forallb (fun d => negb (isLineTerminator d)) (dropWhile isWhiteSpace rest)
  | [] => false
  end.

(** [.replace(/\s*c\s*.*$/, '')]: the leftmost match runs to the end of the
    input, so what stays is the text before it. *)
Fixpoint cutAtSuffix (sep : N) (s : jsstring) : jsstring :=
  if suffixMatchesAt sep s then []
  else match s with
       | [] => []
       | c :: s' => c :: cutAtSuffix sep s'
       end.

Definition cleanTitle (t : jsstring) : jsstring :=
  trim (cutAtSuffix hyphen (cutAtSuffix pipe t)).

(** *** determineContentType *)

Inductive ContentType := article | service | about | contact | resource | page.

Definition servico_title : jsstring := lit "servi" ++ [231] ++ lit "o".

Definition determineContentType (p : PageData) : ContentType :=
  let url := toLowerCase (url p) in
  let title := toLowerCase (titleOrEmpty p) in
  if includes (lit "/blog/") url || includes (lit "/news/") url
     || includes (lit "/artigo/") url || includes (lit "/post/") url
     || includes (lit "artigo") title then article
  else if includes (lit "/servico") url || includes (lit "/service") url
          || includes servico_title title then service
  else if includes (lit "/sobre") url || includes (lit "/about") url
          || includes (lit "sobre") title then about
  else if includes (lit "/contato") url || includes (lit "/contact") url
          || includes (lit "contacto") title then contact
  else if includes (lit "/recurso") url || includes (lit "/resource") url
          || includes (lit "/documento") url then resource
  else page.

(** Category assignment as the specification words it: an ordered list of
    rules, one per category, each a test of the lower-cased URL and title
    (the tests are those of [determineContentType]); the first rule that
    matches gives the category and [page] is what is left. *)
Definition categoryRules : list ((jsstring -> jsstring -> bool) * ContentType) :=
  [ (fun url title =>
       includes (lit "/blog/") url || includes (lit "/news/") url
       || includes (lit "/artigo/") url || includes (lit "/post/") url
       || includes (lit "artigo") title, article);
    (fun url title =>
       includes (lit "/servico") url || includes (lit "/service") url
       || includes servico_title title, service);
    (fun url title =>
       includes (lit "/sobre") url || includes (lit "/about") url
       || includes (lit "sobre") title, about);
    (fun url title =>
       includes (lit "/contato") url || includes (lit "/contact") url
       || includes (lit "contacto") title, contact);
    (fun url _ =>
       includes (lit "/recurso") url || includes (lit "/resource") url
       || includes (lit "/documento") url, resource) ].

Fixpoint firstMatch (rules : list ((jsstring -> jsstring -> bool) * ContentType))
    (url title : jsstring) : ContentType :=
  match rules with
  | [] => page
  | (test, ty) :: rest => if test url title then ty else firstMatch rest url title
  end.

(** *** isValidContentPage *)

Definition assetExtensions : list jsstring :=
  List.map lit
    [".jpg"; ".jpeg"; ".png"; ".gif"; ".webp"; ".svg"; ".ico";
     ".pdf"; ".doc"; ".docx"; ".xls"; ".xlsx"; ".ppt"; ".pptx";
     ".zip"; ".rar"; ".tar"; ".gz";
     ".mp3"; ".mp4"; ".avi"; ".mov"; ".wmv";
     ".css"; ".js"; ".xml"; ".json"]%string.

Definition skipPatterns : list jsstring :=
  List.map lit
    ["/feed/"; "/rss/"; "/sitemap"; "/robots.txt";
     "/wp-admin/"; "/wp-includes/"; "/wp-content/plugins/";
     "/wp-json/"; "?rest_route=";
     "?preview="; "?p="; "?attachment_id="]%string.

(** [.replace(/<[^>]+>/g, '')].  [pending] holds, newest first, what was read
    since a ['<'] that may still open a match; a ['>'] closes it when at
    least one character lies between, and an input that ends first keeps
    all of it. *)
Fixpoint stripTagsFrom (pending : option jsstring) (s : jsstring) : jsstring :=
  match s with
  | [] =>
      match pending with
      | None => []
      | Some acc => 60 :: reverse acc
      end
  | c :: r =>
      match pending with
      | None => if c =? 60 then stripTagsFrom (Some []) r else c :: stripTagsFrom None r
      | Some [] => if c =? 62 then 60 :: 62 :: stripTagsFrom None r
                   else stripTagsFrom (Some [c]) r
      | Some acc => if c =? 62 then stripTagsFrom None r
                    else stripTagsFrom (Some (c :: acc)) r
      end
  end.

Definition stripTags (s : jsstring) : jsstring := stripTagsFrom None s.

(** The ASCII letters are the only ones an [i] flag folds onto an ASCII
    pattern. *)
Definition asciiLower (c : N) : N := if isUpperAz c then c + 32 else c.

(** [/^\d+x\d+$/] *)
Definition isDimensions (s : jsstring) : bool :=
  match s with
  | c :: _ =>
      isDigit c &&
      match dropWhile isDigit s with
      | x :: r =>
          (x =? 120) &&
          match r with
          | _ :: _ => forallb isDigit r
          | [] => false
          end
      | [] => false
      end
  | [] => false
  end.

(** [/\.(jpe?g|png|gif|pdf)$/i] *)
Definition hasFileExtension (s : jsstring) : bool :=
  existsb (fun e => endsWith e (List.map asciiLower s))
    (List.map lit [".jpg"; ".jpeg"; ".png"; ".gif"; ".pdf"]%string).

(** [/^img_\d+/i] *)
Definition isCameraName (s : jsstring) : bool :=
  let ls := List.map asciiLower s in
  startsWith (lit "img_") ls &&
  match drop 4 ls with
  | d :: _ => isDigit d
  | [] => false
  end.

(** [/^imagem\d+$/i] *)
Definition isImagemName (s : jsstring) : bool :=
  let ls := List.map asciiLower s in
  startsWith (lit "imagem") ls &&
  match drop 6 ls with
  | d :: r => forallb isDigit (d :: r)
  | [] => false
  end.

Definition assetTitlePatterns : list (jsstring -> bool) :=
  [isDimensions; hasFileExtension; isCameraName; isImagemName].

(** The [console.log] lines of the source tell why a page is skipped; the
    result is the same without them. *)
Definition isValidContentPage (p : PageData) : bool :=
  let url := toLowerCase (url p) in
  let title := toLowerCase (titleOrEmpty p) in
  let hasAssetExtension := existsb (fun ext => endsWith ext url) assetExtensions in
  if hasAssetExtension then false
  else if includes (lit "/wp-content/uploads/") url then false
  else if existsb (fun pattern => includes pattern url) skipPatterns then false
  else
    let contentText :=
      match content p with
      | Some {| main := Some m |} =>
          match m with
          | [] => []
          | _ :: _ => trim (stripTags m)
          end
      | _ => []
      end in
    if (N.of_nat (length contentText) <? 50) && hasAssetExtension then false
    else
      let hasAssetTitle :=
        existsb (fun pattern => pattern title || pattern (titleOrEmpty p))
          assetTitlePatterns in
      if hasAssetTitle then false else true.

(** *** processPage and processAllContent *)

Inductive result (A : Type) :=
| Ok (a : A)
| Throw (message : jsstring).
Arguments Ok {A} a.
Arguments Throw {A} message.

(** Of the frontmatter the fields below are kept; [description],
    [publishDate] and [seo] are strings computed from [meta], and computing
    them throws only when [meta] is missing. *)
Record Frontmatter := {
  fm_title : jsstring;
  fm_category : ContentType;
  fm_originalUrl : jsstring;
  fm_slug : jsstring
}.

Record ProcessedPage := {
  pp_slug : jsstring;
  pp_type : ContentType;
  pp_originalUrl : jsstring;
  pp_title : jsstring;
  pp_outputPath : jsstring
}.

Record Redirect := { from : jsstring; to : jsstring; status : N }.

Inductive FileBody :=
| MarkdownFile (fm : Frontmatter) (body : jsstring)
| ContentConfig
| RedirectsJson (rs : list Redirect)
| NetlifyRedirects (rs : list Redirect).

(** [console.log] and [console.error] of [processPage]. *)
Inductive LogLine :=
| LogProcessed (title : jsstring) (ty : ContentType)
| LogError (url message : jsstring).

(** The processor object has [processedPages] and no list of errors; the
    files it wrote and the console are the rest of what a run leaves. *)
Record Processor := {
  processedPages : list ProcessedPage;
  written : list (jsstring * FileBody);
  console : list LogLine
}.

Definition newProcessor : Processor :=
  {| processedPages := []; written := []; console := [] |}.

(** How a run of [main] ends: normally, or in [catch] with
    [process.exit(1)] and the error printed. *)
Inductive Completion :=
| Completed
| Fatal (message : jsstring).

Section Processing.

(** The DOM clean-up and tag substitutions of [extractAndCleanContent],
    applied to [content.main]. *)
Variable renderBody : option jsstring -> jsstring.

(** [fs.writeFile]: the message it rejects with for a path, if it does. *)
Variable writeFails : jsstring -> option jsstring.

Definition outputPathOf (ty : ContentType) (slug : jsstring) : jsstring :=
  lit "src/content/"
  ++ (match ty with article => lit "articles" | _ => lit "pages" end)
  ++ [slash] ++ slug ++ lit ".md".

(** The body of the [try] block of [processPage]. *)
Definition processPageTry (p : PageData) : result (ProcessedPage * FileBody) :=
  let slug := createSlug (url p) in
  let contentType := determineContentType p in
  match content p with
  | None => Throw (lit "Cannot read properties of undefined (reading 'main')")
  | Some c =>
      let processedContent := renderBody (main c) in
      match title p with
      | None => Throw (lit "Cannot read properties of undefined (reading 'replace')")
      | Some t =>
          match meta p with
          | None => Throw (lit "Cannot read properties of undefined (reading 'description')")
          | Some _ =>
              let frontmatter :=
                {| fm_title := cleanTitle t; fm_category := contentType;
                   fm_originalUrl := url p; fm_slug := slug |} in
              let outputPath := outputPathOf contentType slug in
              match writeFails outputPath with
              | Some e => Throw e
              | None =>
                  Ok ({| pp_slug := slug; pp_type := contentType;
                         pp_originalUrl := url p; pp_title := fm_title frontmatter;
                         pp_outputPath := outputPath |},
                      MarkdownFile frontmatter processedContent)
              end
          end
      end
  end.

Definition processPage (st : Processor) (p : PageData) : Processor :=
  match processPageTry p with
  | Ok (pp, file) =>
      {| processedPages := processedPages st ++ [pp];
         written := written st ++ [(pp_outputPath pp, file)];
         console := console st ++ [LogProcessed (pp_title pp) (pp_type pp)] |}
  | Throw e =>
      {| processedPages := processedPages st;
         written := written st;
         console := console st ++ [LogError (url p) e] |}
  end.

(** The console line [processPage] prints for a page. *)
Definition logLineOf (p : PageData) : LogLine :=
  match processPageTry p with
  | Ok (pp, _) => LogProcessed (pp_title pp) (pp_type pp)
  | Throw e => LogError (url p) e
  end.

Definition processedOf (p : PageData) : option ProcessedPage :=
  match processPageTry p with
  | Ok (pp, _) => Some pp
  | Throw _ => None
  end.

Definition writeFile (st : Processor) (path : jsstring) (body : FileBody)
  : result Processor :=
  match writeFails path with
  | Some e => Throw e
  | None =>
      Ok {| processedPages := processedPages st;
            written := written st ++ [(path, body)];
            console := console st |}
  end.

Definition redirectsOf (st : Processor) : list Redirect :=
  List.map (fun pg =>
              {| from := removeFirst baseUrl (pp_originalUrl pg);
                 to := slash :: pp_slug pg;
                 status := 301 |})
           (processedPages st).

(** The filter and the [for] loop of [processAllContent], on records that
    have their [url]; [recordsOf] below has the record on which the filter
    throws. *)
Definition contentPages (allPagesData : list PageData) : list PageData :=
  List.filter isValidContentPage allPagesData.

Definition processPages (allPagesData : list PageData) (st : Processor) : Processor :=
  fold_left processPage (contentPages allPagesData) st.

(** An element of the array parsed from [pages-data.json]: a record with a
    [url] string, or a value on which [pageData.url.toLowerCase()] throws,
    with the message of that error. *)
Inductive PageRecord :=
| WithUrl (p : PageData)
| WithoutUrl (message : jsstring).

(** The callback of the [filter] runs [isValidContentPage] outside any
    [try]: the records, when each has its [url], and else the error of the
    first that has none. *)
Fixpoint recordsOf (parsed : list PageRecord) : result (list PageData) :=
  match parsed with
  | [] => Ok []
  | WithoutUrl e :: _ => Throw e
  | WithUrl p :: rest =>
      match recordsOf rest with
      | Ok ps => Ok (p :: ps)
      | Throw e => Throw e
      end
  end.

(** [processAllContent] under [main]: [input] is the array that reading
    and parsing [pages-data.json] gives, the error when none comes of it.
    An error that leaves [processAllContent] is the abort message of
    [main]. *)
Definition processAllContent (input : result (list PageRecord)) (st : Processor)
  : Completion * Processor :=
  match input with
  | Throw e => (Fatal e, st)
  | Ok parsed =>
      match recordsOf parsed with
      | Throw e => (Fatal e, st)
      | Ok allPagesData =>
          let st1 := processPages allPagesData st in
          match writeFile st1 (lit "src/content/config.ts") ContentConfig with
          | Throw e => (Fatal e, st1)
          | Ok st2 =>
              let redirects := redirectsOf st2 in
              match writeFile st2 (lit "redirects.json") (RedirectsJson redirects) with
              | Throw e => (Fatal e, st2)
              | Ok st3 =>
                  match writeFile st3 (lit "public/_redirects")
                          (NetlifyRedirects redirects) with
                  | Throw e => (Fatal e, st3)
                  | Ok st4 => (Completed, st4)
                  end
              end
          end
      end
  end.

(** Whether the [try] block of [processPage] goes through for a page, and
    the file it writes then. *)
Definition succeeds (p : PageData) : bool :=
  match processPageTry p with
  | Ok _ => true
  | Throw _ => false
  end.

Definition writtenOf (p : PageData) : option (jsstring * FileBody) :=
  match processPageTry p with
  | Ok (pp, file) => Some (pp_outputPath pp, file)
  | Throw _ => None
  end.

End Processing.

(** What a run of the processor leaves apart from the lines on its console:
    how it ended, with the abort message if any, the pages in
    [processedPages] and the files written, with their contents.  The
    processor object has no other field and the run writes no other file. *)
Definition outcome (r : Completion * Processor)
  : Completion * list ProcessedPage * list (jsstring * FileBody) :=
  (r.1, processedPages r.2, written r.2).

End Content.

Import Content.

(** ** Crawler ([scripts/crawl-site.js]) *)

Module Crawler.

Record ImageRef := {
  src : jsstring;
  alt : jsstring;
  width : N;
  height : N
}.

(** What [extractPageData] reads from a rendered page, of the fields the
    content processor uses. *)
Record Extracted := {
  x_title : jsstring;
  x_meta : Meta;
  x_main : jsstring
}.

Definition toPageData (u : jsstring) (x : Extracted) : PageData :=
  {| url := u; title := Some (x_title x);
     content := Some {| main := Some (x_main x) |};
     meta := Some (x_meta x) |}.

(** How the [try] block of [crawlPage] goes for a URL: where it throws, if
    it does, and what was extracted before. *)
Inductive Visit :=
| GotoFails (message : jsstring)
| LinksFail (x : Extracted) (message : jsstring)
| ImagesFail (x : Extracted) (links : list jsstring) (message : jsstring)
| Loaded (x : Extracted) (links : list jsstring) (imgs : list ImageRef).

(** A [Set] of strings keeps insertion order and ignores a second [add]. *)
Definition setAdd (x : jsstring) (l : list jsstring) : list jsstring :=
  if decide (x ∈ l) then l else l ++ [x].

(** The crawler object.  [images] is a [Set] of freshly made objects, so
    every [add] appends; [internalLinks] is empty until the first [add];
    [gotoLog] is not a field of the object: it lists the [page.goto] calls in
    the order they are made. *)
Record Crawler := {
  visitedUrls : list jsstring;
  pagesData : list PageData;
  images : list ImageRef;
  errors : list (jsstring * jsstring);
  internalLinks : list jsstring;
  gotoLog : list jsstring
}.

Definition newCrawler : Crawler :=
  {| visitedUrls := []; pagesData := []; images := []; errors := [];
     internalLinks := []; gotoLog := [] |}.

(** [slice(i, i + n)] for [i = 0, n, 2n, ...] while [i < length]. *)
Fixpoint slices {A : Type} (fuel n : nat) (l : list A) : list (list A) :=
  match l with
  | [] => []
  | _ :: _ =>
      match fuel with
      | O => []
      | S fuel' => take n l :: slices fuel' n (drop n l)
      end
  end.

Definition batchesOf {A : Type} (n : nat) (l : list A) : list (list A) :=
  slices (length l) n l.

Section Crawl.

(** The site the crawler is made for, [this.baseUrl]. *)
Variable base : jsstring.

(** [new URL(u).hostname], [None] when the constructor throws. *)
Variable hostname : jsstring -> option jsstring.

(** The browser: what loading a URL and reading the page gives. *)
Variable browse : jsstring -> Visit.

Definition isInternalLink (u : jsstring) : bool :=
  match hostname u, hostname base with
  | Some h, Some hb => bool_decide (h = hb)
  | _, _ => false
  end.

Definition markVisited (st : Crawler) (u : jsstring) : Crawler :=
  {| visitedUrls := setAdd u (visitedUrls st); pagesData := pagesData st;
     images := images st; errors := errors st;
     internalLinks := internalLinks st; gotoLog := gotoLog st ++ [u] |}.

Definition pushPage (st : Crawler) (pd : PageData) : Crawler :=
  {| visitedUrls := visitedUrls st; pagesData := pagesData st ++ [pd];
     images := images st; errors := errors st;
     internalLinks := internalLinks st; gotoLog := gotoLog st |}.

Definition addLinks (st : Crawler) (links : list jsstring) : Crawler :=
  {| visitedUrls := visitedUrls st; pagesData := pagesData st;
     images := images st; errors := errors st;
     internalLinks :=
       fold_left (fun acc link => if isInternalLink link then setAdd link acc else acc)
                 links (internalLinks st);
     gotoLog := gotoLog st |}.

Definition addImages (st : Crawler) (imgs : list ImageRef) : Crawler :=
  {| visitedUrls := visitedUrls st; pagesData := pagesData st;
     images := images st ++ imgs; errors := errors st;
     internalLinks := internalLinks st; gotoLog := gotoLog st |}.

Definition pushError (st : Crawler) (u e : jsstring) : Crawler :=
  {| visitedUrls := visitedUrls st; pagesData := pagesData st;
     images := images st; errors := errors st ++ [(u, e)];
     internalLinks := internalLinks st; gotoLog := gotoLog st |}.

(** [context.newPage()] and [page.close()], which are outside the [try]
    block, are taken to succeed; [Sessions.crawlPage] below has their
    rejections as well. *)
Definition crawlPage (st : Crawler) (u : jsstring) : Crawler :=
  if decide (u ∈ visitedUrls st) then st
  else
    let st := markVisited st u in
    match browse u with
    | GotoFails e => pushError st u e
    | LinksFail x e => pushError (pushPage st (toPageData u x)) u e
    | ImagesFail x links e =>
        pushError (addLinks (pushPage st (toPageData u x)) links) u e
    | Loaded x links imgs =>
        addImages (addLinks (pushPage st (toPageData u x)) links) imgs
    end.

(** [Array.from(this.getInternalLinks()).filter(url => !this.visitedUrls.has(url))] *)
Definition frontier (st : Crawler) : list jsstring :=
  List.filter (fun u => negb (bool_decide (u ∈ visitedUrls st))) (internalLinks st).

(** The [for] loop over one frontier, five URLs at a time.  The members of a
    batch are distinct and unvisited, and each is marked visited before its
    first [await]; they are taken here in the order of the batch. *)
Definition crawlBatches (st : Crawler) (currentBatch : list jsstring) : Crawler :=
  fold_left (fun st batch => fold_left crawlPage batch st)
            (batchesOf 5 currentBatch) st.

(** The [while] loop; [None] when [fuel] rounds do not empty the frontier. *)
Fixpoint crawlLoop (fuel : nat) (st : Crawler) : option Crawler :=
  match frontier st with
  | [] => Some st
  | currentBatch =>
      match fuel with
      | O => None
      | S fuel' => crawlLoop fuel' (crawlBatches st currentBatch)
      end
  end.

Definition crawlSite (fuel : nat) : option Crawler :=
  crawlLoop fuel (crawlPage newCrawler base).

(** The same-origin links a visit adds to [internalLinks]. *)
Definition linksOf (u : jsstring) : list jsstring :=
  match browse u with
  | ImagesFail _ links _ | Loaded _ links _ => List.filter isInternalLink links
  | GotoFails _ | LinksFail _ _ => []
  end.

(** The error a visit throws inside the [try] block, if any. *)
Definition visitError (v : Visit) : option jsstring :=
  match v with
  | GotoFails e | LinksFail _ e | ImagesFail _ _ e => Some e
  | Loaded _ _ _ => None
  end.

(** Reachable from the start URL along such links. *)
Inductive reachable : jsstring -> Prop :=
| reach_base : reachable base
| reach_link u v : reachable u -> v ∈ linksOf u -> reachable v.

(** What holds of the crawler between two calls of [crawlPage]. *)
Record invariant (st : Crawler) : Prop := {
  inv_log : gotoLog st = visitedUrls st;
  inv_nodup : NoDup (visitedUrls st);
  inv_visited : forall u, u ∈ visitedUrls st -> reachable u;
  inv_links : forall u, u ∈ internalLinks st -> reachable u;
  inv_closed : forall u v, u ∈ visitedUrls st -> v ∈ linksOf u -> v ∈ internalLinks st;
  inv_pages : sublist (List.map url (pagesData st)) (visitedUrls st)
}.

(** A finite link graph: a list of URLs that holds the start URL and every
    link of each of its members. *)
Definition closedUniverse (U : list jsstring) : bool :=
  bool_decide (base ∈ U)
  && forallb (fun u => forallb (fun v => bool_decide (v ∈ U)) (linksOf u)) U.

End Crawl.

End Crawler.

(** ** The crawler with the page object and the browser context

    [context.newPage()] stands before the [try] block of [crawlPage] and
    [page.close()] in its [finally]: when one of them rejects, the promise of
    [crawlPage] rejects.  For the start URL the promise is awaited, and its
    rejection leaves [crawlSite]; for the member of a batch
    [Promise.allSettled] takes it, and nothing reads what it settled to. *)

Module Sessions.

Import Crawler.

(** What happens to the page object of a URL: [context.newPage()] rejects,
    or the page is opened, the [try] block goes as the visit says, and
    [page.close()] resolves or rejects. *)
Inductive Session :=
| NewPageFails (message : jsstring)
| Opened (v : Visit) (close : option jsstring).

Section Crawl.

Variable base : jsstring.
Variable hostname : jsstring -> option jsstring.
Variable session : jsstring -> Session.

(** [browser.newContext()] and [context.close()]: the message each rejects
    with, if it does. *)
Variable newContextFails : option jsstring.
Variable closeContextFails : option jsstring.

(** [this.visitedUrls.add(url)] *)
Definition addVisited (st : Crawler) (u : jsstring) : Crawler :=
  {| visitedUrls := setAdd u (visitedUrls st); pagesData := pagesData st;
     images := images st; errors := errors st;
     internalLinks := internalLinks st; gotoLog := gotoLog st |}.

Definition logGoto (st : Crawler) (u : jsstring) : Crawler :=
  {| visitedUrls := visitedUrls st; pagesData := pagesData st;
     images := images st; errors := errors st;
     internalLinks := internalLinks st; gotoLog := gotoLog st ++ [u] |}.

(** [crawlPage]: the crawler it leaves, and the error its promise rejects
    with, if it does. *)
Definition crawlPage (st : Crawler) (u : jsstring) : Crawler * option jsstring :=
  if decide (u ∈ visitedUrls st) then (st, None)
  else
    let st := addVisited st u in
    match session u with
    | NewPageFails e => (st, Some e)
    | Opened v close =>
        let st := logGoto st u in
        (match v with
         | GotoFails e => pushError st u e
         | LinksFail x e => pushError (pushPage st (toPageData u x)) u e
         | ImagesFail x links e =>
             pushError (addLinks base hostname (pushPage st (toPageData u x)) links) u e
         | Loaded x links imgs =>
             addImages (addLinks base hostname (pushPage st (toPageData u x)) links) imgs
         end,
         close)
    end.

(** The [for] loop over one frontier: [Promise.allSettled] resolves
    whatever the members of the batch do, and its value is not used. *)
Definition crawlBatches (st : Crawler) (currentBatch : list jsstring) : Crawler :=
  fold_left (fun st batch => fold_left (fun st u => (crawlPage st u).1) batch st)
            (batchesOf 5 currentBatch) st.

Fixpoint crawlLoop (fuel : nat) (st : Crawler) : option Crawler :=
  match frontier st with
  | [] => Some st
  | currentBatch =>
      match fuel with
      | O => None
      | S fuel' => crawlLoop fuel' (crawlBatches st currentBatch)
      end
  end.

(** [crawlSite]: [None] when [fuel] rounds do not empty the frontier, else
    the crawler it leaves and the error it rejects with, if it does.  An
    error of [context.close()] in the [finally] replaces the one of the
    [try] block. *)
Definition crawlSite (fuel : nat) : option (Crawler * option jsstring) :=
  match newContextFails with
  | Some e => Some (newCrawler, Some e)
  | None =>
      match crawlPage newCrawler base with
      | (st, Some e) =>
          Some (st, Some (match closeContextFails with Some e' => e' | None => e end))
      | (st, None) =>
          match crawlLoop fuel st with
          | Some st' => Some (st', closeContextFails)
          | None => None
          end
      end
  end.

(** The errors [crawlSite] can reject with: those of the browser context and
    those of the page object of the start URL. *)
Definition abortMessages : list jsstring :=
  match newContextFails with Some e => [e] | None => [] end
  ++ match closeContextFails with Some e => [e] | None => [] end
  ++ match session base with
     | NewPageFails e => [e]
     | Opened _ (Some e) => [e]
     | Opened _ None => []
     end.

End Crawl.

End Sessions.

(** ** [path.basename] and [path.extname] of Node (POSIX) *)

Module NodePath.

Definition dot : N := 46.
Definition isDot (c : N) : bool := c =? dot.

Fixpoint takeWhile (f : N -> bool) (s : jsstring) : jsstring :=
  match s with
  | [] => []
  | c :: s' => if f c then c :: takeWhile f s' else []
  end.

(** The last component of a path, trailing slashes apart. *)
Definition basename (p : jsstring) : jsstring :=
  reverse (takeWhile (fun c => negb (isSlash c)) (dropWhile isSlash (reverse p))).

(** From the last dot of the last component to its end; empty when there is
    no dot, when the component starts with its only dot, and for [".."]. *)
Definition extname (p : jsstring) : jsstring :=
  let b := basename p in
  let rb := reverse b in
  match dropWhile (fun c => negb (isDot c)) rb with
  | [] => []
  | d :: before =>
      match before with
      | [] => []
      | _ :: _ =>
          if bool_decide (b = [dot; dot]) then []
          else d :: reverse (takeWhile (fun c => negb (isDot c)) rb)
      end
  end.

(** [path.basename(p, suffix)] for a [p] without slashes, which is what
    [createSafeFilename] and [optimizeWithSharp] pass: the suffix goes when
    [p] ends with it and is longer than it. *)
Definition basenameWithout (p suffix : jsstring) : jsstring :=
  match suffix with
  | [] => basename p
  | _ :: _ =>
      if bool_decide (suffix = p) then []
      else
        let b := basename p in
        if endsWith suffix b && negb (bool_decide (b = suffix))
        then take (length b - length suffix) b
        else b
  end.

(** [path.join(dir, name)] for a normalised [dir] and a plain [name]. *)
Definition join (dir name : jsstring) : jsstring := dir ++ [slash] ++ name.

End NodePath.

Import NodePath.

(** ** Bulk image fetcher (class [ImageOptimizer]) *)

Module Fetcher.

(** An entry of [images-list.json]: a URL, or an object with [src]. *)
Inductive ImageData :=
| ImageUrl (u : jsstring)
| ImageObject (src : option jsstring) (alt : jsstring) (width height : option N).

(** [typeof imageData === 'string' ? imageData : imageData.src] *)
Definition imageUrlOf (d : ImageData) : option jsstring :=
  match d with
  | ImageUrl u => Some u
  | ImageObject src _ _ _ => src
  end.

Record Downloaded := {
  originalUrl : jsstring;
  filename : jsstring;
  path : jsstring;
  d_alt : jsstring;
  d_width : option N;
  d_height : option N
}.

(** What a download that rejects leaves at the destination: the destination
    as it was (a status other than 200, an error before the stream is
    opened), a partial file (a timeout or a request error while the response
    is piped), or no file, after the [unlink] of the stream-error handler. *)
Inductive Leftover := Untouched | PartialFile | Unlinked.

(** How [downloadImage] ends: the file is there, or the promise rejects. *)
Inductive Download :=
| Saved
| Rejected (message : jsstring) (leftover : Leftover).

(** The optimizer object and the files of its output directory. *)
Record Optimizer := {
  downloadedImages : list Downloaded;
  errors : list (option jsstring * jsstring);
  files : list jsstring
}.

(** [.replace(/[^a-z0-9.-]/g, '-')] *)
Definition replaceNonFileChars (s : jsstring) : jsstring :=
  List.map (fun c => if isLowerAz c || isDigit c || isDot c || isHyphen c then c else hyphen) s.

(** [timestamp] is the reading of [Date.now()] inside the call. *)
Definition createSafeFilename (timestamp : N) (pathname : jsstring) : jsstring :=
  let filename := basename pathname in
  let filename :=
    match extname filename with
    | [] => filename ++ lit ".jpg"
    | _ :: _ => filename
    end in
  let filename :=
    stripEdgeHyphens (collapseHyphens (replaceNonFileChars (toLowerCase filename))) in
  let ext := extname filename in
  let basename := basenameWithout filename ext in
  basename ++ [hyphen] ++ numberToString timestamp ++ ext.

Definition outputDir : jsstring := lit "dist/assets/images".

Section Fetch.

(** [new URL(u).pathname], [None] when the constructor throws. *)
Variable pathnameOf : jsstring -> option jsstring.

(** The network: how the download of a URL ends. *)
Variable download : jsstring -> Download.

Definition pushError (st : Optimizer) (u : option jsstring) (e : jsstring) : Optimizer :=
  {| downloadedImages := downloadedImages st;
     errors := errors st ++ [(u, e)];
     files := files st |}.

(** Where [processImage] stands at its first suspension, the existence check
    of the destination: it has returned, it has thrown, or it is about to
    download. *)
Inductive Started :=
| Skip
| Threw (u : option jsstring) (message : jsstring)
| Pending (imageUrl filename outputPath : jsstring) (d : ImageData).

(** [processImage] up to and including [fs.access(outputPath)], on the
    files [present] at that moment. *)
Definition startImage (now : N) (present : list jsstring) (d : ImageData) : Started :=
  match imageUrlOf d with
  | None | Some [] => Skip
  | Some imageUrl =>
      if startsWith (lit "data:") imageUrl then Skip
      else
        match pathnameOf imageUrl with
        | None => Threw (Some imageUrl) (lit "Invalid URL")
        | Some pathname =>
            let filename := createSafeFilename now pathname in
            let outputPath := join outputDir filename in
            if bool_decide (outputPath ∈ present) then Skip
            else Pending imageUrl filename outputPath d
        end
  end.

(** The rest of [processImage]: the download, and the entry or the error. *)
Definition finishImage (st : Optimizer) (s : Started) : Optimizer :=
  match s with
  | Skip => st
  | Threw u e => pushError st u e
  | Pending imageUrl filename outputPath d =>
      match download imageUrl with
      | Rejected e leftover =>
          pushError
            {| downloadedImages := downloadedImages st;
               errors := errors st;
               files :=
                 match leftover with
                 | Untouched => files st
                 | PartialFile => Crawler.setAdd outputPath (files st)
                 | Unlinked =>
                     List.filter (fun p => negb (bool_decide (p = outputPath))) (files st)
                 end |}
            (Some imageUrl) e
      | Saved =>
          {| downloadedImages :=
               downloadedImages st ++
               [{| originalUrl := imageUrl; filename := filename;
                   path := outputPath;
                   d_alt := match d with ImageObject _ a _ _ => a | ImageUrl _ => [] end;
                   d_width := match d with ImageObject _ _ w _ => w | ImageUrl _ => None end;
                   d_height := match d with ImageObject _ _ _ h => h | ImageUrl _ => None end |}];
             errors := errors st;
             files := Crawler.setAdd outputPath (files st) |}
      end
  end.

(** A call of [processImage] on its own. *)
Definition processImage (now : N) (st : Optimizer) (d : ImageData) : Optimizer :=
  finishImage st (startImage now (files st) d).

(** [Promise.allSettled(batch.map(imageData => this.processImage(imageData)))]:
    every member runs up to its existence check when the batch starts,
    before a download of the batch has written anything; the downloads
    follow.  [clock i] is the reading of [Date.now()] for entry [i] of the
    list. *)
Definition processBatch (clock : nat -> N) (st : Optimizer)
    (batch : list (nat * ImageData)) : Optimizer :=
  fold_left finishImage
    (List.map (fun '(i, d) => startImage (clock i) (files st) d) batch) st.

Definition optimizeAllImages (clock : nat -> N) (images : list ImageData)
    (st : Optimizer) : Optimizer :=
  fold_left (processBatch clock)
    (Crawler.batchesOf 5 (zip (seq 0 (length images)) images)) st.

Record ManifestEntry := {
  m_filename : jsstring;
  m_originalUrl : jsstring;
  m_alt : jsstring;
  m_dimensions : option (N * N)
}.

Record Manifest := {
  totalImages : nat;
  m_errors : list (option jsstring * jsstring);
  m_images : list ManifestEntry
}.

(** [img.width && img.height ? ... : null]: zero counts as missing. *)
Definition dimensionsOf (img : Downloaded) : option (N * N) :=
  match d_width img, d_height img with
  | Some w, Some h => if (w =? 0) || (h =? 0) then None else Some (w, h)
  | _, _ => None
  end.

Definition generateImageManifest (st : Optimizer) : Manifest :=
  {| totalImages := length (downloadedImages st);
     m_errors := errors st;
     m_images :=
       List.map (fun img =>
                   {| m_filename := filename img; m_originalUrl := originalUrl img;
                      m_alt := d_alt img; m_dimensions := dimensionsOf img |})
                (downloadedImages st) |}.

End Fetch.

End Fetcher.

(** ** Media transcoder ([optimizeWithSharp]) *)

Module Transcoder.

Record SizeClass := { sz_width : option N; suffix : jsstring }.

Definition CONFIG_sizes : list SizeClass :=
  [ {| sz_width := Some 400; suffix := lit "-sm" |};
    {| sz_width := Some 800; suffix := lit "-md" |};
    {| sz_width := Some 1200; suffix := lit "-lg" |};
    {| sz_width := None; suffix := [] |} ].

Definition CONFIG_skipIfNewer : bool := true.
Definition CONFIG_webpQuality : N := 85.
Definition CONFIG_jpegQuality : N := 90.

Inductive Format := webp | jpeg.

Definition extensionOf (f : Format) : jsstring :=
  match f with
  | webp => lit ".webp"
  | jpeg => lit ".jpg"
  end.

Definition qualityOf (f : Format) : N :=
  match f with
  | webp => CONFIG_webpQuality
  | jpeg => CONFIG_jpegQuality
  end.

Record Image := { img_width : N; img_height : N }.

(** What a file holds: a source picture, a variant the codec wrote in full,
    the start of one it did not finish, or something that is no picture. *)
Inductive Data :=
| Picture (img : Image)
| Encoded (fmt : Format) (quality : N) (img : Image)
| Truncated
| NoPicture.

Record File := { mtime : N; data : Data }.

(** How [toFile] ends for a target: written in full, or rejected, having
    left the target alone or having left a truncated file there. *)
Inductive WriteOutcome :=
| WriteOk
| WriteFails (message : jsstring) (truncates : bool).

(** [console.log] and [console.error] of [optimizeWithSharp]. *)
Inductive Event :=
| Generated (name : jsstring)
| Skipped (name : jsstring)
| ErrorGenerating (name message : jsstring)
| SharpMissing
| Copied (name : jsstring).

Record Run := {
  fs : gmap jsstring File;
  log : list Event
}.

Definition pictureOf (d : Data) : option Image :=
  match d with
  | Picture img | Encoded _ _ img => Some img
  | Truncated | NoPicture => None
  end.

Section Transcode.

(** Whether [import('sharp')] succeeds. *)
Variable sharpAvailable : bool.

(** The codec: how writing a given target ends. *)
Variable codec : jsstring -> WriteOutcome.

(** The height the codec gives a picture scaled down to a width. *)
Variable scaledHeight : N -> Image -> N.

(** The time files written in this run are stamped with. *)
Variable now : N.

(** [getFileModTime] *)
Definition getFileModTime (m : gmap jsstring File) (p : jsstring) : option N :=
  mtime <$> m !! p.

(** [targetTime && sourceTime && targetTime > sourceTime] *)
Definition shouldSkipOptimization (m : gmap jsstring File) (sourcePath targetPath : jsstring) : bool :=
  if CONFIG_skipIfNewer then
    match getFileModTime m sourcePath, getFileModTime m targetPath with
    | Some sourceTime, Some targetTime => sourceTime <? targetTime
    | _, _ => false
    end
  else false.

(** [resize(width, null, { withoutEnlargement: true, fit: 'inside' })]: a
    picture no wider than the target keeps its size. *)
Definition resize (w : N) (img : Image) : Image :=
  if img_width img <=? w then img
  else {| img_width := w; img_height := scaledHeight w img |}.

(** The pipeline of one size class: [if (size.width) pipeline.resize(...)]. *)
Definition pipelineOf (size : SizeClass) (img : Image) : Image :=
  match sz_width size with
  | Some w => if w =? 0 then img else resize w img
  | None => img
  end.

(** [sharp(inputPath)...toFile(target)]: straight to the target path. *)
Definition toFile (m : gmap jsstring File) (inputPath target : jsstring)
    (size : SizeClass) (fmt : Format) : gmap jsstring File * option jsstring :=
  match codec target with
  | WriteFails e truncates =>
      (if truncates then <[target := {| mtime := now; data := Truncated |}]> m else m,
       Some e)
  | WriteOk =>
      match m !! inputPath ≫= (fun f => pictureOf (data f)) with
      | Some img =>
          (<[target := {| mtime := now;
                          data := Encoded fmt (qualityOf fmt) (pipelineOf size img) |}]> m,
           None)
      | None => (m, Some (lit "Input file is missing or of an unsupported image format"))
      end
  end.

Definition variantName (nameWithoutExt : jsstring) (size : SizeClass) (fmt : Format) : jsstring :=
  nameWithoutExt ++ suffix size ++ extensionOf fmt.

(** One of the two blocks of the loop body: skip when up to date, else
    write, and log either way. *)
Definition generate (inputPath outputDir nameWithoutExt : jsstring)
    (st : Run) (job : SizeClass * Format) : Run :=
  let name := variantName nameWithoutExt job.1 job.2 in
  let target := join outputDir name in
  if shouldSkipOptimization (fs st) inputPath target
  then {| fs := fs st; log := log st ++ [Skipped name] |}
  else
    match toFile (fs st) inputPath target job.1 job.2 with
    | (m, None) => {| fs := m; log := log st ++ [Generated name] |}
    | (m, Some e) => {| fs := m; log := log st ++ [ErrorGenerating name e] |}
    end.

(** [copyImageWithoutOptimization]; a source that cannot be read makes
    [copyFile] throw. *)
Definition copyImageWithoutOptimization (inputPath outputDir filename : jsstring)
    (st : Run) : result Run :=
  let outputPath := join outputDir filename in
  if shouldSkipOptimization (fs st) inputPath outputPath
  then Ok {| fs := fs st; log := log st ++ [Skipped filename] |}
  else
    match fs st !! inputPath with
    | Some f =>
        Ok {| fs := <[outputPath := {| mtime := now; data := data f |}]> (fs st);
              log := log st ++ [Copied filename] |}
    | None => Throw (lit "ENOENT: no such file or directory")
    end.

(** [basename(filename, extname(filename))] *)
Definition nameWithoutExt (filename : jsstring) : jsstring :=
  basenameWithout filename (extname filename).

Definition optimizeWithSharp (inputPath outputDir filename : jsstring) (st : Run)
  : result Run :=
  if sharpAvailable then
    Ok (fold_left
          (fun st size =>
             let st := generate inputPath outputDir (nameWithoutExt filename) st (size, webp) in
             generate inputPath outputDir (nameWithoutExt filename) st (size, jpeg))
          CONFIG_sizes st)
  else
    copyImageWithoutOptimization inputPath outputDir filename
      {| fs := fs st; log := log st ++ [SharpMissing] |}.

(** The eight writes of a call, in the order they are tried. *)
Definition jobs : list (SizeClass * Format) :=
  flat_map (fun size => [(size, webp); (size, jpeg)]) CONFIG_sizes.

Definition targetOf (outputDir nameWithoutExt : jsstring) (job : SizeClass * Format) : jsstring :=
  join outputDir (variantName nameWithoutExt job.1 job.2).

(** One write on its own, from a given file system and an empty log. *)
Definition alone (inputPath outputDir nameWithoutExt : jsstring)
    (m : gmap jsstring File) (job : SizeClass * Format) : Run :=
  generate inputPath outputDir nameWithoutExt {| fs := m; log := [] |} job.

(** A finished variant, as opposed to a truncated file. *)
Definition isValidOutput (f : File) : bool :=
  match data f with
  | Encoded _ _ _ => true
  | _ => false
  end.

Definition isGenerated (e : Event) : bool :=
  match e with
  | Generated _ => true
  | _ => false
  end.

End Transcode.

End Transcoder.

(** * Reports, manifest, frontmatter values and the directory walk *)

(** ** The slug in the words of the specification

    Strip the base URL and the leading and trailing slashes; [index] when
    nothing is left; else lower-case, collapse what is not a letter or a
    digit to single hyphens, and trim the hyphens.  Written from these
    words, to be compared with [createSlug]. *)

Module SlugSpec.

(** Every run of characters other than [[a-z0-9]] becomes one hyphen. *)
Fixpoint collapseRuns (s : jsstring) : jsstring :=
  match s with
  | [] => []
  | c :: r =>
      if isLowerAlnum c then c :: collapseRuns r
      else
        match r with
        | d :: _ => if isLowerAlnum d then hyphen :: collapseRuns r else collapseRuns r
        | [] => [hyphen]
        end
  end.

(** All the hyphens at the start and at the end go. *)
Definition trimHyphens (s : jsstring) : jsstring :=
  dropWhileEnd isHyphen (dropWhile isHyphen s).

Definition slug (url : jsstring) : jsstring :=
  match dropWhileEnd isSlash (dropWhile isSlash (removeFirst baseUrl url)) with
  | [] => lit "index"
  | c :: path => trimHyphens (collapseRuns (toLowerCase (c :: path)))
  end.

End SlugSpec.

(** ** The crawler's page files and summary ([saveResults]) *)

Module CrawlReport.

Definition underscore : N := 95.
Definition isUnderscore (c : N) : bool := c =? underscore.

(** The character class [[a-zA-Z0-9-_]]. *)
Definition isNameChar (c : N) : bool :=
  isLowerAz c || isUpperAz c || isDigit c || isHyphen c || isUnderscore c.

(** [.replace(/[^a-zA-Z0-9-_]/g, '-')] *)
Definition replaceNonNameChars (s : jsstring) : jsstring :=
  List.map (fun c => if isNameChar c then c else hyphen) s.

(** [createSafeFilename] of the crawler; [|| 'homepage'] takes the empty
    string. *)
Definition createSafeFilename (baseUrl url : jsstring) : jsstring :=
  match stripEdgeHyphens (collapseHyphens (replaceNonNameChars (removeFirst baseUrl url))) with
  | [] => lit "homepage"
  | c :: r => c :: r
  end.

Record Categories := {
  homepage : nat;
  about : nat;
  services : nat;
  contact : nat;
  blog : nat;
  resources : nat;
  other : nat
}.

Definition noPages : Categories :=
  {| homepage := 0; about := 0; services := 0; contact := 0; blog := 0;
     resources := 0; other := 0 |}.

(** The counter that goes up for a page with the given lower-cased URL and
    title.  The URL is lower-cased by [toLowerCase], so that the first test
    is that of the source for the URLs whose letters [toLowerCase] is exact
    on. *)
Definition bump (baseUrl url title : jsstring) (categories : Categories) : Categories :=
  if bool_decide (url = baseUrl) || endsWith (lit "/") url then
    {| homepage := S (homepage categories); about := about categories;
       services := services categories; contact := contact categories;
       blog := blog categories; resources := resources categories;
       other := other categories |}
  else if includes (lit "about") url || includes (lit "about") title then
    {| homepage := homepage categories; about := S (about categories);
       services := services categories; contact := contact categories;
       blog := blog categories; resources := resources categories;
       other := other categories |}
  else if includes (lit "service") url || includes (lit "service") title then
    {| homepage := homepage categories; about := about categories;
       services := S (services categories); contact := contact categories;
       blog := blog categories; resources := resources categories;
       other := other categories |}
  else if includes (lit "contact") url || includes (lit "contact") title then
    {| homepage := homepage categories; about := about categories;
       services := services categories; contact := S (contact categories);
       blog := blog categories; resources := resources categories;
       other := other categories |}
  else if includes (lit "blog") url || includes (lit "news") url
          || includes (lit "article") url then
    {| homepage := homepage categories; about := about categories;
       services := services categories; contact := contact categories;
       blog := S (blog categories); resources := resources categories;
       other := other categories |}
  else if includes (lit "resource") url || includes (lit "download") url then
    {| homepage := homepage categories; about := about categories;
       services := services categories; contact := contact categories;
       blog := blog categories; resources := S (resources categories);
       other := other categories |}
  else
    {| homepage := homepage categories; about := about categories;
       services := services categories; contact := contact categories;
       blog := blog categories; resources := resources categories;
       other := S (other categories) |}.

(** The body of the [forEach] of [categorizeContent].  Reading
    [page.content.textContent] throws when the record has no [content]. *)
Definition countPage (baseUrl : jsstring) (categories : Categories) (page : PageData)
  : result Categories :=
  let url := toLowerCase (Content.url page) in
  let title := toLowerCase (titleOrEmpty page) in
  match content page with
  | None => Throw (lit "Cannot read properties of undefined (reading 'textContent')")
  | Some _ => Ok (bump baseUrl url title categories)
  end.

(** The [forEach]: the first page that throws ends it. *)
Fixpoint countPages (baseUrl : jsstring) (pagesData : list PageData)
    (categories : Categories) : result Categories :=
  match pagesData with
  | [] => Ok categories
  | p :: rest =>
      match countPage baseUrl categories p with
      | Ok categories' => countPages baseUrl rest categories'
      | Throw m => Throw m
      end
  end.

Definition categorizeContent (baseUrl : jsstring) (pagesData : list PageData)
  : result Categories :=
  countPages baseUrl pagesData noPages.

Definition total (c : Categories) : nat :=
  homepage c + about c + services c + contact c + blog c + resources c + other c.

End CrawlReport.

(** ** The names of the image imports ([generateImageManifest]) *)

Module Manifest.

Definition isUnderscore (c : N) : bool := c =? 95.

(** The character class [[a-zA-Z0-9]]. *)
Definition isAlnum (c : N) : bool := isLowerAz c || isUpperAz c || isDigit c.

(** [.replace(/_+/g, '_')] *)
Fixpoint collapseUnderscores (s : jsstring) : jsstring :=
  match s with
  | [] => []
  | c :: r =>
      if isUnderscore c then
        match r with
        | d :: _ => if isUnderscore d then collapseUnderscores r
                    else c :: collapseUnderscores r
        | [] => [c]
        end
      else c :: collapseUnderscores r
  end.

(** [img.filename.replace(/[^a-zA-Z0-9]/g, '_').replace(/^_+|_+$/g, '')
    .replace(/_+/g, '_')] *)
Definition varName (filename : jsstring) : jsstring :=
  collapseUnderscores
    (dropWhileEnd isUnderscore
       (dropWhile isUnderscore
          (List.map (fun c => if isAlnum c then c else 95) filename))).

End Manifest.

(** ** Frontmatter values ([formatYamlValue] in [createMarkdownFile]) *)

Module Yaml.

Definition quote : N := 34.
Definition backslash : N := 92.

(** The first [replace] of the clean-up: every double quote gets a
    backslash before it. *)
Definition escapeQuotes (s : jsstring) : jsstring :=
  flat_map (fun c => if c =? quote then [backslash; quote] else [c]) s.

(** [.replace(/\n/g, ' ').replace(/\r/g, ' ')] *)
Definition breaksToSpaces (s : jsstring) : jsstring :=
  List.map (fun c => if (c =? 10) || (c =? 13) then 32 else c) s.

(** [.replace(/\s+/g, ' ')] *)
Fixpoint collapseWhiteSpace (s : jsstring) : jsstring :=
  match s with
  | [] => []
  | c :: r =>
      if isWhiteSpace c then
        match r with
        | d :: _ => if isWhiteSpace d then collapseWhiteSpace r
                    else 32 :: collapseWhiteSpace r
        | [] => [32]
        end
      else c :: collapseWhiteSpace r
  end.

(** The characters that send a value through the clean-up: double quote,
    line feed, carriage return, ampersand, angle brackets, braces and square
    brackets. *)
Definition specialChars : list N := [34; 10; 13; 38; 60; 62; 123; 125; 91; 93].

(** [value] is [None] for [null] and [undefined], else the string. *)
Definition formatYamlValue (value : option jsstring) : jsstring :=
  match value with
  | None => [quote; quote]
  | Some str =>
      if existsb (fun c => includes [c] str) specialChars then
        let cleaned :=
          trim (collapseWhiteSpace (breaksToSpaces (escapeQuotes str))) in
        [quote] ++ cleaned ++ [quote]
      else [quote] ++ str ++ [quote]
  end.

End Yaml.

(** ** The directory walk of the transcoder ([processDirectory]) *)

Module Tree.

Import Transcoder.

(** What [readdir] with file types gives for a directory, with the same for
    each directory below it: files, directories, and entries that are
    neither. *)
Inductive Entry :=
| File (name : jsstring)
| Dir (name : jsstring) (entries : list Entry)
| Other (name : jsstring).

(** [['.jpg', '.jpeg', '.png', '.webp'].includes(ext)] for the lower-cased
    extension of a name. *)
Definition isImageName (name : jsstring) : bool :=
  existsb (fun e => bool_decide (toLowerCase (extname name) = e))
    (List.map lit [".jpg"; ".jpeg"; ".png"; ".webp"]%string).

Section Walk.

Variable sharpAvailable : bool.
Variable codec : jsstring -> WriteOutcome.
Variable scaledHeight : N -> Image -> N.
Variable now : N.

(** [copyFile(sourcePath, targetPath)] and its log line; a source that is
    not there makes it throw. *)
Definition copyThrough (sourcePath targetPath name : jsstring) (st : Run) : result Run :=
  match fs st !! sourcePath with
  | Some f =>
      Ok {| fs := <[targetPath := {| mtime := now; data := data f |}]> (fs st);
            log := log st ++ [Copied name] |}
  | None => Throw (lit "ENOENT: no such file or directory")
  end.

(** One round of the [for] loop of [processDirectory], and for a directory
    the whole call on it; an error ends the walk. *)
Fixpoint processEntry (sourceDir outputDir : jsstring) (entry : Entry) (st : Run)
  : result Run :=
  match entry with
  | Dir name entries =>
      (fix walk (es : list Entry) (st : Run) : result Run :=
         match es with
         | [] => Ok st
         | e :: es' =>
             match processEntry (join sourceDir name) (join outputDir name) e st with
             | Ok st' => walk es' st'
             | Throw m => Throw m
             end
         end) entries st
  | File name =>
      if isImageName name then
        optimizeWithSharp sharpAvailable codec scaledHeight now
          (join sourceDir name) outputDir name st
      else copyThrough (join sourceDir name) (join outputDir name) name st
  | Other _ => Ok st
  end.

Fixpoint processEntries (sourceDir outputDir : jsstring) (entries : list Entry) (st : Run)
  : result Run :=
  match entries with
  | [] => Ok st
  | e :: es =>
      match processEntry sourceDir outputDir e st with
      | Ok st' => processEntries sourceDir outputDir es st'
      | Throw m => Throw m
      end
  end.

(** [processDirectory(sourceDir, outputDir)] on a directory with the given
    entries.  The file system of the model is keyed by path and has no
    directories of its own, so that [ensureDir] changes nothing in it. *)
Definition processDirectory (sourceDir outputDir : jsstring) (entries : list Entry)
    (st : Run) : result Run :=
  processEntries sourceDir outputDir entries st.

End Walk.

(** The files of an entry, at any depth, all have an image extension. *)
Fixpoint imagesOnly (entry : Entry) : bool :=
  match entry with
  | File name => isImageName name
  | Dir _ entries => forallb imagesOnly entries
  | Other _ => true
  end.

End Tree.

(** ** Descriptions ([cleanDescription]) *)

Module Description.

(** [.replace(/pat/g, rep)] for a pattern without metacharacters, which is
    not empty: [skip] counts the code units of a match that are still to be
    passed over. *)
Fixpoint replaceAllFrom (pat rep : jsstring) (skip : nat) (s : jsstring) : jsstring :=
  match s with
  | [] => []
  | c :: r =>
      match skip with
      | S k => replaceAllFrom pat rep k r
      | O =>
          if startsWith pat s then rep ++ replaceAllFrom pat rep (length pat - 1) r
          else c :: replaceAllFrom pat rep 0 r
      end
  end.

Definition replaceAll (pat rep s : jsstring) : jsstring := replaceAllFrom pat rep 0 s.

(** The six entity replacements, in the order of the source. *)
Definition decodeEntities (s : jsstring) : jsstring :=
  replaceAll (lit "&#8212;") [8212]
    (replaceAll (lit "&#8211;") [8211]
       (replaceAll (lit "&gt;") [62]
          (replaceAll (lit "&lt;") [60]
             (replaceAll (lit "&amp;") [38]
                (replaceAll (lit "&quot;") [34] s))))).

Definition notClosingBrace (c : N) : bool := negb (c =? 125).
Definition notEquals (c : N) : bool := negb (c =? 61).
Definition notQuote (c : N) : bool := negb (c =? 34).

(** [.replace(/\{[^}]*\}/g, '')]: an opening brace matches up to the next
    closing brace, when there is one. *)
Fixpoint stripBracesFrom (skip : nat) (s : jsstring) : jsstring :=
  match s with
  | [] => []
  | c :: r =>
      match skip with
      | S k => stripBracesFrom k r
      | O =>
          if (c =? 123) && existsb (N.eqb 125) r
          then stripBracesFrom (S (length (takeWhile notClosingBrace r))) r
          else c :: stripBracesFrom 0 r
      end
  end.

Definition stripBraces (s : jsstring) : jsstring := stripBracesFrom 0 s.

(** The length of the match of the data attribute pattern at the start of
    [s]: [data-], then all up to the next equals sign, which a double quote
    follows, then all up to the next double quote.  The classes exclude the
    character that comes after them, so that giving back matched characters
    finds no other match. *)
Definition dataAttributeLength (s : jsstring) : option nat :=
  if startsWith (lit "data-") s then
    let after := drop 5 s in
    let name := takeWhile notEquals after in
    match drop (length name) after with
    | e :: q :: rest =>
        if (e =? 61) && (q =? 34) then
          let value := takeWhile notQuote rest in
          match drop (length value) rest with
          | _ :: _ => Some (5 + length name + 2 + length value + 1)%nat
          | [] => None
          end
        else None
    | _ => None
    end
  else None.

Fixpoint stripDataAttributesFrom (skip : nat) (s : jsstring) : jsstring :=
  match s with
  | [] => []
  | c :: r =>
      match skip with
      | S k => stripDataAttributesFrom k r
      | O =>
          match dataAttributeLength s with
          | Some n => stripDataAttributesFrom (n - 1) r
          | None => c :: stripDataAttributesFrom 0 r
          end
      end
  end.

Definition stripDataAttributes (s : jsstring) : jsstring := stripDataAttributesFrom 0 s.

(** [description] is [None] for [undefined] and [null]; the empty string is
    falsy as well. *)
Definition cleanDescription (description : option jsstring) : jsstring :=
  match description with
  | None => []
  | Some [] => []
  | Some d =>
      take 160
        (trim
           (Yaml.collapseWhiteSpace
              (stripDataAttributes (stripBraces (stripTags (decodeEntities d))))))
  end.

End Description.

(** ** The picture element ([generatePictureElement]) *)

Module Picture.

Import Transcoder.

(** The addresses in the [srcset] and [src] attributes of the element, from
    top to bottom. *)
Definition sources (imageName : jsstring) : list jsstring :=
  let nameWithoutExt := basenameWithout imageName (extname imageName) in
  [ lit "/assets/articles/" ++ nameWithoutExt ++ lit "-sm.webp";
    lit "/assets/articles/" ++ nameWithoutExt ++ lit "-sm.jpg";
    lit "/assets/articles/" ++ nameWithoutExt ++ lit "-md.webp";
    lit "/assets/articles/" ++ nameWithoutExt ++ lit "-md.jpg";
    lit "/assets/articles/" ++ nameWithoutExt ++ lit "-lg.webp";
    lit "/assets/articles/" ++ nameWithoutExt ++ lit "-lg.jpg";
    lit "/assets/articles/" ++ nameWithoutExt ++ lit ".webp";
    lit "/assets/articles/" ++ nameWithoutExt ++ lit ".jpg" ].

End Picture.

(** * Example data *)

(** The run behind the counterexample and the witness of C3: the record of
    [/equipa] has no title, that of [/sobre] is complete, and no write
    fails. *)
Definition pageWithoutTitle : PageData :=
  {| url := lit "https://obraabc.org/equipa"; title := None;
     content := Some {| main := Some (lit "<p>Equipa</p>") |};
     meta := Some {| description := None; ogTitle := None;
                     ogDescription := None; canonical := None |} |}.

Definition pageComplete : PageData :=
  {| url := lit "https://obraabc.org/sobre"; title := Some (lit "Sobre | Obra ABC");
     content := Some {| main := Some (lit "<p>Sobre</p>") |};
     meta := Some {| description := None; ogTitle := None;
                     ogDescription := None; canonical := None |} |}.

Definition bodyAsIs (m : option jsstring) : jsstring :=
  match m with
  | Some b => b
  | None => []
  end.

Definition writesSucceed (path : jsstring) : option jsstring := None.

Definition runWithFailingPage : Completion * Processor :=
  processAllContent bodyAsIs writesSucceed
    (Ok [WithUrl pageWithoutTitle; WithUrl pageComplete]) newProcessor.

Definition runWithoutFailingPage : Completion * Processor :=
  processAllContent bodyAsIs writesSucceed (Ok [WithUrl pageComplete]) newProcessor.

(** A small site with a cycle, for the witness of C1: the start URL and the
    home page link to each other's pages, [/sobre] links back, [/blog/a]
    times out, and two links lead off the site. *)
Module Site.

Definition hostname (u : jsstring) : option jsstring :=
  if startsWith (lit "https://obraabc.org") u then Some (lit "obraabc.org")
  else if startsWith (lit "https://") u then Some (lit "elsewhere.example")
  else None.

Definition extracted (t : string) : Crawler.Extracted :=
  {| Crawler.x_title := lit t;
     Crawler.x_meta := {| description := None; ogTitle := None;
                          ogDescription := None; canonical := None |};
     Crawler.x_main := lit "<p>...</p>" |}.

Definition start : jsstring := lit "https://obraabc.org".
Definition home : jsstring := lit "https://obraabc.org/".
Definition sobre : jsstring := lit "https://obraabc.org/sobre".
Definition post : jsstring := lit "https://obraabc.org/blog/a".

Definition browse (u : jsstring) : Crawler.Visit :=
  if bool_decide (u = start) then
    Crawler.Loaded (extracted "Obra ABC")
      [home; sobre; lit "https://facebook.com/obraabc"; lit "javascript:void(0)"] []
  else if bool_decide (u = home) then
    Crawler.Loaded (extracted "Obra ABC") [sobre; post; home] []
  else if bool_decide (u = sobre) then
    Crawler.Loaded (extracted "Sobre") [home; start] []
  else Crawler.GotoFails (lit "Timeout 30000ms exceeded").

Definition universe : list jsstring := [start; home; sobre; post].

(** The same site when the page object for [post] cannot be opened. *)
Definition targetClosed : jsstring :=
  lit "browserContext.newPage: Target page, context or browser has been closed".

Definition session (u : jsstring) : Sessions.Session :=
  if bool_decide (u = post) then Sessions.NewPageFails targetClosed
  else Sessions.Opened (browse u) None.

Definition afterCrawl : Crawler.Crawler :=
  match Sessions.crawlSite start hostname session None None 4 with
  | Some (st, _) => st
  | None => Crawler.newCrawler
  end.

End Site.

(** An image list in which the logo of the site comes twice, as the crawler
    writes it when two pages show the same image. *)
Module Gallery.

Definition pathnameOf (u : jsstring) : option jsstring :=
  if startsWith (lit "https://obraabc.org") u then Some (drop 19 u) else None.

Definition allSaved (u : jsstring) : Fetcher.Download := Fetcher.Saved.

Definition logoUrl : jsstring := lit "https://obraabc.org/wp-content/uploads/logo.png".

Definition logo : Fetcher.ImageData :=
  Fetcher.ImageObject (Some logoUrl) (lit "Logo") (Some 200) (Some 80).

Definition photo (n : N) : Fetcher.ImageData :=
  Fetcher.ImageUrl (lit "https://obraabc.org/fotos/" ++ numberToString n ++ lit ".jpg").

Definition empty : Fetcher.Optimizer :=
  {| Fetcher.downloadedImages := []; Fetcher.errors := []; Fetcher.files := [] |}.

(** The batches start a second apart, the pause between two batches. *)
Definition clockByBatch (i : nat) : N := 1700000000000 + 1000 * N.of_nat (i / 5).

Definition twoBatches : Fetcher.Optimizer :=
  Fetcher.optimizeAllImages pathnameOf allSaved clockByBatch
    [logo; photo 1; photo 2; photo 3; photo 4; logo] empty.

Definition oneBatch : Fetcher.Optimizer :=
  Fetcher.optimizeAllImages pathnameOf allSaved (fun _ => 1700000000000)
    [logo; logo] empty.

Definition ofLogo (d : Fetcher.Downloaded) : bool :=
  bool_decide (Fetcher.originalUrl d = logoUrl).

(** The entry of the first logo of [twoBatches]. *)
Definition firstLogo : Fetcher.Downloaded :=
  {| Fetcher.originalUrl := logoUrl;
     Fetcher.filename := lit "logo-1700000000000.png";
     Fetcher.path := lit "dist/assets/images/logo-1700000000000.png";
     Fetcher.d_alt := lit "Logo";
     Fetcher.d_width := Some 200; Fetcher.d_height := Some 80 |}.

(** Two images of one batch with the same base name, hence the same
    destination: the first is saved, and the stream of the second fails,
    so that its handler unlinks the destination. *)
Definition bannerA : jsstring := lit "https://obraabc.org/2020/banner.jpg".
Definition bannerB : jsstring := lit "https://obraabc.org/2021/banner.jpg".

Definition secondFails (u : jsstring) : Fetcher.Download :=
  if bool_decide (u = bannerB) then Fetcher.Rejected (lit "write EIO") Fetcher.Unlinked
  else Fetcher.Saved.

Definition unlinkedRun : Fetcher.Optimizer :=
  Fetcher.optimizeAllImages pathnameOf secondFails (fun _ => 1700000000000)
    [Fetcher.ImageUrl bannerA; Fetcher.ImageUrl bannerB] empty.

Definition saved : Fetcher.Downloaded :=
  {| Fetcher.originalUrl := bannerA;
     Fetcher.filename := lit "banner-1700000000000.jpg";
     Fetcher.path := lit "dist/assets/images/banner-1700000000000.jpg";
     Fetcher.d_alt := [];
     Fetcher.d_width := None; Fetcher.d_height := None |}.

End Gallery.

(** A 300 pixel wide photograph and an output directory, for the
    counterexamples and witnesses of C4 and C9. *)
Module Studio.

Import Transcoder.

Definition input : jsstring := lit "src/assets/articles/festa/foto.jpg".
Definition outDir : jsstring := lit "public/assets/articles/festa".

Definition small : Image := {| img_width := 300; img_height := 200 |}.
Definition source : File := {| mtime := 20; data := Picture small |}.

Definition scaledHeight (w : N) (img : Image) : N :=
  img_height img * w / img_width img.

Definition allOk (t : jsstring) : WriteOutcome := WriteOk.

(** Nothing written yet. *)
Definition fresh : Run := {| fs := {[ input := source ]}; log := [] |}.

(** A good [foto-sm.webp] from before the photograph was last changed. *)
Definition smWebp : jsstring := lit "public/assets/articles/festa/foto-sm.webp".
Definition old : File := {| mtime := 10; data := Encoded webp 85 small |}.
Definition withOld : Run := {| fs := <[smWebp := old]> {[ input := source ]}; log := [] |}.

(** The codec fails partway on [foto-sm.webp] and nowhere else. *)
Definition failsOnce (t : jsstring) : WriteOutcome :=
  if bool_decide (t = smWebp) then WriteFails (lit "write EIO") true else WriteOk.

Definition smallRun : result Run :=
  optimizeWithSharp true allOk scaledHeight 30 input outDir (lit "foto.jpg") fresh.

Definition failedRun : result Run :=
  optimizeWithSharp true failsOnce scaledHeight 30 input outDir (lit "foto.jpg") withOld.

Definition afterSmallRun : Run :=
  match smallRun with
  | Ok st => st
  | Throw _ => fresh
  end.

(** A directory of articles with one folder, and the walk over it. *)
Definition articles : jsstring := lit "src/assets/articles".
Definition public : jsstring := lit "public/assets/articles".
Definition notes : jsstring := lit "src/assets/articles/festa/notas.txt".
Definition notesFile : File := {| mtime := 5; data := NoPicture |}.

Definition photosOnly : list Tree.Entry :=
  [Tree.Dir (lit "festa") [Tree.File (lit "foto.jpg")]; Tree.Other (lit "socket")].

Definition photoAndNotes : list Tree.Entry :=
  [Tree.Dir (lit "festa") [Tree.File (lit "notas.txt")]].

Definition withNotes : Run :=
  {| fs := <[notes := notesFile]> {[ input := source ]}; log := [] |}.

Definition notesWalk : result Run :=
  Tree.processDirectory true allOk scaledHeight 30 articles public photoAndNotes withNotes.

Definition afterNotesWalk : Run :=
  match notesWalk with
  | Ok st => st
  | Throw _ => withNotes
  end.

Definition generatedCount (r : result Run) : nat :=
  match r with
  | Ok st => length (List.filter isGenerated (log st))
  | Throw _ => 0
  end.

Definition widthAt (r : result Run) (p : jsstring) : option N :=
  match r with
  | Ok st => img_width <$> (fs st !! p ≫= fun f => pictureOf (data f))
  | Throw _ => None
  end.

Definition fileAt (r : result Run) (p : jsstring) : option File :=
  match r with
  | Ok st => fs st !! p
  | Throw _ => None
  end.

End Studio.

(** * Properties *)

(** Settles [Forall (fun c => lowerUnit c = [c]) (lit "...")] by running it. *)
Ltac lower_fixed := repeat (constructor; [vm_compute; reflexivity|]); constructor.

(** Settles that a given size class and format is one of the eight writes. *)
Ltac job_in :=
  apply list_elem_of_In; unfold Transcoder.jobs, Transcoder.CONFIG_sizes;
  simpl; tauto.

(** ** Strings *)

Section StringFacts.

Lemma startsWith_prefix (p s : jsstring) :
  startsWith p s = true <-> exists r, s = p ++ r.
Proof.
  revert s. induction p as [|a p IH]; intros s; simpl.
  - split; [intros _; by exists s | done].
  - destruct s as [|b s].
    + split; [done | intros [r Hr]; discriminate].
    + rewrite andb_true_iff, N.eqb_eq, IH. split.
      * intros [-> [r ->]]. by exists r.
      * intros [r Hr]. injection Hr as -> ->. eauto.
Qed.

Lemma includes_infix (p s : jsstring) :
  includes p s = true <-> exists a b, s = a ++ p ++ b.
Proof.
  induction s as [|c s IH]; simpl.
  - rewrite orb_false_r, startsWith_prefix. split.
    + intros [r Hr]. by exists [], r.
    + intros (a & b & H). destruct a; [by exists b | discriminate].
  - rewrite orb_true_iff, startsWith_prefix, IH. split.
    + intros [[r Hr] | (a & b & ->)]; [by exists [], r | by exists (c :: a), b].
    + intros (a & b & H). destruct a as [|x a]; simpl in H.
      * left. by exists b.
      * right. injection H as -> ->. by exists a, b.
Qed.

Lemma endsWith_suffix (p s : jsstring) :
  endsWith p s = true <-> exists a, s = a ++ p.
Proof.
  unfold endsWith. rewrite startsWith_prefix. split.
  - intros [r Hr]. exists (reverse r).
    apply (inj reverse). by rewrite reverse_app, reverse_involutive.
  - intros [a ->]. exists (reverse a). by rewrite reverse_app.
Qed.

Lemma toLowerCase_app (a b : jsstring) :
  toLowerCase (a ++ b) = toLowerCase a ++ toLowerCase b.
Proof. unfold toLowerCase. apply flat_map_app. Qed.

(** A string of characters that are their own lower case is kept. *)
Lemma toLowerCase_fixed (p : jsstring) :
  Forall (fun c => lowerUnit c = [c]) p -> toLowerCase p = p.
Proof.
  induction 1 as [|c p Hc _ IH]; [done|].
  unfold toLowerCase in *. simpl. by rewrite Hc, IH.
Qed.

Lemma includes_toLowerCase (p s : jsstring) :
  Forall (fun c => lowerUnit c = [c]) p ->
  includes p s = true -> includes p (toLowerCase s) = true.
Proof.
  intros Hp. rewrite !includes_infix. intros (a & b & ->).
  exists (toLowerCase a), (toLowerCase b).
  by rewrite !toLowerCase_app, (toLowerCase_fixed p Hp).
Qed.

Lemma endsWith_toLowerCase (p s : jsstring) :
  Forall (fun c => lowerUnit c = [c]) p ->
  endsWith p s = true -> endsWith p (toLowerCase s) = true.
Proof.
  intros Hp. rewrite !endsWith_suffix. intros [a ->].
  exists (toLowerCase a). by rewrite toLowerCase_app, (toLowerCase_fixed p Hp).
Qed.

End StringFacts.

(** ** Slugs *)

Section SlugFacts.

Lemma replaceNonSlugChars_slug (s : jsstring) :
  Forall (fun c => isSlugChar c = true) (replaceNonSlugChars s).
Proof.
  induction s as [|c s IH]; simpl; constructor; [|done].
  destruct (isSlugChar c) eqn:E; [done | reflexivity].
Qed.

Lemma collapseHyphens_Forall (P : N -> Prop) (s : jsstring) :
  Forall P s -> Forall P (collapseHyphens s).
Proof.
  induction 1 as [|c r Hc Hr IH]; simpl; [done|].
  destruct (isHyphen c); [|by constructor].
  destruct r as [|d r']; [by constructor|].
  destruct (isHyphen d); [done | by constructor].
Qed.

Lemma dropLeadingHyphen_Forall (P : N -> Prop) (s : jsstring) :
  Forall P s -> Forall P (dropLeadingHyphen s).
Proof.
  destruct 1 as [|c r Hc Hr]; simpl; [done|].
  destruct (isHyphen c); [done | by constructor].
Qed.

Lemma dropTrailingHyphen_Forall (P : N -> Prop) (s : jsstring) :
  Forall P s -> Forall P (dropTrailingHyphen s).
Proof.
  induction 1 as [|c r Hc Hr IH]; simpl; [done|].
  destruct r as [|d r'].
  - destruct (isHyphen c); [done | by constructor].
  - by constructor.
Qed.

Lemma collapseHyphens_head (s : jsstring) :
  head (collapseHyphens s) = head s.
Proof.
  induction s as [|c r IH]; simpl; [done|].
  destruct (isHyphen c) eqn:Ec; [|done].
  destruct r as [|d r']; [done|].
  destruct (isHyphen d) eqn:Ed; [|done].
  rewrite IH. simpl. unfold isHyphen in *.
  apply N.eqb_eq in Ec, Ed. congruence.
Qed.

Lemma collapseHyphens_cons2 (c d : N) (r : jsstring) :
  collapseHyphens (c :: d :: r) =
  if isHyphen c && isHyphen d then collapseHyphens (d :: r)
  else c :: collapseHyphens (d :: r).
Proof.
  change (collapseHyphens (c :: d :: r))
    with (if isHyphen c
          then if isHyphen d then collapseHyphens (d :: r) else c :: collapseHyphens (d :: r)
          else c :: collapseHyphens (d :: r)).
  by destruct (isHyphen c), (isHyphen d).
Qed.

Lemma noDoubleHyphen_cons (c : N) (s : jsstring) :
  noDoubleHyphen s = true ->
  (forall d, head s = Some d -> isHyphen c && isHyphen d = false) ->
  noDoubleHyphen (c :: s) = true.
Proof.
  destruct s as [|d t]; [done|]. intros Hs Hd.
  change (negb (isHyphen c && isHyphen d) && noDoubleHyphen (d :: t) = true).
  by rewrite (Hd d eq_refl), Hs.
Qed.

Lemma collapseHyphens_noDouble (s : jsstring) :
  noDoubleHyphen (collapseHyphens s) = true.
Proof.
  induction s as [|c r IH]; [done|].
  destruct r as [|d r'].
  - simpl. by destruct (isHyphen c).
  - rewrite collapseHyphens_cons2.
    destruct (isHyphen c && isHyphen d) eqn:E; [done|].
    apply noDoubleHyphen_cons; [done|].
    intros d'. rewrite collapseHyphens_head. by intros [= <-].
Qed.

Lemma noDoubleHyphen_inv (c d : N) (r : jsstring) :
  noDoubleHyphen (c :: d :: r) = true ->
  isHyphen c && isHyphen d = false /\ noDoubleHyphen (d :: r) = true.
Proof.
  change (noDoubleHyphen (c :: d :: r))
    with (negb (isHyphen c && isHyphen d) && noDoubleHyphen (d :: r)).
  intros [H1 H2]%andb_true_iff. split; [|done]. by apply negb_true_iff.
Qed.

Lemma isHyphen_hyphen : isHyphen hyphen = true.
Proof. reflexivity. Qed.

Lemma dropLeadingHyphen_head (s : jsstring) :
  noDoubleHyphen s = true -> head (dropLeadingHyphen s) ≠ Some hyphen.
Proof.
  destruct s as [|c r]; [done|]. unfold dropLeadingHyphen.
  destruct (isHyphen c) eqn:Ec.
  - destruct r as [|d r']; [done|].
    intros [Hcd _]%noDoubleHyphen_inv [= ->].
    by rewrite Ec, isHyphen_hyphen in Hcd.
  - intros _ [= ->]. by rewrite isHyphen_hyphen in Ec.
Qed.

Lemma dropLeadingHyphen_noDouble (s : jsstring) :
  noDoubleHyphen s = true -> noDoubleHyphen (dropLeadingHyphen s) = true.
Proof.
  destruct s as [|c r]; [done|]. unfold dropLeadingHyphen.
  destruct (isHyphen c); [|done].
  destruct r; [done|]. by intros [_ ?]%noDoubleHyphen_inv.
Qed.

Lemma dropTrailingHyphen_head (s : jsstring) :
  head s ≠ Some hyphen -> head (dropTrailingHyphen s) ≠ Some hyphen.
Proof.
  destruct s as [|c [|d r]]; simpl; [done| |done].
  by destruct (isHyphen c).
Qed.

Lemma dropTrailingHyphen_nil (s : jsstring) :
  dropTrailingHyphen s = [] -> s = [] \/ s = [hyphen].
Proof.
  destruct s as [|c [|d r]]; simpl; [by left| |done].
  destruct (isHyphen c) eqn:Ec; [|done].
  apply N.eqb_eq in Ec as ->. by right.
Qed.

Lemma dropTrailingHyphen_last (s : jsstring) :
  noDoubleHyphen s = true -> last (dropTrailingHyphen s) ≠ Some hyphen.
Proof.
  induction s as [|c r IH]; [done|].
  destruct r as [|d r'].
  - simpl. destruct (isHyphen c) eqn:Ec; [done|].
    intros _ [= ->]. by rewrite isHyphen_hyphen in Ec.
  - intros [Hcd Hnd]%noDoubleHyphen_inv.
    change (dropTrailingHyphen (c :: d :: r'))
      with (c :: dropTrailingHyphen (d :: r')).
    destruct (dropTrailingHyphen (d :: r')) as [|e t] eqn:Et.
    + apply dropTrailingHyphen_nil in Et as [? | [= -> ->]]; [done|].
      simpl. intros [= ->]. by rewrite !isHyphen_hyphen in Hcd.
    + rewrite last_cons_cons. by apply IH.
Qed.

Lemma collapseHyphens_all_hyphens (s : jsstring) :
  Forall (fun c => isHyphen c = true) s ->
  collapseHyphens s = [] \/ exists c, isHyphen c = true /\ collapseHyphens s = [c].
Proof.
  induction 1 as [|c r Hc Hr IH]; simpl; [by left|].
  rewrite Hc. destruct r as [|d r']; [right; eauto|].
  inversion Hr as [|? ? Hd _]; subst. by rewrite Hd.
Qed.

Lemma stripEdgeHyphens_all_hyphens (s : jsstring) :
  Forall (fun c => isHyphen c = true) s ->
  stripEdgeHyphens (collapseHyphens s) = [].
Proof.
  intros [-> | (c & Hc & ->)]%collapseHyphens_all_hyphens; [done|].
  unfold stripEdgeHyphens. simpl. by rewrite Hc.
Qed.

Lemma inRange_false (lo hi c : N) :
  inRange lo hi c = false <-> c < lo \/ hi < c.
Proof. unfold inRange. rewrite andb_false_iff, !N.leb_gt. tauto. Qed.

Lemma inRange_true (lo hi c : N) :
  inRange lo hi c = true <-> lo <= c <= hi.
Proof. unfold inRange. rewrite andb_true_iff, !N.leb_le. tauto. Qed.

Lemma isLowerAlnum_false (d : N) :
  isLowerAlnum d = false <-> (d < 97 \/ 122 < d) /\ (d < 48 \/ 57 < d).
Proof.
  unfold isLowerAlnum, isLowerAz, isDigit.
  by rewrite orb_false_iff, !inRange_false.
Qed.

Lemma lowerUnit_not_alphanumeric (c : N) :
  isAlphanumeric c = false ->
  Forall (fun d => isLowerAlnum d = false) (lowerUnit c).
Proof.
  unfold isAlphanumeric, isLowerAz, isUpperAz, isDigit.
  rewrite !orb_false_iff, !inRange_false, !N.eqb_neq.
  intros ((((Hl & Hu) & Hd) & H304) & H8490).
  unfold lowerUnit, isUpperAz.
  destruct (inRange 65 90 c) eqn:E1.
  { apply inRange_true in E1. lia. }
  destruct (inRange 192 222 c && negb (c =? 215)) eqn:E2.
  { apply andb_true_iff in E2 as [E2 _]. apply inRange_true in E2.
    constructor; [|constructor]. apply isLowerAlnum_false. lia. }
  destruct (N.eqb_spec c 304); [done|].
  destruct (N.eqb_spec c 376); [by repeat constructor|].
  destruct (N.eqb_spec c 7838); [by repeat constructor|].
  destruct (N.eqb_spec c 8490); [done|].
  destruct (N.eqb_spec c 8491); [by repeat constructor|].
  constructor; [|constructor]. by apply isLowerAlnum_false.
Qed.

Lemma replace_lower_all_hyphens (s : jsstring) :
  Forall (fun c => isAlphanumeric c = false) s ->
  Forall (fun c => isHyphen c = true) (replaceNonSlugChars (toLowerCase s)).
Proof.
  induction 1 as [|c r Hc Hr IH]; [constructor|].
  change (toLowerCase (c :: r)) with (lowerUnit c ++ toLowerCase r).
  unfold replaceNonSlugChars in *. rewrite map_app. apply Forall_app. split; [|done].
  apply lowerUnit_not_alphanumeric in Hc.
  induction Hc as [|d t Hd Ht IHt]; simpl; constructor; [|done].
  unfold isSlugChar. unfold isLowerAlnum in Hd. apply orb_false_iff in Hd as [-> ->].
  simpl. by destruct (isHyphen d) eqn:E.
Qed.

End SlugFacts.

Section SlugRuns.

Lemma collapseHyphens_app (a b : jsstring) (c : N) :
  isHyphen c = false ->
  collapseHyphens (a ++ c :: b) = collapseHyphens a ++ c :: collapseHyphens b.
Proof.
  intros Hc. induction a as [|h a IH].
  - simpl. by rewrite Hc.
  - destruct a as [|d a'].
    + simpl. rewrite Hc. by destruct (isHyphen h).
    + change ((h :: d :: a') ++ c :: b) with (h :: d :: (a' ++ c :: b)).
      rewrite !collapseHyphens_cons2.
      change (d :: a' ++ c :: b) with ((d :: a') ++ c :: b). rewrite IH.
      by destruct (isHyphen h && isHyphen d).
Qed.

Lemma collapseHyphens_hyphens (n : nat) :
  collapseHyphens (repeat hyphen (S n)) = [hyphen].
Proof.
  induction n as [|n IH]; [done|].
  change (repeat hyphen (S (S n))) with (hyphen :: hyphen :: repeat hyphen n).
  rewrite collapseHyphens_cons2. by rewrite isHyphen_hyphen.
Qed.

Lemma replaceNonSlugChars_run (run : jsstring) :
  Forall (fun c => isSlugChar c = false) run ->
  replaceNonSlugChars run = repeat hyphen (length run).
Proof.
  induction 1 as [|c r Hc _ IH]; [done|].
  simpl. by rewrite Hc, IH.
Qed.

Lemma isLowerAlnum_slug (x : N) :
  isLowerAlnum x = true -> isSlugChar x = true /\ isHyphen x = false.
Proof.
  unfold isLowerAlnum, isSlugChar, isLowerAz, isDigit, isHyphen, hyphen.
  intros H. split; [by rewrite H|].
  apply orb_true_iff in H. rewrite !inRange_true in H. apply N.eqb_neq. lia.
Qed.

Lemma normalize_run (a b run : jsstring) (x y : N) :
  isLowerAlnum x = true -> isLowerAlnum y = true -> run ≠ [] ->
  Forall (fun c => isSlugChar c = false) run ->
  collapseHyphens (replaceNonSlugChars (a ++ [x] ++ run ++ [y] ++ b))
  = collapseHyphens (replaceNonSlugChars (a ++ [x])) ++ [hyphen]
    ++ collapseHyphens (replaceNonSlugChars ([y] ++ b)).
Proof.
  intros [Hxs Hxh]%isLowerAlnum_slug [Hys Hyh]%isLowerAlnum_slug Hne Hrun.
  unfold replaceNonSlugChars at 1 2 3. rewrite !map_app. simpl List.map.
  rewrite Hxs, Hys.
  fold (replaceNonSlugChars a). fold (replaceNonSlugChars b). fold (replaceNonSlugChars run).
  rewrite (replaceNonSlugChars_run run Hrun).
  destruct run as [|r0 run']; [done|]. simpl length.
  set (A := replaceNonSlugChars a). set (B := replaceNonSlugChars b).
  set (H := repeat hyphen (S (length run'))).
  change (A ++ [x] ++ H ++ [y] ++ B) with (A ++ x :: (H ++ y :: B)).
  change ([y] ++ B) with ([] ++ y :: B).
  rewrite !(collapseHyphens_app _ _ x Hxh), !(collapseHyphens_app _ _ y Hyh).
  subst H. rewrite collapseHyphens_hyphens.
  by rewrite <- app_assoc.
Qed.

End SlugRuns.

(** C10.  Every slug consists of characters of [[a-z0-9-]] and neither
    starts nor ends with a hyphen; a path that is not empty and has no
    letter or digit gives the empty slug, and the empty path gives
    [index]. *)
Theorem createSlug_url_safe (url : jsstring) :
  Forall (fun c => isSlugChar c = true) (createSlug url)
  /\ head (createSlug url) ≠ Some hyphen
  /\ last (createSlug url) ≠ Some hyphen
  /\ (slugPath url ≠ [] ->
      Forall (fun c => isAlphanumeric c = false) (slugPath url) ->
      createSlug url = [])
  /\ (slugPath url = [] -> createSlug url = lit "index").
Proof.
  unfold createSlug. destruct (slugPath url) as [|c0 path] eqn:Hpath.
  - split; [repeat constructor|]. by repeat split.
  - set (t := collapseHyphens (replaceNonSlugChars (toLowerCase (c0 :: path)))).
    assert (Ht : noDoubleHyphen t = true) by apply collapseHyphens_noDouble.
    split.
    { apply dropTrailingHyphen_Forall, dropLeadingHyphen_Forall,
        collapseHyphens_Forall, replaceNonSlugChars_slug. }
    split.
    { by apply dropTrailingHyphen_head, dropLeadingHyphen_head. }
    split.
    { by apply dropTrailingHyphen_last, dropLeadingHyphen_noDouble. }
    split; [|done].
    intros _ Hno. by apply stripEdgeHyphens_all_hyphens, replace_lower_all_hyphens.
Qed.

Lemma createSlug_url_safe_witness :
  createSlug (lit "https://obraabc.org/?!/") = []
  /\ createSlug (lit "https://obraabc.org//") = lit "index".
Proof.
  destruct (createSlug_url_safe (lit "https://obraabc.org/?!/")) as (_ & _ & _ & Hempty & _).
  destruct (createSlug_url_safe (lit "https://obraabc.org//")) as (_ & _ & _ & _ & Hidx).
  split.
  - apply Hempty; [vm_compute; discriminate | vm_compute; repeat constructor].
  - apply Hidx. reflexivity.
Defined.

Example createSlug_kelvin_sign : createSlug (baseUrl ++ [slash; 8490]) = lit "k".
Proof. by vm_compute. Qed.

Example createSlug_query_only : createSlug (lit "https://obraabc.org/?") = [].
Proof. by vm_compute. Qed.

(** ** Titles, categories, exclusion *)

Example cleanTitle_site_name : cleanTitle (lit "Sobre | Obra ABC") = lit "Sobre".
Proof. by vm_compute. Qed.

Example cleanTitle_tagline : cleanTitle (lit "Contactos - Fale connosco") = lit "Contactos".
Proof. by vm_compute. Qed.

(** C6.  On the title [Guarda-chuva | Obra ABC] the title before the
    trailing site name is [Guarda-chuva]; [cleanTitle] returns [Guarda]: the
    second replacement starts at the first hyphen of the title, with or
    without white space around it. *)
Theorem cleanTitle_cuts_hyphenated_word :
  cutAtSuffix pipe (lit "Guarda-chuva | Obra ABC") = lit "Guarda-chuva"
  /\ cleanTitle (lit "Guarda-chuva | Obra ABC") = lit "Guarda"
  /\ cleanTitle (lit "Guarda-chuva | Obra ABC") ≠ lit "Guarda-chuva".
Proof. by vm_compute. Qed.

Lemma determineContentType_firstMatch (p : PageData) :
  determineContentType p
  = firstMatch categoryRules (toLowerCase (url p)) (toLowerCase (titleOrEmpty p)).
Proof.
  unfold determineContentType, categoryRules, firstMatch.
  repeat match goal with
         | |- (if ?c then _ else _) = (if ?c then _ else _) => destruct c; [reflexivity|]
         end.
  reflexivity.
Qed.

(** C7.  A page whose URL contains [/blog/] is an [article], whatever else
    the URL contains, [/contato/] included, and so is a page whose
    lower-cased title contains [artigo], whatever its URL.  With [U] the
    lower-cased URL and [T] the lower-cased title (empty when the record has
    none), the category is that of the first test that holds, in the order
    article, service, about, contact, resource, and [page] when none holds:
    a later test decides only when all earlier ones fail, so that a page
    has one category. *)
Theorem blog_rule_wins (p : PageData) (U T : jsstring) :
  U = toLowerCase (url p) ->
  T = toLowerCase (match title p with Some t => t | None => [] end) ->
  (includes (lit "/blog/") (url p) = true ->
   includes (lit "/contato/") (url p) = true ->
   determineContentType p = article)
  /\ (includes (lit "/blog/") (url p) = true -> determineContentType p = article)
  /\ (includes (lit "artigo") T = true -> determineContentType p = article)
  /\ (includes (lit "/blog/") U || includes (lit "/news/") U
      || includes (lit "/artigo/") U || includes (lit "/post/") U
      || includes (lit "artigo") T = true ->
      determineContentType p = article)
  /\ (includes (lit "/blog/") U || includes (lit "/news/") U
      || includes (lit "/artigo/") U || includes (lit "/post/") U
      || includes (lit "artigo") T = false ->
      (includes (lit "/servico") U || includes (lit "/service") U
       || includes servico_title T = true ->
       determineContentType p = service)
      /\ (includes (lit "/servico") U || includes (lit "/service") U
          || includes servico_title T = false ->
          (includes (lit "/sobre") U || includes (lit "/about") U
           || includes (lit "sobre") T = true ->
           determineContentType p = about)
          /\ (includes (lit "/sobre") U || includes (lit "/about") U
              || includes (lit "sobre") T = false ->
              (includes (lit "/contato") U || includes (lit "/contact") U
               || includes (lit "contacto") T = true ->
               determineContentType p = contact)
              /\ (includes (lit "/contato") U || includes (lit "/contact") U
                  || includes (lit "contacto") T = false ->
                  (includes (lit "/recurso") U || includes (lit "/resource") U
                   || includes (lit "/documento") U = true ->
                   determineContentType p = resource)
                  /\ (includes (lit "/recurso") U || includes (lit "/resource") U
                      || includes (lit "/documento") U = false ->
                      determineContentType p = page)))))
  /\ determineContentType p = firstMatch categoryRules U T.
Proof.
  intros -> ->.
  assert (Hblog : includes (lit "/blog/") (url p) = true -> determineContentType p = article).
  { intros H. unfold determineContentType.
    rewrite (includes_toLowerCase (lit "/blog/") (url p)); [done | lower_fixed | done]. }
  split; [auto|]. split; [done|].
  unfold determineContentType, titleOrEmpty.
  split; [intros H; by rewrite H, !orb_true_r|].
  split; [by intros ->|]. split.
  - intros ->. split; [by intros ->|]. intros ->. split; [by intros ->|].
    intros ->. split; [by intros ->|]. intros ->. split; by intros ->.
  - unfold categoryRules, firstMatch.
    repeat match goal with
           | |- (if ?c then _ else _) = (if ?c then _ else _) => destruct c; [reflexivity|]
           end.
    reflexivity.
Qed.

Lemma blog_rule_wins_witness :
  determineContentType
    {| url := lit "https://obraabc.org/blog/contato/"; title := Some (lit "Contacto");
       content := None; meta := None |} = article
  /\ determineContentType
       {| url := lit "https://obraabc.org/contato/"; title := Some (lit "ARTIGO de fundo");
          content := None; meta := None |} = article
  /\ determineContentType
       {| url := lit "https://obraabc.org/equipa"; title := Some (lit "Contactos");
          content := None; meta := None |} = contact.
Proof.
  split; [|split].
  - apply (proj1 (blog_rule_wins
             {| url := lit "https://obraabc.org/blog/contato/"; title := Some (lit "Contacto");
                content := None; meta := None |}
             (lit "https://obraabc.org/blog/contato/") (lit "contacto")
             eq_refl eq_refl)); reflexivity.
  - apply (proj1 (proj2 (proj2 (blog_rule_wins
             {| url := lit "https://obraabc.org/contato/";
                title := Some (lit "ARTIGO de fundo");
                content := None; meta := None |}
             (lit "https://obraabc.org/contato/") (lit "artigo de fundo")
             eq_refl eq_refl)))); reflexivity.
  - destruct (blog_rule_wins
                {| url := lit "https://obraabc.org/equipa"; title := Some (lit "Contactos");
                   content := None; meta := None |}
                (lit "https://obraabc.org/equipa") (lit "contactos")
                eq_refl eq_refl) as (_ & _ & _ & _ & Hrest & _).
    destruct (Hrest eq_refl) as (_ & Hrest2).
    destruct (Hrest2 eq_refl) as (_ & Hrest3).
    destruct (Hrest3 eq_refl) as (Hcontact & _).
    by apply Hcontact.
Defined.

(** C8.  A page whose URL ends in [.pdf] is excluded whatever its title,
    and a page whose title matches [/^\d+x\d+$/] is excluded whatever its
    URL and content, so also with a URL without asset extension and a
    minimal content. *)
Theorem pdf_url_and_dimension_title_excluded (p : PageData) :
  (endsWith (lit ".pdf") (url p) = true -> isValidContentPage p = false)
  /\ (isDimensions (titleOrEmpty p) = true -> isValidContentPage p = false).
Proof.
  split.
  - intros H. unfold isValidContentPage.
    destruct (existsb _ assetExtensions) eqn:E; [done|].
    exfalso. apply not_true_iff_false in E. apply E.
    apply existsb_exists. exists (lit ".pdf"). split.
    + vm_compute. tauto.
    + apply endsWith_toLowerCase; [lower_fixed | done].
  - intros H. unfold isValidContentPage.
    destruct (existsb _ assetExtensions); [done|].
    destruct (includes _ _); [done|].
    destruct (existsb _ skipPatterns); [done|].
    rewrite andb_false_r.
    unfold assetTitlePatterns. cbn [existsb]. by rewrite H, orb_true_r.
Qed.

Lemma pdf_url_and_dimension_title_excluded_witness :
  isValidContentPage
    {| url := lit "https://obraabc.org/docs/relatorio.pdf";
       title := Some (lit "Relatorio anual"); content := None; meta := None |} = false
  /\ isValidContentPage
       {| url := lit "https://obraabc.org/galeria/foto";
          title := Some (lit "1920x1080");
          content := Some {| main := Some (lit "<p>x</p>") |}; meta := None |} = false.
Proof.
  split.
  - apply (proj1 (pdf_url_and_dimension_title_excluded
             {| url := lit "https://obraabc.org/docs/relatorio.pdf";
                title := Some (lit "Relatorio anual"); content := None; meta := None |})).
    reflexivity.
  - apply (proj2 (pdf_url_and_dimension_title_excluded
             {| url := lit "https://obraabc.org/galeria/foto";
                title := Some (lit "1920x1080");
                content := Some {| main := Some (lit "<p>x</p>") |}; meta := None |})).
    reflexivity.
Defined.

(** ** Errors of single pages *)

Section PageErrors.

Variable renderBody : option jsstring -> jsstring.
Variable writeFails : jsstring -> option jsstring.

Lemma processPage_fold (pages : list PageData) (st : Processor) :
  let st' := fold_left (processPage renderBody writeFails) pages st in
  processedPages st' = processedPages st ++ omap (processedOf renderBody writeFails) pages
  /\ console st' = console st ++ List.map (logLineOf renderBody writeFails) pages.
Proof.
  revert st. induction pages as [|p pages IH]; intros st; simpl.
  - by rewrite !app_nil_r.
  - destruct (IH (processPage renderBody writeFails st p)) as [-> ->].
    unfold processPage, processedOf, logLineOf.
    destruct (processPageTry renderBody writeFails p) as [[pp file]|e]; simpl;
      by rewrite <- !app_assoc.
Qed.

Lemma processPage_fold_files (pages : list PageData) (st : Processor) :
  written (fold_left (processPage renderBody writeFails) pages st)
  = written st ++ omap (writtenOf renderBody writeFails) pages.
Proof.
  revert st. induction pages as [|p pages IH]; intros st; simpl.
  - by rewrite app_nil_r.
  - rewrite IH. unfold processPage, writtenOf.
    destruct (processPageTry renderBody writeFails p) as [[pp file]|e]; simpl;
      by rewrite <- ?app_assoc.
Qed.

(** Leaving out the pages whose processing throws changes neither the pages
    processed nor the files written. *)
Lemma omap_succeeds (pages : list PageData) :
  omap (processedOf renderBody writeFails) (List.filter (succeeds renderBody writeFails) pages)
  = omap (processedOf renderBody writeFails) pages
  /\ omap (writtenOf renderBody writeFails) (List.filter (succeeds renderBody writeFails) pages)
     = omap (writtenOf renderBody writeFails) pages.
Proof.
  induction pages as [|p pages [IH1 IH2]]; [done|]. simpl.
  destruct (succeeds renderBody writeFails p) eqn:Es; csimpl; rewrite IH1, IH2; [done|].
  unfold succeeds in Es. unfold processedOf, writtenOf.
  by destruct (processPageTry renderBody writeFails p) as [[pp file]|e].
Qed.

Lemma contentPages_succeeds (pages : list PageData) :
  contentPages (List.filter (succeeds renderBody writeFails) pages)
  = List.filter (succeeds renderBody writeFails) (contentPages pages).
Proof.
  unfold contentPages. induction pages as [|p pages IH]; [done|]. simpl.
  destruct (succeeds renderBody writeFails p) eqn:Es, (isValidContentPage p) eqn:Ev;
    simpl; rewrite ?Es, ?Ev; by rewrite ?IH.
Qed.

Lemma processPages_succeeds (pages : list PageData) (st : Processor) :
  processedPages
    (processPages renderBody writeFails (List.filter (succeeds renderBody writeFails) pages) st)
  = processedPages (processPages renderBody writeFails pages st)
  /\ written
       (processPages renderBody writeFails (List.filter (succeeds renderBody writeFails) pages) st)
     = written (processPages renderBody writeFails pages st).
Proof.
  unfold processPages. rewrite contentPages_succeeds.
  destruct (omap_succeeds (contentPages pages)) as [H1 H2].
  destruct (processPage_fold (contentPages pages) st) as [-> _].
  destruct (processPage_fold
              (List.filter (succeeds renderBody writeFails) (contentPages pages)) st)
    as [-> _].
  rewrite !processPage_fold_files. by rewrite H1, H2.
Qed.

Lemma recordsOf_WithUrl (pages : list PageData) :
  recordsOf (List.map WithUrl pages) = Ok pages.
Proof. induction pages as [|p pages IH]; simpl; [done | by rewrite IH]. Qed.

Lemma recordsOf_WithoutUrl (parsed : list PageRecord) (e : jsstring) :
  WithoutUrl e ∈ parsed ->
  exists e', WithoutUrl e' ∈ parsed /\ recordsOf parsed = Throw e'.
Proof.
  induction parsed as [|r parsed IH]; intros Hin; [by apply not_elem_of_nil in Hin|].
  destruct r as [p|e0]; simpl.
  - apply elem_of_cons in Hin as [Hin|Hin]; [done|].
    destruct (IH Hin) as (e' & He' & ->). exists e'. split; [|done].
    by apply list_elem_of_further.
  - exists e0. split; [apply list_elem_of_here | done].
Qed.

(** What [processAllContent] leaves, as far as its writes go, depends on
    the pages processed and the files written by the loop alone. *)
Lemma processAllContent_outcome (pages1 pages2 : list PageData) (st : Processor) :
  processedPages (processPages renderBody writeFails pages1 st)
  = processedPages (processPages renderBody writeFails pages2 st) ->
  written (processPages renderBody writeFails pages1 st)
  = written (processPages renderBody writeFails pages2 st) ->
  outcome (processAllContent renderBody writeFails (Ok (List.map WithUrl pages1)) st)
  = outcome (processAllContent renderBody writeFails (Ok (List.map WithUrl pages2)) st).
Proof.
  intros Hp Hw. unfold processAllContent. rewrite !recordsOf_WithUrl.
  unfold writeFile, redirectsOf, outcome. simpl.
  destruct (writeFails (lit "src/content/config.ts")); simpl; [by rewrite Hp, Hw|].
  destruct (writeFails (lit "redirects.json")); simpl; [by rewrite Hp, Hw|].
  destruct (writeFails (lit "public/_redirects")); simpl; by rewrite Hp, Hw.
Qed.

Lemma processAllContent_completes (allPagesData : list PageData) (st : Processor) :
  writeFails (lit "src/content/config.ts") = None ->
  writeFails (lit "redirects.json") = None ->
  writeFails (lit "public/_redirects") = None ->
  (processAllContent renderBody writeFails (Ok (List.map WithUrl allPagesData)) st).1
  = Completed.
Proof.
  intros H1 H2 H3. unfold processAllContent, writeFile.
  by rewrite recordsOf_WithUrl, H1, H2, H3.
Qed.

End PageErrors.

Section SessionFacts.

Import Crawler.

Variable base : jsstring.
Variable hostname : jsstring -> option jsstring.
Variable session : jsstring -> Sessions.Session.
Variable newContextFails : option jsstring.
Variable closeContextFails : option jsstring.

Local Abbreviation crawlPage := (Sessions.crawlPage base hostname session).
Local Abbreviation crawlBatches := (Sessions.crawlBatches base hostname session).
Local Abbreviation crawlLoop := (Sessions.crawlLoop base hostname session).
Local Abbreviation crawlSite :=
  (Sessions.crawlSite base hostname session newContextFails closeContextFails).
Local Abbreviation abortMessages :=
  (Sessions.abortMessages base session newContextFails closeContextFails).

(** What every call of [crawlPage] keeps, the crawl keeps, whether it
    returns or rejects. *)
Lemma sessions_crawlLoop_preserve (P : Crawler -> Prop) (fuel : nat) (st st' : Crawler) :
  (forall st u, P st -> P (crawlPage st u).1) ->
  P st -> crawlLoop fuel st = Some st' -> P st'.
Proof.
  intros Hstep.
  assert (Hfold : forall l st, P st -> P (fold_left (fun st u => (crawlPage st u).1) l st)).
  { induction l as [|u l IH]; intros st0 H0; simpl; [done|]. by apply IH, Hstep. }
  assert (Hbatches : forall bs st,
            P st ->
            P (fold_left (fun st batch => fold_left (fun st u => (crawlPage st u).1) batch st)
                 bs st)).
  { induction bs as [|b bs IH]; intros st0 H0; simpl; [done|]. by apply IH, Hfold. }
  revert st. induction fuel as [|fuel IH]; intros st HP; simpl.
  - destruct (frontier st); [by intros [= <-] | done].
  - destruct (frontier st) as [|u0 rest]; [by intros [= <-]|].
    apply IH. by apply Hbatches.
Qed.

Lemma sessions_crawlSite_preserve (P : Crawler -> Prop) (fuel : nat)
    (st : Crawler) (r : option jsstring) :
  (forall st u, P st -> P (crawlPage st u).1) ->
  P newCrawler -> crawlSite fuel = Some (st, r) -> P st.
Proof.
  intros Hstep H0. unfold Sessions.crawlSite.
  destruct newContextFails; [by intros [= <- _]|].
  pose proof (Hstep newCrawler base H0) as H1.
  destruct (Sessions.crawlPage base hostname session newCrawler base) as [st1 [e|]];
    [by intros [= <- _]|].
  destruct (Sessions.crawlLoop base hostname session fuel st1) as [st2|] eqn:E; [|done].
  intros [= <- _]. by apply (sessions_crawlLoop_preserve P fuel st1).
Qed.

Lemma sessions_crawlPage_records_error (st : Crawler) (u e : jsstring)
    (v : Visit) (close : option jsstring) :
  u ∉ visitedUrls st ->
  session u = Sessions.Opened v close ->
  visitError v = Some e ->
  errors (crawlPage st u).1 = errors st ++ [(u, e)].
Proof.
  intros Hu Hs Hv. unfold Sessions.crawlPage. rewrite decide_False by done.
  rewrite Hs. by destruct v; simplify_eq/=.
Qed.

(** The error list holds errors of the [try] block and nothing else. *)
Lemma sessions_crawlPage_errors (st : Crawler) (u : jsstring) :
  (forall w e, (w, e) ∈ errors st ->
     exists v close, session w = Sessions.Opened v close /\ visitError v = Some e) ->
  forall w e, (w, e) ∈ errors (crawlPage st u).1 ->
    exists v close, session w = Sessions.Opened v close /\ visitError v = Some e.
Proof.
  intros H w e. unfold Sessions.crawlPage.
  destruct (decide (u ∈ visitedUrls st)); [apply H|].
  destruct (session u) as [e0|v close] eqn:Hs; [apply H|].
  destruct v as [e1|x e1|x links e1|x links imgs]; simpl;
    try (intros [Hin | [= -> ->]%list_elem_of_singleton]%elem_of_app;
         [by apply H | by eexists _, _]);
    apply H.
Qed.

(** Every URL marked visited has a page record or an error, unless its page
    could not be opened; and every page record and error is of a visited
    URL. *)
Lemma sessions_crawlPage_accounts (st : Crawler) (u : jsstring) :
  (forall v, v ∈ visitedUrls st ->
     v ∈ List.map url (pagesData st) \/ v ∈ List.map fst (errors st)
     \/ exists e, session v = Sessions.NewPageFails e)
  /\ (forall v, v ∈ List.map url (pagesData st) -> v ∈ visitedUrls st)
  /\ (forall v, v ∈ List.map fst (errors st) -> v ∈ visitedUrls st) ->
  (forall v, v ∈ visitedUrls (crawlPage st u).1 ->
     v ∈ List.map url (pagesData (crawlPage st u).1)
     \/ v ∈ List.map fst (errors (crawlPage st u).1)
     \/ exists e, session v = Sessions.NewPageFails e)
  /\ (forall v, v ∈ List.map url (pagesData (crawlPage st u).1) ->
        v ∈ visitedUrls (crawlPage st u).1)
  /\ (forall v, v ∈ List.map fst (errors (crawlPage st u).1) ->
        v ∈ visitedUrls (crawlPage st u).1).
Proof.
  intros (H1 & H2 & H3). unfold Sessions.crawlPage.
  destruct (decide (u ∈ visitedUrls st)) as [Hin|Hin]; [done|].
  assert (Hs : setAdd u (visitedUrls st) = visitedUrls st ++ [u]).
  { unfold setAdd. by rewrite decide_False. }
  destruct (session u) as [e0|v close] eqn:Hsess;
    [|destruct v as [e1|x e1|x links e1|x links imgs]];
    simpl; rewrite Hs, ?map_app; simpl;
    repeat split; intros w; rewrite ?elem_of_app, ?list_elem_of_singleton;
    naive_solver.
Qed.

(** An error that leaves [crawlSite] is one of the browser context or of
    the page object of the start URL. *)
Lemma sessions_crawlSite_abort (fuel : nat) (st : Crawler) (e : jsstring) :
  crawlSite fuel = Some (st, Some e) -> e ∈ abortMessages.
Proof.
  unfold Sessions.crawlSite, Sessions.abortMessages, Sessions.crawlPage.
  destruct newContextFails as [e0|].
  { intros [= _ <-]. apply list_elem_of_here. }
  destruct (decide (base ∈ visitedUrls newCrawler)) as [H|_];
    [by apply not_elem_of_nil in H|].
  destruct (session base) as [e1|v [e1|]]; simpl.
  - destruct closeContextFails as [e2|]; intros [= _ <-]; simpl;
      [apply list_elem_of_here | apply list_elem_of_here].
  - destruct closeContextFails as [e2|]; intros [= _ <-]; simpl;
      [apply list_elem_of_here | apply list_elem_of_here].
  - destruct (Sessions.crawlLoop _ _ _ _ _) as [st2|]; [|done].
    intros [= _ ->]. apply list_elem_of_here.
Qed.

(** With a page object and a context that open and close, the crawl is the
    one of [Crawler.crawlSite]. *)
Lemma sessions_crawlPage_opened (browse : jsstring -> Visit) (st : Crawler) (u : jsstring) :
  (forall u, session u = Sessions.Opened (browse u) None) ->
  crawlPage st u = (Crawler.crawlPage base hostname browse st u, None).
Proof.
  intros Hs. unfold Sessions.crawlPage, Crawler.crawlPage.
  destruct (decide (u ∈ visitedUrls st)); [done|].
  rewrite Hs. by destruct (browse u).
Qed.

Lemma sessions_crawlLoop_opened (browse : jsstring -> Visit) (fuel : nat) (st : Crawler) :
  (forall u, session u = Sessions.Opened (browse u) None) ->
  crawlLoop fuel st = Crawler.crawlLoop base hostname browse fuel st.
Proof.
  intros Hs.
  assert (Hfold : forall l st,
            fold_left (fun st u => (crawlPage st u).1) l st
            = fold_left (Crawler.crawlPage base hostname browse) l st).
  { induction l as [|u l IH]; intros st0; simpl; [done|].
    by rewrite (sessions_crawlPage_opened browse), IH. }
  assert (Hbatches : forall bs st,
            fold_left (fun st batch => fold_left (fun st u => (crawlPage st u).1) batch st)
              bs st
            = fold_left (fun st batch =>
                           fold_left (Crawler.crawlPage base hostname browse) batch st)
                bs st).
  { induction bs as [|b bs IH]; intros st0; simpl; [done|]. by rewrite Hfold, IH. }
  revert st. induction fuel as [|fuel IH]; intros st; simpl; [done|].
  destruct (frontier st); [done|].
  unfold Sessions.crawlBatches, Crawler.crawlBatches. by rewrite Hbatches, IH.
Qed.

End SessionFacts.

(** With [newPage], [close] and the context taken to succeed, the crawler
    with sessions is [Crawler.crawlSite]. *)
Lemma sessions_crawlSite_opened
    (base : jsstring) (hostname : jsstring -> option jsstring)
    (browse : jsstring -> Crawler.Visit) (fuel : nat) :
  Sessions.crawlSite base hostname (fun u => Sessions.Opened (browse u) None) None None fuel
  = (fun st => (st, None)) <$> Crawler.crawlSite base hostname browse fuel.
Proof.
  unfold Sessions.crawlSite, Crawler.crawlSite.
  rewrite (sessions_crawlPage_opened base hostname _ browse) by done.
  rewrite (sessions_crawlLoop_opened base hostname _ browse) by done.
  by destruct (Crawler.crawlLoop _ _ _ _ _).
Qed.




(** ** Crawl *)

Section CrawlFacts.

Import Crawler.

Variable base : jsstring.
Variable hostname : jsstring -> option jsstring.
Variable browse : jsstring -> Visit.

Local Abbreviation crawlPage := (Crawler.crawlPage base hostname browse).
Local Abbreviation crawlBatches := (Crawler.crawlBatches base hostname browse).
Local Abbreviation crawlLoop := (Crawler.crawlLoop base hostname browse).
Local Abbreviation crawlSite := (Crawler.crawlSite base hostname browse).
Local Abbreviation linksOf := (Crawler.linksOf base hostname browse).
Local Abbreviation reachable := (Crawler.reachable base hostname browse).
Local Abbreviation invariant := (Crawler.invariant base hostname browse).
Local Abbreviation isInternalLink := (Crawler.isInternalLink base hostname).
Local Abbreviation addLinks := (Crawler.addLinks base hostname).

Lemma setAdd_elem (x y : jsstring) (l : list jsstring) :
  x ∈ setAdd y l <-> x = y \/ x ∈ l.
Proof.
  unfold setAdd. destruct (decide (y ∈ l)) as [Hy|Hy].
  - split; [auto|]. by intros [ -> | ].
  - rewrite elem_of_app, list_elem_of_singleton. tauto.
Qed.

Lemma addLinks_fold_elem (links acc : list jsstring) (v : jsstring) :
  v ∈ fold_left (fun acc link => if isInternalLink link then setAdd link acc else acc)
        links acc
  <-> v ∈ acc \/ (v ∈ links /\ isInternalLink v = true).
Proof.
  revert acc. induction links as [|l links IH]; intros acc; simpl.
  - split; [auto|]. intros [|[H _]]; [done|]. by apply not_elem_of_nil in H.
  - rewrite IH. destruct (isInternalLink l) eqn:El.
    + rewrite setAdd_elem, elem_of_cons. split.
      * intros [[ -> | ]|[? ?]]; auto.
      * intros [|[[ -> | ] ?]]; auto.
    + rewrite elem_of_cons. split.
      * intros [|[? ?]]; auto.
      * intros [|[[ -> | ] ?]]; auto. congruence.
Qed.

Lemma linksOf_elem (u v : jsstring) (links : list jsstring) :
  v ∈ List.filter isInternalLink links <-> v ∈ links /\ isInternalLink v = true.
Proof. by rewrite !list_elem_of_In, filter_In. Qed.

(** What a call of [crawlPage] on an unvisited URL changes. *)
Lemma crawlPage_fresh (st : Crawler) (u : jsstring) :
  u ∉ visitedUrls st ->
  visitedUrls (crawlPage st u) = visitedUrls st ++ [u]
  /\ gotoLog (crawlPage st u) = gotoLog st ++ [u]
  /\ (forall v, v ∈ internalLinks (crawlPage st u)
                <-> v ∈ internalLinks st \/ v ∈ linksOf u)
  /\ (List.map url (pagesData (crawlPage st u)) = List.map url (pagesData st)
      \/ List.map url (pagesData (crawlPage st u)) = List.map url (pagesData st) ++ [u]).
Proof.
  intros Hu. unfold Crawler.crawlPage, Crawler.linksOf.
  rewrite decide_False by done.
  assert (Hs : setAdd u (visitedUrls st) = visitedUrls st ++ [u]).
  { unfold setAdd. by rewrite decide_False. }
  destruct (browse u) as [e|x e|x links e|x links imgs]; simpl; rewrite Hs;
    (split; [done|]); (split; [done|]);
    (split; [intros v | rewrite ?map_app; auto]).
  - split; [auto|]. intros [|H]; [done|]. by apply not_elem_of_nil in H.
  - split; [auto|]. intros [|H]; [done|]. by apply not_elem_of_nil in H.
  - by rewrite addLinks_fold_elem, linksOf_elem.
  - by rewrite addLinks_fold_elem, linksOf_elem.
Qed.

Lemma crawlPage_visited (st : Crawler) (u : jsstring) :
  u ∈ visitedUrls st -> crawlPage st u = st.
Proof. intros Hu. unfold Crawler.crawlPage. by rewrite decide_True. Qed.

Lemma crawlPage_invariant (st : Crawler) (u : jsstring) :
  invariant st -> reachable u -> invariant (crawlPage st u).
Proof.
  intros [Hlog Hnd Hvis Hlinks Hclosed Hpages] Hu.
  destruct (decide (u ∈ visitedUrls st)) as [Hin|Hin].
  { by rewrite crawlPage_visited. }
  destruct (crawlPage_fresh st u Hin) as (Hv & Hg & Hl & Hp).
  constructor.
  - by rewrite Hv, Hg, Hlog.
  - rewrite Hv. apply NoDup_app. split; [done|]. split; [|apply NoDup_singleton].
    intros x Hx ->%list_elem_of_singleton. done.
  - intros v. rewrite Hv, elem_of_app, list_elem_of_singleton. intros [ | -> ]; auto.
  - intros v. rewrite Hl. intros [|Hlv]; [auto|]. by apply (reach_link _ _ _ u).
  - intros w v. rewrite Hv, elem_of_app, list_elem_of_singleton, Hl.
    intros [Hw | -> ] Hwv; [left; eauto | by right].
  - rewrite Hv. destruct Hp as [-> | ->].
    + by apply sublist_inserts_r.
    + by apply sublist_app.
Qed.

Lemma crawlPage_grows (st : Crawler) (u : jsstring) :
  u ∈ visitedUrls (crawlPage st u)
  /\ forall v, v ∈ visitedUrls st -> v ∈ visitedUrls (crawlPage st u).
Proof.
  destruct (decide (u ∈ visitedUrls st)) as [Hin|Hin].
  - by rewrite crawlPage_visited.
  - destruct (crawlPage_fresh st u Hin) as (-> & _).
    split; [|intros v Hv]; apply elem_of_app; [right; apply list_elem_of_here | by left].
Qed.

Lemma crawlPages_invariant (l : list jsstring) (st : Crawler) :
  invariant st -> (forall u, u ∈ l -> reachable u) ->
  invariant (fold_left crawlPage l st)
  /\ (forall v, v ∈ visitedUrls st \/ v ∈ l -> v ∈ visitedUrls (fold_left crawlPage l st)).
Proof.
  revert st. induction l as [|u l IH]; intros st Hinv Hl; simpl.
  - split; [done|]. intros v [|H]; [done|]. by apply not_elem_of_nil in H.
  - destruct (IH (crawlPage st u)) as [Hinv' Hvis'].
    + apply crawlPage_invariant; [done|]. apply Hl, list_elem_of_here.
    + intros v Hv. apply Hl. by apply list_elem_of_further.
    + split; [done|]. intros v Hv. apply Hvis'.
      destruct (crawlPage_grows st u) as [Hu Hmono].
      destruct Hv as [Hv|[->|Hv]%elem_of_cons]; auto.
Qed.

Lemma slices_concat {A : Type} (fuel n : nat) (l : list A) :
  (length l <= fuel)%nat -> concat (slices fuel (S n) l) = l.
Proof.
  revert l. induction fuel as [|fuel IH]; intros l Hlen.
  - destruct l; [done | simpl in Hlen; lia].
  - destruct l as [|x l]; [done|].
    change (concat (slices (S fuel) (S n) (x :: l)))
      with (take (S n) (x :: l) ++ concat (slices fuel (S n) (drop (S n) (x :: l)))).
    rewrite IH; [apply take_drop|].
    rewrite length_drop. simpl in *. lia.
Qed.

Lemma fold_left_concat {A B : Type} (f : A -> B -> A) (ls : list (list B)) (a : A) :
  fold_left (fun a l => fold_left f l a) ls a = fold_left f (concat ls) a.
Proof.
  revert a. induction ls as [|l ls IH]; intros a; simpl; [done|].
  by rewrite fold_left_app, IH.
Qed.

(** Taking the frontier five at a time is taking it one by one. *)
Lemma crawlBatches_flat (st : Crawler) (l : list jsstring) :
  crawlBatches st l = fold_left crawlPage l st.
Proof.
  unfold Crawler.crawlBatches, batchesOf.
  by rewrite fold_left_concat, slices_concat.
Qed.

Lemma frontier_elem (st : Crawler) (u : jsstring) :
  u ∈ frontier st <-> u ∈ internalLinks st /\ u ∉ visitedUrls st.
Proof.
  unfold frontier. rewrite !list_elem_of_In, filter_In, negb_true_iff,
    bool_decide_eq_false, <- !list_elem_of_In. done.
Qed.

Lemma closedUniverse_reachable (U : list jsstring) (u : jsstring) :
  closedUniverse base hostname browse U = true -> reachable u -> u ∈ U.
Proof.
  unfold closedUniverse. intros [Hb Hc]%andb_true_iff. induction 1 as [|u v _ IH Hv].
  - by apply bool_decide_eq_true in Hb.
  - rewrite forallb_forall in Hc. apply list_elem_of_In in IH.
    specialize (Hc u IH). rewrite forallb_forall in Hc.
    apply list_elem_of_In in Hv. specialize (Hc v Hv).
    by apply bool_decide_eq_true in Hc.
Qed.

Lemma visited_bound (U : list jsstring) (st : Crawler) :
  closedUniverse base hostname browse U = true -> invariant st ->
  (length (visitedUrls st) <= length U)%nat.
Proof.
  intros HU Hinv. apply submseteq_length, NoDup_submseteq; [apply Hinv|].
  intros u Hu. eapply closedUniverse_reachable; [done|]. by apply Hinv.
Qed.

Lemma crawlLoop_terminates (U : list jsstring) (fuel : nat) (st : Crawler) :
  closedUniverse base hostname browse U = true ->
  invariant st ->
  (length U <= fuel + length (visitedUrls st))%nat ->
  exists st', crawlLoop fuel st = Some st' /\ invariant st' /\ frontier st' = []
              /\ forall v, v ∈ visitedUrls st -> v ∈ visitedUrls st'.
Proof.
  intros HU. revert st. induction fuel as [|fuel IH]; intros st Hinv Hfuel.
  - exists st. cut (frontier st = []).
    { intros Hf. simpl. by rewrite Hf. }
    destruct (frontier st) as [|u0 rest] eqn:Hf; [done|]. exfalso.
    assert (Hu0 : u0 ∈ frontier st) by (rewrite Hf; apply list_elem_of_here).
    apply frontier_elem in Hu0 as [Hl Hnv].
    pose proof (crawlPage_invariant st u0 Hinv (inv_links _ _ _ _ Hinv u0 Hl)) as Hinv1.
    pose proof (visited_bound U _ HU Hinv1) as Hb.
    destruct (crawlPage_fresh st u0 Hnv) as (Hv & _).
    rewrite Hv, length_app in Hb. simpl in *. lia.
  - destruct (frontier st) as [|u0 rest] eqn:Hf.
    { exists st. simpl. by rewrite Hf. }
    assert (Hreach : forall u, u ∈ u0 :: rest -> reachable u).
    { intros u Hu. rewrite <- Hf in Hu. apply frontier_elem in Hu as [Hl _].
      by apply (inv_links _ _ _ _ Hinv). }
    destruct (crawlPages_invariant (u0 :: rest) st Hinv Hreach) as [Hinv2 Hvis2].
    assert (Hu0 : u0 ∉ visitedUrls st).
    { assert (H : u0 ∈ frontier st) by (rewrite Hf; apply list_elem_of_here).
      by apply frontier_elem in H as [_ ?]. }
    assert (Hlen : (S (length (visitedUrls st))
                    <= length (visitedUrls (fold_left crawlPage (u0 :: rest) st)))%nat).
    { change (S (length (visitedUrls st))) with (length (u0 :: visitedUrls st)).
      apply submseteq_length, NoDup_submseteq.
      - apply NoDup_cons. split; [done | apply Hinv].
      - intros v [->|Hv]%elem_of_cons; apply Hvis2; [right; apply list_elem_of_here | by left]. }
    destruct (IH (fold_left crawlPage (u0 :: rest) st) Hinv2) as (st' & Hrun & Hinv' & Hf' & Hmono).
    { lia. }
    exists st'. split.
    { simpl Crawler.crawlLoop. rewrite Hf. rewrite crawlBatches_flat. exact Hrun. }
    split; [done|]. split; [done|].
    intros v Hv. apply Hmono, Hvis2. by left.
Qed.

Lemma newCrawler_invariant : invariant newCrawler.
Proof.
  constructor; simpl; try done.
  - apply NoDup_nil_2.
  - intros u H. by apply not_elem_of_nil in H.
  - intros u H. by apply not_elem_of_nil in H.
  - intros u v H. by apply not_elem_of_nil in H.
Qed.

Lemma empty_frontier_complete (st : Crawler) (u : jsstring) :
  invariant st -> frontier st = [] -> base ∈ visitedUrls st ->
  reachable u -> u ∈ visitedUrls st.
Proof.
  intros Hinv Hf Hbase. induction 1 as [|u v _ IH Hv]; [done|].
  pose proof (inv_closed _ _ _ _ Hinv u v IH Hv) as Hl.
  destruct (decide (v ∈ visitedUrls st)) as [|Hn]; [done|].
  assert (H : v ∈ frontier st) by by apply frontier_elem.
  rewrite Hf in H. by apply not_elem_of_nil in H.
Qed.

End CrawlFacts.



Example crawl_site_log :
  Crawler.gotoLog <$> Crawler.crawlSite Site.start Site.hostname Site.browse 4
  = Some [Site.start; Site.home; Site.sobre; Site.post].
Proof. by vm_compute. Qed.

(** ** Image fetcher *)

(** C2.  The logo, listed twice, is downloaded twice.  When its two entries
    fall into different batches the file names differ by their time stamps,
    so that the existence check finds nothing and two files and two
    manifest entries result; when they fall into one batch and read the same
    time, both pass the existence check before either download has written
    the file, and one file has two manifest entries. *)
Theorem same_image_fetched_twice :
  Fetcher.createSafeFilename 1700000000000 (lit "/wp-content/uploads/logo.png")
  ≠ Fetcher.createSafeFilename 1700000001000 (lit "/wp-content/uploads/logo.png")
  /\ List.map Fetcher.filename
       (List.filter Gallery.ofLogo (Fetcher.downloadedImages Gallery.twoBatches))
     = [lit "logo-1700000000000.png"; lit "logo-1700000001000.png"]
  /\ lit "dist/assets/images/logo-1700000000000.png" ∈ Fetcher.files Gallery.twoBatches
  /\ lit "dist/assets/images/logo-1700000001000.png" ∈ Fetcher.files Gallery.twoBatches
  /\ List.map Fetcher.m_filename
       (Fetcher.m_images (Fetcher.generateImageManifest Gallery.oneBatch))
     = [lit "logo-1700000000000.png"; lit "logo-1700000000000.png"]
  /\ Fetcher.files Gallery.oneBatch = [lit "dist/assets/images/logo-1700000000000.png"].
Proof.
  split; [by vm_compute|]. split; [by vm_compute|].
  split; [vm_compute; apply list_elem_of_In; simpl; tauto|].
  split; [vm_compute; apply list_elem_of_In; simpl; tauto|].
  split; by vm_compute.
Qed.

(** What the existence check does achieve: a call of [processImage] whose
    destination is already there changes nothing. *)
Lemma processImage_existing
    (pathnameOf : jsstring -> option jsstring) (download : jsstring -> Fetcher.Download)
    (now : N) (st : Fetcher.Optimizer) (u pathname : jsstring) :
  pathnameOf u = Some pathname ->
  join Fetcher.outputDir (Fetcher.createSafeFilename now pathname) ∈ Fetcher.files st ->
  Fetcher.processImage pathnameOf download now st (Fetcher.ImageUrl u) = st.
Proof.
  intros Hp Hin. unfold Fetcher.processImage, Fetcher.startImage.
  cbn [Fetcher.imageUrlOf].
  destruct u as [|c u']; [done|].
  destruct (startsWith _ _); [done|].
  rewrite Hp. by rewrite bool_decide_eq_true_2.
Qed.

(** ** Transcoder *)

Section TranscodeFacts.

Import Transcoder.

Variable codec : jsstring -> WriteOutcome.
Variable scaledHeight : N -> Image -> N.
Variable now : N.
Variables inputPath outputDir name : jsstring.

Local Abbreviation generate :=
  (Transcoder.generate codec scaledHeight now inputPath outputDir name).
Local Abbreviation alone :=
  (Transcoder.alone codec scaledHeight now inputPath outputDir name).
Local Abbreviation target := (Transcoder.targetOf outputDir name).

Lemma toFile_other (m : gmap jsstring File) (t : jsstring) (size : SizeClass)
    (fmt : Format) (p : jsstring) :
  p ≠ t -> (toFile codec scaledHeight now m inputPath t size fmt).1 !! p = m !! p.
Proof.
  intros Hp. unfold toFile.
  destruct (codec t) as [|e [|]]; simpl; [|by rewrite lookup_insert_ne|done].
  destruct (m !! inputPath ≫= _); simpl; [by rewrite lookup_insert_ne | done].
Qed.

Lemma generate_other (st : Run) (job : SizeClass * Format) (p : jsstring) :
  p ≠ target job -> fs (generate st job) !! p = fs st !! p.
Proof.
  intros Hp. unfold Transcoder.generate.
  destruct (shouldSkipOptimization _ _ _); [done|].
  pose proof (toFile_other (fs st) (target job) job.1 job.2 p Hp) as H.
  unfold targetOf in H.
  by destruct (toFile _ _ _ _ _ _ _ _) as [m [e|]].
Qed.

(** A write reads the file system at the source and at its own target only. *)
Lemma generate_local (st : Run) (m : gmap jsstring File) (job : SizeClass * Format) :
  fs st !! inputPath = m !! inputPath ->
  fs st !! target job = m !! target job ->
  fs (generate st job) !! target job = fs (alone m job) !! target job
  /\ log (generate st job) = log st ++ log (alone m job).
Proof.
  intros Hin Ht. unfold Transcoder.alone, Transcoder.generate, shouldSkipOptimization,
    getFileModTime, toFile. fold (target job). simpl fs. simpl log.
  rewrite Hin, Ht.
  destruct (mtime <$> m !! inputPath) as [sourceTime|];
    [destruct (mtime <$> m !! target job) as [targetTime|];
       [destruct (sourceTime <? targetTime)|]|];
    simpl; try done;
    (destruct (codec (target job)) as [|e [|]];
       [destruct (m !! inputPath ≫= _)| |]);
    simpl; by rewrite ?lookup_insert_eq, ?Ht.
Qed.

Lemma alone_local (m1 m2 : gmap jsstring File) (job : SizeClass * Format) :
  m1 !! inputPath = m2 !! inputPath ->
  m1 !! target job = m2 !! target job ->
  fs (alone m1 job) !! target job = fs (alone m2 job) !! target job
  /\ log (alone m1 job) = log (alone m2 job).
Proof.
  intros Hin Ht.
  apply (generate_local {| fs := m1; log := [] |} m2 job Hin Ht).
Qed.

Lemma flat_map_ext_elem {A B : Type} (f g : A -> list B) (l : list A) :
  (forall x, x ∈ l -> f x = g x) -> flat_map f l = flat_map g l.
Proof.
  induction l as [|a l IH]; intros H; simpl; [done|].
  rewrite (H a) by apply list_elem_of_here. f_equal.
  apply IH. intros x Hx. apply H. by apply list_elem_of_further.
Qed.

Lemma generates_independent (js : list (SizeClass * Format)) (st : Run) :
  NoDup (List.map target js) -> inputPath ∉ List.map target js ->
  let st' := fold_left generate js st in
  log st' = log st ++ flat_map (fun job => log (alone (fs st) job)) js
  /\ (forall job, job ∈ js -> fs st' !! target job = fs (alone (fs st) job) !! target job)
  /\ (forall p, p ∉ List.map target js -> fs st' !! p = fs st !! p).
Proof.
  revert st. induction js as [|j js IH]; intros st Hnd Hin; simpl.
  { split; [by rewrite app_nil_r|]. split; [|done].
    intros job H. by apply not_elem_of_nil in H. }
  simpl in Hnd, Hin. apply NoDup_cons in Hnd as [Hj Hnd].
  apply not_elem_of_cons in Hin as [Hinj Hin].
  destruct (IH (generate st j) Hnd Hin) as (Hlog & Htargets & Hothers).
  destruct (generate_local st (fs st) j eq_refl eq_refl) as [Hjt Hjl].
  assert (Hne : forall job, job ∈ js -> target job ≠ target j).
  { intros job Hjob Heq. apply Hj. rewrite <- Heq. apply list_elem_of_fmap. eauto. }
  assert (Hsame : forall job, job ∈ js ->
            fs (alone (fs (generate st j)) job) !! target job
            = fs (alone (fs st) job) !! target job
            /\ log (alone (fs (generate st j)) job) = log (alone (fs st) job)).
  { intros job Hjob. apply alone_local; apply generate_other; [done | by apply Hne]. }
  split.
  { rewrite Hlog, Hjl, <- app_assoc. simpl. do 2 f_equal.
    apply flat_map_ext_elem. intros job Hjob. by apply Hsame. }
  split.
  - intros job [-> | Hjob]%elem_of_cons.
    + by rewrite Hothers.
    + rewrite (Htargets job Hjob). by apply Hsame.
  - intros p [Hp1 Hp2]%not_elem_of_cons. rewrite (Hothers p Hp2).
    by apply generate_other.
Qed.

Lemma targets_distinct : NoDup (List.map target jobs).
Proof.
  assert (H : List.map target jobs
              = List.map (fun x => outputDir ++ [slash] ++ name ++ x)
                  (List.map (fun job : SizeClass * Format => suffix job.1 ++ extensionOf job.2) jobs)).
  { rewrite map_map. apply map_ext. intros [size fmt].
    unfold targetOf, join, variantName. simpl. by rewrite <- ?app_assoc. }
  rewrite H. apply (NoDup_fmap_2 _).
  apply (bool_decide_unpack _). by vm_compute.
Qed.

Lemma optimizeWithSharp_jobs (filename : jsstring) (st : Run) :
  name = nameWithoutExt filename ->
  optimizeWithSharp true codec scaledHeight now inputPath outputDir filename st
  = Ok (fold_left generate jobs st).
Proof.
  intros Hname. unfold optimizeWithSharp. rewrite <- Hname.
  unfold jobs, CONFIG_sizes. cbn [fold_left flat_map app]. reflexivity.
Qed.

Lemma alone_skipped (m : gmap jsstring File) (job : SizeClass * Format) :
  shouldSkipOptimization m inputPath (target job) = true ->
  alone m job = {| fs := m; log := [Skipped (variantName name job.1 job.2)] |}.
Proof.
  intros H. unfold Transcoder.alone, Transcoder.generate. simpl fs.
  fold (target job). by rewrite H.
Qed.

Lemma alone_written (m : gmap jsstring File) (job : SizeClass * Format)
    (src : File) (img : Image) :
  shouldSkipOptimization m inputPath (target job) = false ->
  codec (target job) = WriteOk ->
  m !! inputPath = Some src -> pictureOf (data src) = Some img ->
  fs (alone m job) !! target job
  = Some {| mtime := now;
            data := Encoded job.2 (qualityOf job.2) (pipelineOf scaledHeight job.1 img) |}
  /\ log (alone m job) = [Generated (variantName name job.1 job.2)].
Proof.
  intros Hskip Hc Hsrc Himg. unfold Transcoder.alone, Transcoder.generate, toFile.
  simpl fs. fold (target job). rewrite Hskip, Hc, Hsrc. simpl. rewrite Himg. simpl.
  by rewrite lookup_insert_eq.
Qed.

Lemma alone_failed (m : gmap jsstring File) (job : SizeClass * Format)
    (e : jsstring) (truncates : bool) :
  shouldSkipOptimization m inputPath (target job) = false ->
  codec (target job) = WriteFails e truncates ->
  fs (alone m job) !! target job
  = (if truncates then Some {| mtime := now; data := Truncated |} else m !! target job)
  /\ log (alone m job) = [ErrorGenerating (variantName name job.1 job.2) e].
Proof.
  intros Hskip Hc. unfold Transcoder.alone, Transcoder.generate, toFile.
  simpl fs. fold (target job). rewrite Hskip, Hc. simpl.
  destruct truncates; by rewrite ?lookup_insert_eq.
Qed.

Lemma alone_one_event (m : gmap jsstring File) (job : SizeClass * Format) :
  length (log (alone m job)) = 1%nat.
Proof.
  unfold Transcoder.alone, Transcoder.generate. simpl fs.
  destruct (shouldSkipOptimization _ _ _); [done|].
  by destruct (toFile _ _ _ _ _ _ _ _) as [m' [e|]].
Qed.

Lemma resize_width (w : N) (img : Image) :
  img_width (resize scaledHeight w img) = N.min w (img_width img).
Proof.
  unfold resize. destruct (N.leb_spec (img_width img) w); simpl; lia.
Qed.

Lemma pipelineOf_width (size : SizeClass) (img : Image) :
  img_width (pipelineOf scaledHeight size img) <= img_width img.
Proof.
  unfold pipelineOf. destruct (sz_width size) as [w|]; [|lia].
  destruct (w =? 0); [lia|]. rewrite resize_width. lia.
Qed.

Lemma pipelineOf_class (size : SizeClass) (fmt : Format) (img : Image) :
  (size, fmt) ∈ jobs ->
  match sz_width size with
  | Some w => img_width (pipelineOf scaledHeight size img) = N.min w (img_width img)
  | None => pipelineOf scaledHeight size img = img
  end.
Proof.
  intros Hjob. unfold jobs, CONFIG_sizes in Hjob. simpl in Hjob.
  repeat (apply elem_of_cons in Hjob as [[= -> ->] | Hjob];
          [unfold pipelineOf; simpl; try apply resize_width; reflexivity|]).
  by apply not_elem_of_nil in Hjob.
Qed.

End TranscodeFacts.

Section TranscodeRun.

Import Transcoder.

Variable codec : jsstring -> WriteOutcome.
Variable scaledHeight : N -> Image -> N.
Variable now : N.
Variables inputPath outputDir filename : jsstring.

Local Abbreviation name := (Transcoder.nameWithoutExt filename).
Local Abbreviation target := (Transcoder.targetOf outputDir name).
Local Abbreviation alone :=
  (Transcoder.alone codec scaledHeight now inputPath outputDir name).
Local Abbreviation run :=
  (optimizeWithSharp true codec scaledHeight now inputPath outputDir filename).

Lemma flat_map_length_one {A B : Type} (f : A -> list B) (l : list A) :
  (forall x, length (f x) = 1%nat) -> length (flat_map f l) = length l.
Proof.
  intros H. induction l as [|a l IH]; simpl; [done|].
  rewrite length_app, H, IH. done.
Qed.

Lemma flat_map_singleton {A B : Type} (f : A -> B) (l : list A) :
  flat_map (fun x => [f x]) l = List.map f l.
Proof. induction l as [|a l IH]; simpl; [done | by rewrite IH]. Qed.

(** The eight writes of a call do not interfere: the log gets the one line
    of each, the target of each ends as that write alone leaves it, and no
    other path changes. *)
Lemma optimizeWithSharp_independent (st : Run) :
  inputPath ∉ List.map target jobs ->
  exists st',
    run st = Ok st'
    /\ log st' = log st ++ flat_map (fun job => log (alone (fs st) job)) jobs
    /\ (forall job, job ∈ jobs -> fs st' !! target job = fs (alone (fs st) job) !! target job)
    /\ (forall p, p ∉ List.map target jobs -> fs st' !! p = fs st !! p).
Proof.
  intros Hin. eexists. split; [by apply optimizeWithSharp_jobs|].
  apply generates_independent; [apply targets_distinct | done].
Qed.

End TranscodeRun.

(** C9, as stated, fails: the 300 pixel wide photograph is narrower than
    every size class and still gets all eight variants, each 300 pixels
    wide, not fewer. *)
Lemma small_source_gets_eight_variants :
  (Transcoder.img_width Studio.small < 400)
  /\ Studio.generatedCount Studio.smallRun = 8%nat
  /\ ~ (Studio.generatedCount Studio.smallRun < 8)%nat
  /\ List.map (fun job => Studio.widthAt Studio.smallRun
                            (Transcoder.targetOf Studio.outDir (lit "foto") job))
       Transcoder.jobs
     = repeat (Some 300) 8.
Proof.
  split; [done|]. split; [by vm_compute|]. split; [vm_compute; lia|]. by vm_compute.
Qed.

(** C9, amended.  A call of [optimizeWithSharp] tries the eight writes and
    logs one line for each, so it yields at most eight variants.  A variant
    that is not up to date and that the codec writes holds the source
    picture through the pipeline of its size class: its width is the smaller
    of the class width and the source width, so never more than the source
    width, and the variant is written also when the source is narrower than
    the class.  When no variant is up to date and the codec writes them all,
    the call yields exactly the eight variants, whatever the width of the
    source. *)
Theorem variants_never_wider_than_source
    (codec : jsstring -> Transcoder.WriteOutcome)
    (scaledHeight : N -> Transcoder.Image -> N) (now : N)
    (inputPath outputDir filename : jsstring)
    (st : Transcoder.Run) (src : Transcoder.File) (img : Transcoder.Image)
    (name : jsstring) (target : Transcoder.SizeClass * Transcoder.Format -> jsstring) :
  name = Transcoder.nameWithoutExt filename ->
  target = Transcoder.targetOf outputDir name ->
  Transcoder.fs st !! inputPath = Some src ->
  Transcoder.pictureOf (Transcoder.data src) = Some img ->
  inputPath ∉ List.map target Transcoder.jobs ->
  exists st' events,
    Transcoder.optimizeWithSharp true codec scaledHeight now inputPath outputDir filename st
    = Ok st'
    /\ Transcoder.log st' = Transcoder.log st ++ events
    /\ length events = 8%nat
    /\ (length (List.filter Transcoder.isGenerated events) <= 8)%nat
    /\ (forall size fmt,
          (size, fmt) ∈ Transcoder.jobs ->
          Transcoder.shouldSkipOptimization (Transcoder.fs st) inputPath (target (size, fmt)) = false ->
          codec (target (size, fmt)) = Transcoder.WriteOk ->
          Transcoder.fs st' !! target (size, fmt)
          = Some {| Transcoder.mtime := now;
                    Transcoder.data :=
                      Transcoder.Encoded fmt (Transcoder.qualityOf fmt)
                        (Transcoder.pipelineOf scaledHeight size img) |}
          /\ Transcoder.Generated (Transcoder.variantName name size fmt) ∈ events
          /\ Transcoder.img_width (Transcoder.pipelineOf scaledHeight size img)
             <= Transcoder.img_width img
          /\ match Transcoder.sz_width size with
             | Some w =>
                 Transcoder.img_width (Transcoder.pipelineOf scaledHeight size img)
                 = N.min w (Transcoder.img_width img)
             | None => Transcoder.pipelineOf scaledHeight size img = img
             end)
    /\ ((forall job, job ∈ Transcoder.jobs ->
           Transcoder.shouldSkipOptimization (Transcoder.fs st) inputPath (target job) = false
           /\ codec (target job) = Transcoder.WriteOk) ->
        events
        = List.map (fun job => Transcoder.Generated (Transcoder.variantName name job.1 job.2))
            Transcoder.jobs).
Proof.
  intros -> -> Hsrc Himg Hin.
  destruct (optimizeWithSharp_independent codec scaledHeight now inputPath outputDir
              filename st Hin) as (st' & Hrun & Hlog & Htargets & _).
  eexists st', _.
  split; [done|]. split; [exact Hlog|].
  match goal with |- length ?ev = _ /\ _ => assert (Hlen : length ev = 8%nat) end.
  { rewrite flat_map_length_one; [done|]. intros job. apply alone_one_event. }
  split; [done|]. split.
  { rewrite <- Hlen. apply List.filter_length_le. }
  split.
  - intros size fmt Hjob Hskip Hcodec.
    destruct (alone_written codec scaledHeight now inputPath outputDir _
                (Transcoder.fs st) (size, fmt) src img Hskip Hcodec Hsrc Himg) as [Hfile Hev].
    split; [by rewrite (Htargets _ Hjob)|]. split.
    { apply list_elem_of_In, in_flat_map. exists (size, fmt).
      split; [by apply list_elem_of_In|]. rewrite Hev. by left. }
    split; [apply pipelineOf_width | by apply (pipelineOf_class _ _ fmt)].
  - intros Hall. rewrite <- flat_map_singleton. apply flat_map_ext_elem.
    intros job Hjob. destruct (Hall job Hjob) as [Hskip Hcodec].
    by destruct (alone_written codec scaledHeight now inputPath outputDir _
                   (Transcoder.fs st) job src img Hskip Hcodec Hsrc Himg) as [_ ->].
Qed.

Lemma variants_never_wider_than_source_witness :
  exists st' events,
    Transcoder.optimizeWithSharp true Studio.allOk Studio.scaledHeight 30
      Studio.input Studio.outDir (lit "foto.jpg") Studio.fresh = Ok st'
    /\ Transcoder.log st' = events
    /\ length events = 8%nat
    /\ Transcoder.fs st' !! lit "public/assets/articles/festa/foto-lg.jpg"
       = Some {| Transcoder.mtime := 30;
                 Transcoder.data := Transcoder.Encoded Transcoder.jpeg 90 Studio.small |}.
Proof.
  destruct (variants_never_wider_than_source Studio.allOk Studio.scaledHeight 30
              Studio.input Studio.outDir (lit "foto.jpg") Studio.fresh
              Studio.source Studio.small (lit "foto")
              (Transcoder.targetOf Studio.outDir (lit "foto")))
    as (st' & events & Hrun & Hlog & Hlen & _ & Hjobs & _).
  - by vm_compute.
  - reflexivity.
  - by vm_compute.
  - reflexivity.
  - apply (bool_decide_unpack _). by vm_compute.
  - exists st', events. split; [done|]. split; [done|]. split; [done|].
    destruct (Hjobs {| Transcoder.sz_width := Some 1200; Transcoder.suffix := lit "-lg" |}
                Transcoder.jpeg) as (Hfile & _).
    + job_in.
    + by vm_compute.
    + reflexivity.
    + exact Hfile.
Defined.

(** C4, as stated, fails: [foto-sm.webp] held a good variant, older than the
    photograph; the codec fails partway through rewriting it; the file is
    then the truncated one.  The other seven variants are written: each
    holds the photograph, 300 pixels wide. *)
Lemma truncated_file_replaces_good_output :
  Transcoder.fs Studio.withOld !! Studio.smWebp = Some Studio.old
  /\ Transcoder.isValidOutput Studio.old = true
  /\ Studio.fileAt Studio.failedRun Studio.smWebp
     = Some {| Transcoder.mtime := 30; Transcoder.data := Transcoder.Truncated |}
  /\ Studio.fileAt Studio.failedRun Studio.smWebp ≠ Some Studio.old
  /\ Studio.generatedCount Studio.failedRun = 7%nat
  /\ Studio.fileAt Studio.failedRun (lit "public/assets/articles/festa/foto-sm.jpg")
     = Some {| Transcoder.mtime := 30;
               Transcoder.data := Transcoder.Encoded Transcoder.jpeg 90 Studio.small |}
  /\ List.map (fun job => Studio.widthAt Studio.failedRun
                            (Transcoder.targetOf Studio.outDir (lit "foto") job))
       Transcoder.jobs
     = None :: repeat (Some 300) 7.
Proof.
  split; [by vm_compute|]. split; [done|].
  split; [by vm_compute|]. split; [by vm_compute|].
  split; [by vm_compute|]. split; by vm_compute.
Qed.

(** C4, amended.  [optimizeWithSharp] hands the final path of a variant to
    the codec and does nothing else to it: there is no temporary file and no
    rename.  Each of the eight writes is tried and leaves one line in the
    log.  After a write that fails the target holds what the codec left
    there: the truncated file when the codec fails partway, the previous
    file when the codec rejects without touching the target; the failure is
    logged.  A write that the codec carries out, of a variant that is not up
    to date, leaves the encoded picture at the target, whatever the other
    writes did.  A variant that is up to date is not touched, and no path
    other than the eight targets changes. *)
Theorem failed_write_leaves_what_codec_left
    (codec : jsstring -> Transcoder.WriteOutcome)
    (scaledHeight : N -> Transcoder.Image -> N) (now : N)
    (inputPath outputDir filename : jsstring) (st : Transcoder.Run)
    (name : jsstring) (target : Transcoder.SizeClass * Transcoder.Format -> jsstring) :
  name = Transcoder.nameWithoutExt filename ->
  target = Transcoder.targetOf outputDir name ->
  inputPath ∉ List.map target Transcoder.jobs ->
  exists st' events,
    Transcoder.optimizeWithSharp true codec scaledHeight now inputPath outputDir filename st
    = Ok st'
    /\ Transcoder.log st' = Transcoder.log st ++ events
    /\ length events = 8%nat
    /\ (forall job e truncates,
          job ∈ Transcoder.jobs ->
          Transcoder.shouldSkipOptimization (Transcoder.fs st) inputPath (target job) = false ->
          codec (target job) = Transcoder.WriteFails e truncates ->
          Transcoder.fs st' !! target job
          = (if truncates
             then Some {| Transcoder.mtime := now; Transcoder.data := Transcoder.Truncated |}
             else Transcoder.fs st !! target job)
          /\ Transcoder.ErrorGenerating (Transcoder.variantName name job.1 job.2) e
             ∈ events)
    /\ (forall job src img,
          job ∈ Transcoder.jobs ->
          Transcoder.fs st !! inputPath = Some src ->
          Transcoder.pictureOf (Transcoder.data src) = Some img ->
          Transcoder.shouldSkipOptimization (Transcoder.fs st) inputPath (target job) = false ->
          codec (target job) = Transcoder.WriteOk ->
          Transcoder.fs st' !! target job
          = Some {| Transcoder.mtime := now;
                    Transcoder.data :=
                      Transcoder.Encoded job.2 (Transcoder.qualityOf job.2)
                        (Transcoder.pipelineOf scaledHeight job.1 img) |}
          /\ Transcoder.Generated (Transcoder.variantName name job.1 job.2) ∈ events)
    /\ (forall job,
          job ∈ Transcoder.jobs ->
          Transcoder.shouldSkipOptimization (Transcoder.fs st) inputPath (target job) = true ->
          Transcoder.fs st' !! target job = Transcoder.fs st !! target job
          /\ Transcoder.Skipped (Transcoder.variantName name job.1 job.2) ∈ events)
    /\ (forall p, p ∉ List.map target Transcoder.jobs ->
          Transcoder.fs st' !! p = Transcoder.fs st !! p).
Proof.
  intros -> -> Hin.
  destruct (optimizeWithSharp_independent codec scaledHeight now inputPath outputDir
              filename st Hin) as (st' & Hrun & Hlog & Htargets & Hothers).
  eexists st', _. split; [done|]. split; [exact Hlog|].
  assert (Hev : forall job ev,
            job ∈ Transcoder.jobs ->
            Transcoder.log (Transcoder.alone codec scaledHeight now inputPath outputDir
                              (Transcoder.nameWithoutExt filename) (Transcoder.fs st) job)
            = [ev] ->
            ev ∈ flat_map (fun job =>
                             Transcoder.log
                               (Transcoder.alone codec scaledHeight now inputPath outputDir
                                  (Transcoder.nameWithoutExt filename) (Transcoder.fs st) job))
                   Transcoder.jobs).
  { intros job ev Hjob Hl. apply list_elem_of_In, in_flat_map. exists job.
    split; [by apply list_elem_of_In|]. rewrite Hl. by left. }
  split.
  { rewrite flat_map_length_one; [done|]. intros job. apply alone_one_event. }
  split; [|split; [|split; [|done]]].
  - intros job e truncates Hjob Hskip Hcodec.
    destruct (alone_failed codec scaledHeight now inputPath outputDir _
                (Transcoder.fs st) job e truncates Hskip Hcodec) as [Hfile Hl].
    split; [by rewrite (Htargets _ Hjob) | by apply (Hev job)].
  - intros job src img Hjob Hsrc Himg Hskip Hcodec.
    destruct (alone_written codec scaledHeight now inputPath outputDir _
                (Transcoder.fs st) job src img Hskip Hcodec Hsrc Himg) as [Hfile Hl].
    split; [by rewrite (Htargets _ Hjob) | by apply (Hev job)].
  - intros job Hjob Hskip. rewrite (Htargets _ Hjob).
    rewrite (alone_skipped codec scaledHeight now inputPath outputDir _ _ _ Hskip).
    split; [done|]. apply (Hev job); [done|].
    by rewrite (alone_skipped codec scaledHeight now inputPath outputDir _ _ _ Hskip).
Qed.

Lemma failed_write_leaves_what_codec_left_witness :
  exists st',
    Transcoder.optimizeWithSharp true Studio.failsOnce Studio.scaledHeight 30
      Studio.input Studio.outDir (lit "foto.jpg") Studio.withOld = Ok st'
    /\ Transcoder.fs st' !! Studio.smWebp
       = Some {| Transcoder.mtime := 30; Transcoder.data := Transcoder.Truncated |}
    /\ Transcoder.fs st' !! lit "public/assets/articles/festa/foto-md.jpg"
       = Some {| Transcoder.mtime := 30;
                 Transcoder.data := Transcoder.Encoded Transcoder.jpeg 90 Studio.small |}
    /\ Transcoder.fs st' !! Studio.input = Some Studio.source.
Proof.
  destruct (failed_write_leaves_what_codec_left Studio.failsOnce Studio.scaledHeight 30
              Studio.input Studio.outDir (lit "foto.jpg") Studio.withOld (lit "foto")
              (Transcoder.targetOf Studio.outDir (lit "foto")))
    as (st' & events & Hrun & _ & _ & Hfail & Hok & _ & Hother).
  - by vm_compute.
  - reflexivity.
  - apply (bool_decide_unpack _). by vm_compute.
  - exists st'. split; [done|]. split; [|split].
    + destruct (Hfail ({| Transcoder.sz_width := Some 400; Transcoder.suffix := lit "-sm" |},
                       Transcoder.webp) (lit "write EIO") true) as [Hfile _].
      * job_in.
      * by vm_compute.
      * by vm_compute.
      * exact Hfile.
    + destruct (Hok ({| Transcoder.sz_width := Some 800; Transcoder.suffix := lit "-md" |},
                     Transcoder.jpeg) Studio.source Studio.small) as [Hfile _].
      * job_in.
      * by vm_compute.
      * reflexivity.
      * by vm_compute.
      * by vm_compute.
      * exact Hfile.
    + rewrite Hother; [by vm_compute|].
      apply (bool_decide_unpack _). by vm_compute.
Defined.

(** * Further properties of the content processor *)

Section SlugMore.

Lemma startsWith_snoc (p s : jsstring) (c : N) :
  last p ≠ Some c -> startsWith p (s ++ [c]) = startsWith p s.
Proof.
  revert s. induction p as [|a p IH]; intros s Hlast; [by destruct s|].
  destruct s as [|b s]; simpl.
  - destruct p as [|a' p'].
    + destruct (N.eqb_spec a c) as [->|]; [done | reflexivity].
    + by rewrite andb_false_r.
  - rewrite IH; [done|]. destruct p; [done|]. by rewrite last_cons_cons in Hlast.
Qed.

Lemma startsWith_length (p s : jsstring) :
  startsWith p s = true -> (length p <= length s)%nat.
Proof.
  intros [r ->]%startsWith_prefix. rewrite length_app. lia.
Qed.

Lemma removeFirst_snoc (p s : jsstring) (c : N) :
  p ≠ [] -> last p ≠ Some c ->
  removeFirst p (s ++ [c]) = removeFirst p s ++ [c].
Proof.
  intros Hp Hlast. induction s as [|b s IH].
  - destruct p as [|a p]; [done|]. simpl.
    destruct p as [|a' p'].
    + destruct (N.eqb_spec a c) as [->|]; [done | reflexivity].
    + by rewrite andb_false_r.
  - change ((b :: s) ++ [c]) with (b :: (s ++ [c])) at 1.
    unfold removeFirst; fold removeFirst.
    change (b :: (s ++ [c])) with ((b :: s) ++ [c]).
    rewrite startsWith_snoc by done.
    destruct (startsWith p (b :: s)) eqn:E.
    + apply startsWith_length in E. by rewrite drop_app_le.
    + simpl. by rewrite IH.
Qed.

Lemma dropWhile_snoc (f : N -> bool) (x : jsstring) (c : N) :
  f c = true ->
  (dropWhile f (x ++ [c]) = [] /\ dropWhile f x = [])
  \/ dropWhile f (x ++ [c]) = dropWhile f x ++ [c].
Proof.
  intros Hc. induction x as [|a x IH]; simpl.
  - rewrite Hc. by left.
  - destruct (f a); [done | by right].
Qed.

Lemma dropWhileEnd_snoc (f : N -> bool) (x : jsstring) (c : N) :
  f c = true -> dropWhileEnd f (x ++ [c]) = dropWhileEnd f x.
Proof.
  intros Hc. unfold dropWhileEnd. rewrite reverse_snoc. simpl. by rewrite Hc.
Qed.

Lemma slugPath_trailing_slash (url : jsstring) :
  slugPath (url ++ [slash]) = slugPath url.
Proof.
  unfold slugPath, trimSlashes.
  rewrite removeFirst_snoc; [|done|by vm_compute].
  destruct (dropWhile_snoc isSlash (removeFirst baseUrl url) slash eq_refl)
    as [[-> ->] | ->]; [done|].
  by apply dropWhileEnd_snoc.
Qed.

End SlugMore.

(** X1.  A trailing slash does not change the slug: a URL and the same URL
    with one more slash at its end get the same slug. *)
Theorem createSlug_trailing_slash (url : jsstring) :
  createSlug (url ++ [slash]) = createSlug url.
Proof. unfold createSlug. by rewrite slugPath_trailing_slash. Qed.

Section SlugFixpoint.

Lemma startsWith_elem (p s : jsstring) (c : N) :
  startsWith p s = true -> c ∈ p -> c ∈ s.
Proof.
  intros [r ->]%startsWith_prefix Hc. apply elem_of_app. by left.
Qed.

Lemma removeFirst_absent (p s : jsstring) (c : N) :
  c ∈ p -> c ∉ s -> removeFirst p s = s.
Proof.
  intros Hp. induction s as [|b s IH]; intros Hs.
  - simpl. destruct (startsWith p []) eqn:E; [|done].
    by apply (startsWith_elem _ _ c) in E.
  - unfold removeFirst; fold removeFirst.
    destruct (startsWith p (b :: s)) eqn:E.
    + by apply (startsWith_elem _ _ c) in E.
    + rewrite IH; [done|]. intros H. apply Hs. by apply list_elem_of_further.
Qed.

Lemma dropWhile_head (f : N -> bool) (s : jsstring) :
  (forall c, head s = Some c -> f c = false) -> dropWhile f s = s.
Proof.
  destruct s as [|a s]; [done|]. intros H. simpl. by rewrite (H a eq_refl).
Qed.

Lemma dropWhileEnd_last (f : N -> bool) (s : jsstring) :
  (forall c, last s = Some c -> f c = false) -> dropWhileEnd f s = s.
Proof.
  intros H. unfold dropWhileEnd. rewrite dropWhile_head; [apply reverse_involutive|].
  intros c Hc. apply H. by rewrite <- head_reverse.
Qed.

Lemma isSlugChar_lower_fixed (c : N) : isSlugChar c = true -> lowerUnit c = [c].
Proof.
  unfold isSlugChar, isLowerAz, isDigit, isHyphen, hyphen.
  rewrite !orb_true_iff, !inRange_true, N.eqb_eq. intros H.
  unfold lowerUnit, isUpperAz.
  destruct (inRange 65 90 c) eqn:E1; [apply inRange_true in E1; lia|].
  destruct (inRange 192 222 c) eqn:E2; [apply inRange_true in E2; lia|]. simpl.
  repeat (match goal with
          | |- context [?a =? ?b] => destruct (N.eqb_spec a b); [lia|]
          end).
  reflexivity.
Qed.

Lemma replaceNonSlugChars_fixed (s : jsstring) :
  Forall (fun c => isSlugChar c = true) s -> replaceNonSlugChars s = s.
Proof.
  induction 1 as [|c s Hc _ IH]; [done|]. simpl. by rewrite Hc, IH.
Qed.

Lemma collapseHyphens_fixed (s : jsstring) :
  noDoubleHyphen s = true -> collapseHyphens s = s.
Proof.
  induction s as [|c r IH]; [done|]. destruct r as [|d r'].
  - intros _. simpl. by destruct (isHyphen c).
  - intros [Hcd Hr]%noDoubleHyphen_inv. rewrite collapseHyphens_cons2, Hcd.
    by rewrite IH.
Qed.

Lemma dropTrailingHyphen_fixed (s : jsstring) :
  last s ≠ Some hyphen -> dropTrailingHyphen s = s.
Proof.
  induction s as [|c r IH]; [done|]. destruct r as [|d r'].
  - simpl. destruct (isHyphen c) eqn:E; [|done].
    apply N.eqb_eq in E as ->. done.
  - intros H. change (dropTrailingHyphen (c :: d :: r'))
      with (c :: dropTrailingHyphen (d :: r')).
    rewrite IH; [done|]. by rewrite last_cons_cons in H.
Qed.

Lemma dropLeadingHyphen_fixed (s : jsstring) :
  head s ≠ Some hyphen -> dropLeadingHyphen s = s.
Proof.
  destruct s as [|c r]; [done|]. unfold dropLeadingHyphen.
  destruct (isHyphen c) eqn:E; [|done].
  apply N.eqb_eq in E as ->. done.
Qed.

Lemma dropTrailingHyphen_noDouble (s : jsstring) :
  noDoubleHyphen s = true -> noDoubleHyphen (dropTrailingHyphen s) = true.
Proof.
  induction s as [|c r IH]; [done|]. destruct r as [|d r'].
  - intros _. simpl. by destruct (isHyphen c).
  - intros [Hcd Hr]%noDoubleHyphen_inv.
    change (dropTrailingHyphen (c :: d :: r'))
      with (c :: dropTrailingHyphen (d :: r')).
    apply noDoubleHyphen_cons; [by apply IH|].
    intros e He. destruct r' as [|f r''].
    + simpl in He. destruct (isHyphen d) eqn:Ed; simpl in He; [done|].
      injection He as <-. by rewrite Ed, andb_false_r.
    + change (dropTrailingHyphen (d :: f :: r''))
        with (d :: dropTrailingHyphen (f :: r'')) in He.
      simpl in He. by injection He as <-.
Qed.

(** A string that already has the shape of a slug is its own slug. *)
Lemma createSlug_of_slug (s : jsstring) :
  s ≠ [] ->
  Forall (fun c => isSlugChar c = true) s ->
  noDoubleHyphen s = true ->
  head s ≠ Some hyphen -> last s ≠ Some hyphen ->
  createSlug s = s.
Proof.
  intros Hne Hchars Hnd Hhead Hlast.
  assert (Hno : forall c, isSlugChar c = false -> c ∉ s).
  { intros c Hc Hin. rewrite Forall_forall in Hchars.
    specialize (Hchars c Hin). congruence. }
  assert (Hpath : slugPath s = s).
  { unfold slugPath, trimSlashes.
    rewrite (removeFirst_absent baseUrl s 58); [|apply list_elem_of_In; vm_compute; tauto|by apply Hno].
    rewrite dropWhile_head.
    - apply dropWhileEnd_last. intros c Hc. destruct (isSlash c) eqn:E; [|done].
      apply N.eqb_eq in E as ->. exfalso. apply (Hno slash); [done|].
      by apply last_Some_elem_of.
    - intros c Hc. destruct (isSlash c) eqn:E; [|done].
      apply N.eqb_eq in E as ->. exfalso. apply (Hno slash); [done|].
      by apply head_Some_elem_of. }
  unfold createSlug. rewrite Hpath. destruct s as [|c0 s0]; [done|].
  rewrite toLowerCase_fixed.
  - rewrite replaceNonSlugChars_fixed, collapseHyphens_fixed by done.
    unfold stripEdgeHyphens. rewrite dropLeadingHyphen_fixed by done.
    by apply dropTrailingHyphen_fixed.
  - eapply Forall_impl; [exact Hchars|]. apply isSlugChar_lower_fixed.
Qed.

End SlugFixpoint.

(** X2.  A slug that is not empty is its own slug: slugging twice gives what
    slugging once gives.  The empty slug is the exception, its slug being
    [index]. *)
Theorem createSlug_idempotent (url : jsstring) :
  (createSlug url ≠ [] -> createSlug (createSlug url) = createSlug url)
  /\ (createSlug url = [] -> createSlug (createSlug url) = lit "index").
Proof.
  split; [|by intros ->].
  intros Hne. unfold createSlug in *. destruct (slugPath url) as [|c0 path] eqn:Hpath.
  { by vm_compute. }
  set (t := collapseHyphens (replaceNonSlugChars (toLowerCase (c0 :: path)))) in *.
  assert (Ht : noDoubleHyphen t = true) by apply collapseHyphens_noDouble.
  apply createSlug_of_slug.
  - done.
  - apply dropTrailingHyphen_Forall, dropLeadingHyphen_Forall,
      collapseHyphens_Forall, replaceNonSlugChars_slug.
  - by apply dropTrailingHyphen_noDouble, dropLeadingHyphen_noDouble.
  - by apply dropTrailingHyphen_head, dropLeadingHyphen_head.
  - by apply dropTrailingHyphen_last, dropLeadingHyphen_noDouble.
Qed.

Lemma createSlug_idempotent_witness :
  createSlug (createSlug (lit "https://obraabc.org/Quem Somos/")) = lit "quem-somos"
  /\ createSlug (createSlug (lit "https://obraabc.org/?")) = lit "index".
Proof.
  destruct (createSlug_idempotent (lit "https://obraabc.org/Quem Somos/")) as [H1 _].
  destruct (createSlug_idempotent (lit "https://obraabc.org/?")) as [_ H2].
  split.
  - rewrite H1; [by vm_compute | by vm_compute].
  - apply H2. by vm_compute.
Defined.

Section TitleMore.

Lemma dropWhile_Forall (f : N -> bool) (P : N -> Prop) (s : jsstring) :
  Forall P s -> Forall P (dropWhile f s).
Proof.
  induction 1 as [|c s Hc Hs IH]; simpl; [done|].
  destruct (f c); [done | by constructor].
Qed.

Lemma dropWhileEnd_Forall (f : N -> bool) (P : N -> Prop) (s : jsstring) :
  Forall P s -> Forall P (dropWhileEnd f s).
Proof.
  intros H. unfold dropWhileEnd. apply Forall_reverse, dropWhile_Forall.
  by apply Forall_reverse.
Qed.

Lemma trim_Forall (P : N -> Prop) (s : jsstring) :
  Forall P s -> Forall P (trim s).
Proof. intros H. by apply dropWhileEnd_Forall, dropWhile_Forall. Qed.

Lemma cutAtSuffix_Forall (sep : N) (P : N -> Prop) (s : jsstring) :
  Forall P s -> Forall P (cutAtSuffix sep s).
Proof.
  induction 1 as [|c s Hc Hs IH]; simpl.
  - by destruct (suffixMatchesAt sep []).
  - destruct (suffixMatchesAt sep (c :: s)); [done | by constructor].
Qed.

(** On one line, the separator does not survive the cut. *)
Lemma cutAtSuffix_no_sep (sep : N) (s : jsstring) :
  isWhiteSpace sep = false ->
  Forall (fun c => isLineTerminator c = false) s ->
  sep ∉ cutAtSuffix sep s.
Proof.
  intros Hsep. induction 1 as [|c s Hc Hs IH]; simpl.
  - destruct (suffixMatchesAt sep []); apply not_elem_of_nil.
  - destruct (suffixMatchesAt sep (c :: s)) eqn:E; [apply not_elem_of_nil|].
    apply not_elem_of_cons. split; [|done].
    intros ->. unfold suffixMatchesAt in E. simpl in E. rewrite Hsep in E.
    rewrite N.eqb_refl in E. simpl in E.
    apply not_true_iff_false in E. apply E.
    apply forallb_forall. intros d Hd%list_elem_of_In.
    apply negb_true_iff.
    assert (H : Forall (fun c => isLineTerminator c = false) (dropWhile isWhiteSpace s))
      by by apply dropWhile_Forall.
    rewrite Forall_forall in H. by apply H.
Qed.

Lemma dropWhile_elem (f : N -> bool) (s : jsstring) (c : N) :
  c ∈ dropWhile f s -> c ∈ s.
Proof.
  induction s as [|a s IH]; simpl; [done|].
  destruct (f a); [|done]. intros H. by apply list_elem_of_further, IH.
Qed.

(** Without the separator there is nothing to cut. *)
Lemma cutAtSuffix_absent (sep : N) (s : jsstring) :
  sep ∉ s -> cutAtSuffix sep s = s.
Proof.
  induction s as [|c s IH]; intros Hs.
  - simpl. by destruct (suffixMatchesAt sep []).
  - unfold cutAtSuffix; fold cutAtSuffix.
    destruct (suffixMatchesAt sep (c :: s)) eqn:E.
    + exfalso. unfold suffixMatchesAt in E.
      destruct (dropWhile isWhiteSpace (c :: s)) as [|d rest] eqn:Ed; [done|].
      apply andb_true_iff in E as [->%N.eqb_eq _].
      apply Hs, (dropWhile_elem isWhiteSpace). rewrite Ed. apply list_elem_of_here.
    + rewrite IH; [done|]. intros H. apply Hs. by apply list_elem_of_further.
Qed.

End TitleMore.

(** X3.  On a title of one line, [cleanTitle] leaves neither a [|] nor a
    hyphen: everything from the first of each is cut.  A title with neither
    is only trimmed. *)
Theorem cleanTitle_single_line (t : jsstring) :
  (Forall (fun c => isLineTerminator c = false) t ->
   (pipe ∉ cleanTitle t) /\ (hyphen ∉ cleanTitle t))
  /\ (pipe ∉ t -> hyphen ∉ t -> cleanTitle t = trim t).
Proof.
  split.
  - intros Hline. unfold cleanTitle.
    assert (Hp : pipe ∉ cutAtSuffix pipe t) by by apply cutAtSuffix_no_sep.
    assert (Hh : hyphen ∉ cutAtSuffix hyphen (cutAtSuffix pipe t)).
    { apply cutAtSuffix_no_sep; [done|]. by apply cutAtSuffix_Forall. }
    split.
    + assert (H : Forall (fun c => c ≠ pipe) (trim (cutAtSuffix hyphen (cutAtSuffix pipe t)))).
      { apply trim_Forall, cutAtSuffix_Forall. apply Forall_forall. by intros c Hc ->. }
      rewrite Forall_forall in H. intros Hin. by apply (H pipe).
    + assert (H : Forall (fun c => c ≠ hyphen) (trim (cutAtSuffix hyphen (cutAtSuffix pipe t)))).
      { apply trim_Forall. apply Forall_forall. by intros c Hc ->. }
      rewrite Forall_forall in H. intros Hin. by apply (H hyphen).
  - intros Hp Hh. unfold cleanTitle. by rewrite (cutAtSuffix_absent pipe), cutAtSuffix_absent.
Qed.

Lemma cleanTitle_single_line_witness :
  (hyphen ∉ cleanTitle (lit "Guarda-chuva | Obra ABC"))
  /\ cleanTitle (lit "  Quem somos ") = trim (lit "  Quem somos ").
Proof.
  split.
  - apply (proj1 (cleanTitle_single_line (lit "Guarda-chuva | Obra ABC"))).
    repeat constructor.
  - apply (proj2 (cleanTitle_single_line (lit "  Quem somos ")));
      apply (bool_decide_unpack _); by vm_compute.
Defined.

(** X4.  Whether a page is content depends on its URL and title alone: the
    test on the length of the content is joined to the asset-extension test
    that has already returned, so the content never decides. *)
Theorem isValidContentPage_ignores_content (p q : PageData) :
  url p = url q -> title p = title q ->
  isValidContentPage p = isValidContentPage q.
Proof.
  intros Hu Ht. unfold isValidContentPage, titleOrEmpty. rewrite Hu, Ht.
  destruct (existsb _ assetExtensions); [done|].
  destruct (includes _ _); [done|].
  destruct (existsb _ skipPatterns); [done|].
  by rewrite !andb_false_r.
Qed.

Lemma isValidContentPage_ignores_content_witness :
  isValidContentPage
    {| url := lit "https://obraabc.org/equipa"; title := Some (lit "Equipa");
       content := Some {| main := Some (lit "<img src=a.png>") |}; meta := None |}
  = isValidContentPage
      {| url := lit "https://obraabc.org/equipa"; title := Some (lit "Equipa");
         content := None; meta := None |}.
Proof.
  apply isValidContentPage_ignores_content; reflexivity.
Defined.

Section ProcessedMore.

Variable renderBody : option jsstring -> jsstring.
Variable writeFails : jsstring -> option jsstring.

Lemma processPageTry_Ok (p : PageData) (pp : ProcessedPage) (file : FileBody) :
  processPageTry renderBody writeFails p = Ok (pp, file) ->
  pp_originalUrl pp = url p
  /\ pp_slug pp = createSlug (url p)
  /\ pp_type pp = determineContentType p
  /\ pp_outputPath pp = outputPathOf (pp_type pp) (pp_slug pp)
  /\ writeFails (pp_outputPath pp) = None.
Proof.
  unfold processPageTry.
  destruct (content p); [|done]. destruct (title p); [|done].
  destruct (meta p); [|done].
  destruct (writeFails _) eqn:E; [done|].
  intros [= <- _]. simpl. by repeat split.
Qed.

Lemma processPage_fold_written (pages : list PageData) (st : Processor) :
  List.map fst (written (fold_left (processPage renderBody writeFails) pages st))
  = List.map fst (written st)
    ++ List.map pp_outputPath (omap (processedOf renderBody writeFails) pages).
Proof.
  revert st. induction pages as [|p pages IH]; intros st; simpl.
  - by rewrite app_nil_r.
  - rewrite IH. unfold processPage, processedOf.
    destruct (processPageTry renderBody writeFails p) as [[pp file]|e]; simpl; [|done].
    by rewrite map_app, <- app_assoc.
Qed.

Lemma omap_processedOf (pages : list PageData) (pp : ProcessedPage) :
  pp ∈ omap (processedOf renderBody writeFails) pages ->
  exists p, p ∈ pages
    /\ pp_originalUrl pp = url p
    /\ pp_slug pp = createSlug (url p)
    /\ pp_type pp = determineContentType p
    /\ pp_outputPath pp = outputPathOf (pp_type pp) (pp_slug pp)
    /\ writeFails (pp_outputPath pp) = None.
Proof.
  intros (p & Hp & Hpp)%list_elem_of_omap. exists p. split; [done|].
  unfold processedOf in Hpp.
  destruct (processPageTry renderBody writeFails p) as [[pp' file]|e] eqn:E; [|done].
  injection Hpp as ->. by eapply processPageTry_Ok.
Qed.

Lemma omap_length {A B : Type} (f : A -> option B) (l : list A) :
  (length (omap f l) <= length l)%nat.
Proof.
  induction l as [|a l IH]; csimpl; [done|]. destruct (f a); csimpl; lia.
Qed.

End ProcessedMore.

(** X5.  In a run of the processor from scratch, the files written for pages
    are, in order, the output paths of the processed pages; every processed
    page comes from a record that passed [isValidContentPage], carries its
    URL, its slug and its category, lies under [articles] or [pages] by its
    category, and its write did not fail; and no more pages are processed
    than records were read. *)
Theorem processPages_outputs
    (renderBody : option jsstring -> jsstring)
    (writeFails : jsstring -> option jsstring)
    (allPagesData : list PageData) :
  List.map fst (written (processPages renderBody writeFails allPagesData newProcessor))
  = List.map pp_outputPath
      (processedPages (processPages renderBody writeFails allPagesData newProcessor))
  /\ (forall pp,
        pp ∈ processedPages (processPages renderBody writeFails allPagesData newProcessor) ->
        exists p, p ∈ allPagesData
          /\ isValidContentPage p = true
          /\ pp_originalUrl pp = url p
          /\ pp_slug pp = createSlug (url p)
          /\ pp_type pp = determineContentType p
          /\ pp_outputPath pp = outputPathOf (pp_type pp) (pp_slug pp)
          /\ writeFails (pp_outputPath pp) = None)
  /\ (length (processedPages (processPages renderBody writeFails allPagesData newProcessor))
      <= length allPagesData)%nat.
Proof.
  unfold processPages.
  destruct (processPage_fold renderBody writeFails (contentPages allPagesData) newProcessor)
    as [Hp _].
  rewrite Hp, processPage_fold_written. simpl. split; [done|]. split.
  - intros pp (p & Hin & H)%omap_processedOf. exists p.
    unfold contentPages in Hin. apply list_elem_of_In, filter_In in Hin as [Hin Hv].
    split; [by apply list_elem_of_In|]. by split.
  - etrans; [apply omap_length|]. apply List.filter_length_le.
Qed.

Lemma processPages_outputs_witness :
  exists p, p ∈ [pageWithoutTitle; pageComplete]
    /\ isValidContentPage p = true
    /\ url p = lit "https://obraabc.org/sobre".
Proof.
  destruct (processPages_outputs bodyAsIs writesSucceed [pageWithoutTitle; pageComplete])
    as (_ & Hfrom & _).
  destruct (Hfrom {| pp_slug := lit "sobre"; pp_type := about;
                     pp_originalUrl := lit "https://obraabc.org/sobre";
                     pp_title := lit "Sobre";
                     pp_outputPath := lit "src/content/pages/sobre.md" |})
    as (p & Hin & Hvalid & Hurl & _).
  - vm_compute. apply list_elem_of_here.
  - exists p. split; [done|]. split; [done|]. by rewrite <- Hurl.
Defined.

(** * Further properties of the crawler *)

Section CrawlMore.

Import Crawler.

Variable base : jsstring.
Variable hostname : jsstring -> option jsstring.
Variable browse : jsstring -> Visit.

Local Abbreviation crawlPage := (Crawler.crawlPage base hostname browse).
Local Abbreviation crawlBatches := (Crawler.crawlBatches base hostname browse).
Local Abbreviation crawlLoop := (Crawler.crawlLoop base hostname browse).
Local Abbreviation crawlSite := (Crawler.crawlSite base hostname browse).
Local Abbreviation linksOf := (Crawler.linksOf base hostname browse).
Local Abbreviation isInternalLink := (Crawler.isInternalLink base hostname).

Lemma crawlPage_links_grow (st : Crawler) (u v : jsstring) :
  v ∈ internalLinks st -> v ∈ internalLinks (crawlPage st u).
Proof.
  intros Hv. destruct (decide (u ∈ visitedUrls st)) as [Hin|Hin].
  - by rewrite crawlPage_visited.
  - destruct (crawlPage_fresh base hostname browse st u Hin) as (_ & _ & Hl & _).
    apply Hl. by left.
Qed.

(** A property that [crawlPage] keeps on the URLs it finds as links is kept
    by the whole [while] loop. *)
Lemma crawlPages_preserve (P : Crawler -> Prop) (l : list jsstring) (st : Crawler) :
  (forall st u, P st -> u ∈ internalLinks st -> P (crawlPage st u)) ->
  P st -> (forall u, u ∈ l -> u ∈ internalLinks st) ->
  P (fold_left crawlPage l st).
Proof.
  intros Hstep. revert st. induction l as [|u l IH]; intros st HP Hl; simpl; [done|].
  apply IH.
  - apply Hstep; [done|]. apply Hl, list_elem_of_here.
  - intros v Hv. apply crawlPage_links_grow, Hl. by apply list_elem_of_further.
Qed.

Lemma crawlLoop_preserve (P : Crawler -> Prop) (fuel : nat) (st st' : Crawler) :
  (forall st u, P st -> u ∈ internalLinks st -> P (crawlPage st u)) ->
  P st -> crawlLoop fuel st = Some st' -> P st'.
Proof.
  intros Hstep. revert st. induction fuel as [|fuel IH]; intros st HP; simpl.
  - destruct (frontier st); [by intros [= <-] | done].
  - destruct (frontier st) as [|u0 rest] eqn:Hf; [by intros [= <-]|].
    rewrite crawlBatches_flat. apply IH.
    apply crawlPages_preserve; [done | done |].
    intros u Hu. rewrite <- Hf in Hu. by apply frontier_elem in Hu as [? _].
Qed.

Lemma linksOf_internal (u v : jsstring) :
  v ∈ linksOf u -> isInternalLink v = true.
Proof.
  unfold Crawler.linksOf.
  destruct (browse u); try (intros H; by apply not_elem_of_nil in H);
    by intros [_ ?]%linksOf_elem.
Qed.

(** Only same-origin URLs are queued, and only the start URL and queued
    URLs are fetched. *)
Lemma crawlPage_same_origin (st : Crawler) (u : jsstring) :
  (forall v, v ∈ internalLinks st -> isInternalLink v = true)
  /\ (forall v, v ∈ gotoLog st -> v = base \/ isInternalLink v = true) ->
  u = base \/ isInternalLink u = true ->
  (forall v, v ∈ internalLinks (crawlPage st u) -> isInternalLink v = true)
  /\ (forall v, v ∈ gotoLog (crawlPage st u) -> v = base \/ isInternalLink v = true).
Proof.
  intros [Hl Hg] Hu. destruct (decide (u ∈ visitedUrls st)) as [Hin|Hin].
  { by rewrite crawlPage_visited. }
  destruct (crawlPage_fresh base hostname browse st u Hin) as (_ & Hg' & Hl' & _).
  split.
  - intros v [Hv|Hv]%Hl'; [by apply Hl | by eapply linksOf_internal].
  - intros v. rewrite Hg', elem_of_app, list_elem_of_singleton.
    intros [Hv | -> ]; [by apply Hg | done].
Qed.

End CrawlMore.

(** X6.  The crawler never fetches a URL of another host: every URL it
    calls [page.goto] on is the start URL or passed [isInternalLink], and so
    did every URL it has queued. *)
Theorem crawl_stays_on_site
    (base : jsstring) (hostname : jsstring -> option jsstring)
    (browse : jsstring -> Crawler.Visit) (fuel : nat) (st : Crawler.Crawler) :
  Crawler.crawlSite base hostname browse fuel = Some st ->
  (forall u, u ∈ Crawler.internalLinks st -> Crawler.isInternalLink base hostname u = true)
  /\ (forall u, u ∈ Crawler.gotoLog st ->
        u = base \/ Crawler.isInternalLink base hostname u = true).
Proof.
  unfold Crawler.crawlSite.
  apply (crawlLoop_preserve base hostname browse
           (fun st => (forall u, u ∈ Crawler.internalLinks st ->
                                 Crawler.isInternalLink base hostname u = true)
                      /\ (forall u, u ∈ Crawler.gotoLog st ->
                            u = base \/ Crawler.isInternalLink base hostname u = true))).
  - intros st0 u H Hu. apply crawlPage_same_origin; [done|]. right. by apply H.
  - apply crawlPage_same_origin; [|by left].
    split; intros u Hu; by apply not_elem_of_nil in Hu.
Qed.

Lemma crawl_stays_on_site_witness :
  Site.post = Site.start
  \/ Crawler.isInternalLink Site.start Site.hostname Site.post = true.
Proof.
  refine (proj2 (crawl_stays_on_site Site.start Site.hostname Site.browse 4
           {| Crawler.visitedUrls := [Site.start; Site.home; Site.sobre; Site.post];
              Crawler.pagesData :=
                [Crawler.toPageData Site.start (Site.extracted "Obra ABC");
                 Crawler.toPageData Site.home (Site.extracted "Obra ABC");
                 Crawler.toPageData Site.sobre (Site.extracted "Sobre")];
              Crawler.images := [];
              Crawler.errors := [(Site.post, lit "Timeout 30000ms exceeded")];
              Crawler.internalLinks := [Site.home; Site.sobre; Site.post; Site.start];
              Crawler.gotoLog := [Site.start; Site.home; Site.sobre; Site.post] |} _)
            Site.post _).
  - by vm_compute.
  - apply list_elem_of_In. simpl. tauto.
Defined.

(** X7.  Whether the crawl returns or rejects, every URL it marked visited
    has a page record or an entry in the error list (or both, when the links
    or images of a recorded page could not be read), unless the page object
    for it could not be opened; and every page record and every error is of
    a visited URL. *)
Theorem crawl_accounts_for_every_visit
    (base : jsstring) (hostname : jsstring -> option jsstring)
    (session : jsstring -> Sessions.Session)
    (newContextFails closeContextFails : option jsstring)
    (fuel : nat) (st : Crawler.Crawler) (r : option jsstring) :
  Sessions.crawlSite base hostname session newContextFails closeContextFails fuel
  = Some (st, r) ->
  (forall v, v ∈ Crawler.visitedUrls st ->
     v ∈ List.map url (Crawler.pagesData st) \/ v ∈ List.map fst (Crawler.errors st)
     \/ exists e, session v = Sessions.NewPageFails e)
  /\ (forall v, v ∈ List.map url (Crawler.pagesData st) -> v ∈ Crawler.visitedUrls st)
  /\ (forall v, v ∈ List.map fst (Crawler.errors st) -> v ∈ Crawler.visitedUrls st).
Proof.
  apply (sessions_crawlSite_preserve base hostname session newContextFails
           closeContextFails
           (fun st =>
              (forall v, v ∈ Crawler.visitedUrls st ->
                 v ∈ List.map url (Crawler.pagesData st)
                 \/ v ∈ List.map fst (Crawler.errors st)
                 \/ exists e, session v = Sessions.NewPageFails e)
              /\ (forall v, v ∈ List.map url (Crawler.pagesData st) ->
                    v ∈ Crawler.visitedUrls st)
              /\ (forall v, v ∈ List.map fst (Crawler.errors st) ->
                    v ∈ Crawler.visitedUrls st))).
  - intros st0 u H. by apply sessions_crawlPage_accounts.
  - repeat split; intros v Hv; by apply not_elem_of_nil in Hv.
Qed.

Lemma crawl_accounts_for_every_visit_witness :
  Site.home ∈ List.map url (Crawler.pagesData Site.afterCrawl)
  \/ Site.home ∈ List.map fst (Crawler.errors Site.afterCrawl)
  \/ exists e, Site.session Site.home = Sessions.NewPageFails e.
Proof.
  refine (proj1 (crawl_accounts_for_every_visit Site.start Site.hostname Site.session
                   None None 4 Site.afterCrawl None _) Site.home _).
  - by vm_compute.
  - apply (bool_decide_unpack _). by vm_compute.
Defined.



(** * Further properties of the image fetcher *)

Section FilenameFacts.

Lemma digitsOfUint_inj (u v : Decimal.uint) :
  digitsOfUint u = digitsOfUint v -> u = v.
Proof.
  revert v. induction u as [|u IH|u IH|u IH|u IH|u IH|u IH|u IH|u IH|u IH|u IH];
    intros [|v|v|v|v|v|v|v|v|v|v]; simpl; intros H;
    try discriminate; try reflexivity; injection H as H; f_equal; by apply IH.
Qed.

Lemma numberToString_inj (m n : N) :
  numberToString m = numberToString n -> m = n.
Proof.
  unfold numberToString. intros H%digitsOfUint_inj.
  by apply DecimalN.Unsigned.to_uint_inj.
Qed.

Lemma digitsOfUint_digits (u : Decimal.uint) :
  Forall (fun c => isDigit c = true) (digitsOfUint u).
Proof. induction u; simpl; by constructor. Qed.

Lemma takeWhile_Forall (f : N -> bool) (P : N -> Prop) (s : jsstring) :
  Forall P s -> Forall P (takeWhile f s).
Proof.
  induction 1 as [|c s Hc Hs IH]; simpl; [done|].
  destruct (f c); [by constructor | done].
Qed.

Lemma basename_Forall (P : N -> Prop) (p : jsstring) :
  Forall P p -> Forall P (basename p).
Proof.
  intros H. unfold basename.
  by apply Forall_reverse, takeWhile_Forall, dropWhile_Forall, Forall_reverse.
Qed.

Lemma extname_Forall (P : N -> Prop) (p : jsstring) :
  Forall P p -> Forall P (extname p).
Proof.
  intros H%basename_Forall%Forall_reverse. unfold extname.
  pose proof (dropWhile_Forall (fun c => negb (isDot c)) P _ H) as Hd.
  destruct (dropWhile _ (reverse (basename p))) as [|d before]; [done|].
  destruct before; [done|]. destruct (bool_decide _); [done|].
  constructor; [by inversion Hd|]. by apply Forall_reverse, takeWhile_Forall.
Qed.

Lemma basenameWithout_Forall (P : N -> Prop) (p suffix : jsstring) :
  Forall P p -> Forall P (basenameWithout p suffix).
Proof.
  intros H. unfold basenameWithout. destruct suffix; [by apply basename_Forall|].
  destruct (bool_decide _); [done|].
  destruct (_ && _); [by apply Forall_take, basename_Forall | by apply basename_Forall].
Qed.

End FilenameFacts.

(** X9.  The file name of a download consists of lower-case letters,
    digits, dots and hyphens whatever the path of the URL: it has no slash,
    so the destination lies directly in the output directory. *)
Theorem createSafeFilename_chars (timestamp : N) (pathname : jsstring) :
  Forall (fun c => isLowerAz c || isDigit c || isDot c || isHyphen c = true)
         (Fetcher.createSafeFilename timestamp pathname)
  /\ slash ∉ Fetcher.createSafeFilename timestamp pathname.
Proof.
  assert (H : Forall (fun c => isLowerAz c || isDigit c || isDot c || isHyphen c = true)
                     (Fetcher.createSafeFilename timestamp pathname)).
  { unfold Fetcher.createSafeFilename.
    set (filename := stripEdgeHyphens (collapseHyphens (Fetcher.replaceNonFileChars _))).
    assert (Hf : Forall (fun c => isLowerAz c || isDigit c || isDot c || isHyphen c = true)
                        filename).
    { apply dropTrailingHyphen_Forall, dropLeadingHyphen_Forall, collapseHyphens_Forall.
      unfold Fetcher.replaceNonFileChars. apply Forall_forall.
      intros c (x & -> & _)%list_elem_of_fmap.
      by destruct (isLowerAz x || isDigit x || isDot x || isHyphen x) eqn:E. }
    apply Forall_app. split; [by apply basenameWithout_Forall|].
    apply Forall_app. split; [by repeat constructor|].
    apply Forall_app. split; [|by apply extname_Forall].
    eapply Forall_impl; [apply digitsOfUint_digits|].
    intros c Hc. simpl in Hc. by rewrite Hc, orb_true_r. }
  split; [done|]. intros Hin. rewrite Forall_forall in H. by specialize (H _ Hin).
Qed.

(** X10.  Two readings of the clock give two file names for the same path:
    for a given path, the name determines the timestamp. *)
Theorem createSafeFilename_timestamp_inj (t1 t2 : N) (pathname : jsstring) :
  Fetcher.createSafeFilename t1 pathname = Fetcher.createSafeFilename t2 pathname ->
  t1 = t2.
Proof.
  unfold Fetcher.createSafeFilename.
  intros H%app_inv_head%app_inv_head%app_inv_tail. by apply numberToString_inj.
Qed.

Lemma createSafeFilename_timestamp_inj_witness :
  Fetcher.createSafeFilename 1700000000000 (lit "/wp-content/uploads/logo.png")
  = Fetcher.createSafeFilename 1700000000000 (lit "/wp-content/uploads/logo.png")
  /\ 1700000000000 = 1700000000000.
Proof.
  split; [reflexivity|].
  apply (createSafeFilename_timestamp_inj 1700000000000 1700000000000
           (lit "/wp-content/uploads/logo.png")).
  reflexivity.
Defined.

Section FetchFacts.

Import Fetcher.

Variable pathnameOf : jsstring -> option jsstring.
Variable download : jsstring -> Download.

Local Abbreviation finishImage := (Fetcher.finishImage download).
Local Abbreviation processBatch := (Fetcher.processBatch pathnameOf download).
Local Abbreviation optimizeAllImages := (Fetcher.optimizeAllImages pathnameOf download).

Lemma setAdd_member (x y : jsstring) (l : list jsstring) :
  x = y \/ x ∈ l -> x ∈ Crawler.setAdd y l.
Proof.
  unfold Crawler.setAdd. destruct (decide (y ∈ l)) as [Hy|Hy].
  - by intros [ -> | ].
  - rewrite elem_of_app, list_elem_of_singleton. tauto.
Qed.

(** A call adds at most one entry or one error. *)
Lemma finishImage_step (st : Optimizer) (s : Started) :
  (length (downloadedImages (finishImage st s)) + length (errors (finishImage st s))
   <= length (downloadedImages st) + length (errors st) + 1)%nat.
Proof.
  destruct s as [|u e|imageUrl filename outputPath d]; simpl.
  - lia.
  - rewrite length_app. simpl. lia.
  - destruct (download imageUrl) as [|e leftover]; simpl; rewrite length_app; simpl; lia.
Qed.

(** While no download ends with the destination unlinked, no file goes
    away, and the file of every entry is in the output directory. *)
Lemma finishImage_files (st : Optimizer) (s : Started) :
  (forall u e, download u ≠ Rejected e Unlinked) ->
  (forall d, d ∈ downloadedImages st -> path d ∈ files st) ->
  forall d, d ∈ downloadedImages (finishImage st s) -> path d ∈ files (finishImage st s).
Proof.
  intros Hno Hinv. destruct s as [|u e|imageUrl filename outputPath d]; simpl; [done..|].
  pose proof (Hno imageUrl) as Hno'.
  destruct (download imageUrl) as [|e [| |]]; simpl.
  - intros x [Hx | ->%list_elem_of_singleton]%elem_of_app; simpl;
      apply setAdd_member; [right; by apply Hinv | by left].
  - done.
  - intros x Hx. apply setAdd_member. right. by apply Hinv.
  - by destruct (Hno' e).
Qed.

Lemma finishImages_fold (ss : list Started) (st : Optimizer) :
  (length (downloadedImages (fold_left finishImage ss st))
   + length (errors (fold_left finishImage ss st))
   <= length (downloadedImages st) + length (errors st) + length ss)%nat
  /\ ((forall u e, download u ≠ Rejected e Unlinked) ->
      (forall d, d ∈ downloadedImages st -> path d ∈ files st) ->
      forall d, d ∈ downloadedImages (fold_left finishImage ss st) ->
        path d ∈ files (fold_left finishImage ss st)).
Proof.
  revert st. induction ss as [|s ss IH]; intros st; simpl.
  - split; [lia | done].
  - pose proof (finishImage_step st s) as Hc.
    destruct (IH (finishImage st s)) as (Hc' & Hi').
    split; [lia|]. intros Hno Hinv. apply Hi'; [done|]. by apply finishImage_files.
Qed.

Lemma processBatches_fold (clock : nat -> N) (batches : list (list (nat * ImageData)))
    (st : Optimizer) :
  (length (downloadedImages (fold_left (processBatch clock) batches st))
   + length (errors (fold_left (processBatch clock) batches st))
   <= length (downloadedImages st) + length (errors st) + length (concat batches))%nat
  /\ ((forall u e, download u ≠ Rejected e Unlinked) ->
      (forall d, d ∈ downloadedImages st -> path d ∈ files st) ->
      forall d, d ∈ downloadedImages (fold_left (processBatch clock) batches st) ->
        path d ∈ files (fold_left (processBatch clock) batches st)).
Proof.
  revert st. induction batches as [|b batches IH]; intros st; simpl.
  - split; [lia | done].
  - unfold Fetcher.processBatch at 2 4 6 8.
    destruct (finishImages_fold
                (List.map (fun '(i, d) => startImage pathnameOf (clock i) (files st) d) b)
                st) as (Hc & Hi).
    rewrite length_map in Hc.
    destruct (IH (fold_left finishImage
                    (List.map (fun '(i, d) => startImage pathnameOf (clock i) (files st) d) b)
                    st)) as (Hc' & Hi').
    unfold Fetcher.processBatch in *. rewrite length_app. split; [lia|].
    intros Hno Hinv. apply Hi'; [done|]. by apply Hi.
Qed.

End FetchFacts.

(** Without that condition the file can be missing: of two images of one
    batch with the same destination the first is saved and the second
    unlinks the destination, which leaves an entry without its file. *)
Example unlink_removes_saved_file :
  Fetcher.downloadedImages Gallery.unlinkedRun = [Gallery.saved]
  /\ Fetcher.files Gallery.unlinkedRun = [].
Proof. split; by vm_compute. Qed.

(** X11.  Over a run of the fetcher the manifest entries and the errors
    together grow by at most the length of the image list; and while no
    download ends with its destination unlinked, the file of every manifest
    entry is in the output directory when the run ends. *)
Theorem fetch_accounts_for_every_image
    (pathnameOf : jsstring -> option jsstring)
    (download : jsstring -> Fetcher.Download)
    (clock : nat -> N) (images : list Fetcher.ImageData) (st : Fetcher.Optimizer) :
  (length (Fetcher.downloadedImages
             (Fetcher.optimizeAllImages pathnameOf download clock images st))
   + length (Fetcher.errors
               (Fetcher.optimizeAllImages pathnameOf download clock images st))
   <= length (Fetcher.downloadedImages st) + length (Fetcher.errors st) + length images)%nat
  /\ ((forall u e, download u ≠ Fetcher.Rejected e Fetcher.Unlinked) ->
      (forall d, d ∈ Fetcher.downloadedImages st -> Fetcher.path d ∈ Fetcher.files st) ->
      forall d,
        d ∈ Fetcher.downloadedImages
              (Fetcher.optimizeAllImages pathnameOf download clock images st) ->
        Fetcher.path d
        ∈ Fetcher.files (Fetcher.optimizeAllImages pathnameOf download clock images st)).
Proof.
  unfold Fetcher.optimizeAllImages.
  destruct (processBatches_fold pathnameOf download clock
              (Crawler.batchesOf 5 (zip (seq 0 (length images)) images)) st)
    as [Hc Hi].
  split; [|done].
  assert (Hlen : length (concat (Crawler.batchesOf 5 (zip (seq 0 (length images)) images)))
                 = length images).
  { unfold Crawler.batchesOf. rewrite slices_concat by done.
    rewrite length_zip, length_seq. lia. }
  by rewrite Hlen in Hc.
Qed.

Lemma fetch_accounts_for_every_image_witness :
  Fetcher.path Gallery.firstLogo ∈ Fetcher.files Gallery.twoBatches.
Proof.
  refine (proj2 (fetch_accounts_for_every_image Gallery.pathnameOf Gallery.allSaved
                   Gallery.clockByBatch
                   [Gallery.logo; Gallery.photo 1; Gallery.photo 2; Gallery.photo 3;
                    Gallery.photo 4; Gallery.logo]
                   Gallery.empty) _ _ Gallery.firstLogo _).
  - intros u e. discriminate.
  - intros d Hd. by apply not_elem_of_nil in Hd.
  - vm_compute. apply list_elem_of_here.
Defined.

(** * Further properties of the transcoder *)

Section SkipFacts.

Import Transcoder.

Lemma shouldSkipOptimization_true (m : gmap jsstring File) (sourcePath targetPath : jsstring) :
  shouldSkipOptimization m sourcePath targetPath = true
  <-> exists sf tf, m !! sourcePath = Some sf /\ m !! targetPath = Some tf
                    /\ mtime sf < mtime tf.
Proof.
  unfold shouldSkipOptimization, getFileModTime. simpl.
  destruct (m !! sourcePath) as [sf|]; simpl.
  - destruct (m !! targetPath) as [tf|]; simpl.
    + rewrite N.ltb_lt. split; [by exists sf, tf|].
      by intros (? & ? & [= <-] & [= <-] & ?).
    + split; [done|]. by intros (? & ? & _ & ? & _).
  - split; [done|]. by intros (? & ? & ? & _).
Qed.

End SkipFacts.

(** X12.  Running the transcoder again on an unchanged source writes
    nothing: after a run in which the codec wrote every variant that was not
    up to date, at a time later than the source was changed, a second run,
    with whatever codec and at whatever time, skips all eight variants and
    leaves the file system as it is. *)
Theorem transcode_again_skips_all
    (codec codec2 : jsstring -> Transcoder.WriteOutcome)
    (scaledHeight scaledHeight2 : N -> Transcoder.Image -> N) (now now2 : N)
    (inputPath outputDir filename : jsstring)
    (st st1 : Transcoder.Run) (src : Transcoder.File) (img : Transcoder.Image) :
  Transcoder.fs st !! inputPath = Some src ->
  Transcoder.pictureOf (Transcoder.data src) = Some img ->
  Transcoder.mtime src < now ->
  inputPath ∉ List.map (Transcoder.targetOf outputDir (Transcoder.nameWithoutExt filename))
                Transcoder.jobs ->
  (forall job, job ∈ Transcoder.jobs ->
     codec (Transcoder.targetOf outputDir (Transcoder.nameWithoutExt filename) job)
     = Transcoder.WriteOk) ->
  Transcoder.optimizeWithSharp true codec scaledHeight now inputPath outputDir filename st
  = Ok st1 ->
  exists st2,
    Transcoder.optimizeWithSharp true codec2 scaledHeight2 now2 inputPath outputDir filename st1
    = Ok st2
    /\ Transcoder.fs st2 = Transcoder.fs st1
    /\ Transcoder.log st2
       = Transcoder.log st1
         ++ List.map (fun job => Transcoder.Skipped
                        (Transcoder.variantName (Transcoder.nameWithoutExt filename) job.1 job.2))
              Transcoder.jobs.
Proof.
  intros Hsrc Himg Hnow Hin Hcodec Hrun1.
  destruct (optimizeWithSharp_independent codec scaledHeight now inputPath outputDir
              filename st Hin) as (st1' & Hrun1' & _ & Htargets & Hothers).
  rewrite Hrun1 in Hrun1'. injection Hrun1' as <-.
  assert (Hskip : forall job, job ∈ Transcoder.jobs ->
            Transcoder.shouldSkipOptimization (Transcoder.fs st1) inputPath
              (Transcoder.targetOf outputDir (Transcoder.nameWithoutExt filename) job) = true).
  { intros job Hjob. apply shouldSkipOptimization_true.
    exists src. rewrite (Hothers _ Hin), (Htargets _ Hjob).
    destruct (Transcoder.shouldSkipOptimization (Transcoder.fs st) inputPath
                (Transcoder.targetOf outputDir (Transcoder.nameWithoutExt filename) job))
      eqn:E.
    - rewrite (alone_skipped codec scaledHeight now inputPath outputDir _ _ _ E). simpl.
      apply shouldSkipOptimization_true in E as (sf & tf & Hsf & Htf & Hlt).
      exists tf. rewrite Hsrc in Hsf. injection Hsf as <-. done.
    - destruct (alone_written codec scaledHeight now inputPath outputDir _
                  (Transcoder.fs st) job src img E (Hcodec _ Hjob) Hsrc Himg) as [-> _].
      eexists. split; [done|]. split; [done|]. done. }
  destruct (optimizeWithSharp_independent codec2 scaledHeight2 now2 inputPath outputDir
              filename st1 Hin) as (st2 & Hrun2 & Hlog2 & Htargets2 & Hothers2).
  exists st2. split; [done|]. split.
  - apply map_eq. intros p.
    destruct (decide (p ∈ List.map (Transcoder.targetOf outputDir
                                      (Transcoder.nameWithoutExt filename)) Transcoder.jobs))
      as [Hp|Hp]; [|by apply Hothers2].
    apply list_elem_of_fmap in Hp as (job & -> & Hjob).
    rewrite (Htargets2 _ Hjob).
    by rewrite (alone_skipped codec2 scaledHeight2 now2 inputPath outputDir _ _ _
                  (Hskip _ Hjob)).
  - rewrite Hlog2. f_equal. rewrite <- flat_map_singleton. apply flat_map_ext_elem.
    intros job Hjob.
    by rewrite (alone_skipped codec2 scaledHeight2 now2 inputPath outputDir _ _ _
                  (Hskip _ Hjob)).
Qed.

Lemma transcode_again_skips_all_witness :
  exists st2,
    Transcoder.optimizeWithSharp true Studio.failsOnce Studio.scaledHeight 40
      Studio.input Studio.outDir (lit "foto.jpg") Studio.afterSmallRun = Ok st2
    /\ Transcoder.fs st2 = Transcoder.fs Studio.afterSmallRun.
Proof.
  destruct (transcode_again_skips_all Studio.allOk Studio.failsOnce
              Studio.scaledHeight Studio.scaledHeight 30 40
              Studio.input Studio.outDir (lit "foto.jpg")
              Studio.fresh Studio.afterSmallRun Studio.source Studio.small)
    as (st2 & Hrun & Hfs & _).
  - by vm_compute.
  - reflexivity.
  - by vm_compute.
  - apply (bool_decide_unpack _). by vm_compute.
  - reflexivity.
  - unfold Studio.afterSmallRun, Studio.smallRun, Transcoder.optimizeWithSharp.
    reflexivity.
  - exists st2. split; [exact Hrun | exact Hfs].
Defined.

(** * Properties of the crawl report *)

Section ReportFacts.

Import CrawlReport.

Lemma replaceNonNameChars_chars (s : jsstring) :
  Forall (fun c => isNameChar c = true) (replaceNonNameChars s).
Proof.
  induction s as [|c s IH]; simpl; constructor; [|done].
  by destruct (isNameChar c) eqn:E.
Qed.

Lemma bump_total (baseUrl url title : jsstring) (c : Categories) :
  total (bump baseUrl url title c) = S (total c).
Proof.
  unfold bump, total.
  repeat match goal with
         | |- context [if ?b then _ else _] => destruct b
         end; simpl; lia.
Qed.

Lemma countPages_total (baseUrl : jsstring) (pages : list PageData) (c : Categories) :
  Forall (fun p => is_Some (content p)) pages ->
  exists c', countPages baseUrl pages c = Ok c'
             /\ total c' = (total c + length pages)%nat.
Proof.
  intros H. revert c. induction H as [|p pages [pc Hp] _ IH]; intros c; simpl.
  - exists c. split; [done | lia].
  - unfold countPage. rewrite Hp.
    destruct (IH (bump baseUrl (toLowerCase (url p)) (toLowerCase (titleOrEmpty p)) c))
      as (c' & -> & Ht).
    exists c'. split; [done|]. rewrite Ht, bump_total. lia.
Qed.

Lemma countPages_slash (baseUrl : jsstring) (pages : list PageData) (c : Categories) :
  Forall (fun p => is_Some (content p) /\ endsWith (lit "/") (url p) = true) pages ->
  countPages baseUrl pages c
  = Ok {| homepage := homepage c + length pages; about := about c;
          services := services c; contact := contact c; blog := blog c;
          resources := resources c; other := other c |}.
Proof.
  intros H. revert c. induction H as [|p pages [[pc Hc] Hp] _ IH]; intros c; simpl.
  - destruct c. simpl. do 2 f_equal. lia.
  - unfold countPage. rewrite Hc, IH. unfold bump.
    rewrite (endsWith_toLowerCase (lit "/") (url p)); [|lower_fixed|done].
    rewrite orb_true_r. simpl. do 2 f_equal. lia.
Qed.

Lemma countPages_throw (baseUrl : jsstring) (pages : list PageData) (c : Categories)
    (p : PageData) :
  p ∈ pages -> content p = None -> exists m, countPages baseUrl pages c = Throw m.
Proof.
  intros Hin Hp. revert c. induction Hin as [p pages|p q pages _ IH]; intros c; simpl.
  - unfold countPage. rewrite Hp. by eexists.
  - destruct (countPage baseUrl c q) as [c'|m]; [apply IH; done | by eexists].
Qed.

End ReportFacts.

(** X13.  The name of a page file is never empty and consists of letters,
    digits, hyphens and underscores: it has no slash and no dot, so with
    [.json] added it is one file directly in the pages directory. *)
Theorem crawler_createSafeFilename_chars (baseUrl url : jsstring) :
  CrawlReport.createSafeFilename baseUrl url ≠ []
  /\ Forall (fun c => CrawlReport.isNameChar c = true)
            (CrawlReport.createSafeFilename baseUrl url)
  /\ (slash ∉ CrawlReport.createSafeFilename baseUrl url)
  /\ (dot ∉ CrawlReport.createSafeFilename baseUrl url).
Proof.
  assert (H : CrawlReport.createSafeFilename baseUrl url ≠ []
              /\ Forall (fun c => CrawlReport.isNameChar c = true)
                        (CrawlReport.createSafeFilename baseUrl url)).
  { unfold CrawlReport.createSafeFilename.
    pose proof (dropTrailingHyphen_Forall _ _
                  (dropLeadingHyphen_Forall _ _
                     (collapseHyphens_Forall _ _
                        (replaceNonNameChars_chars (removeFirst baseUrl url))))) as Hf.
    fold (stripEdgeHyphens
            (collapseHyphens (CrawlReport.replaceNonNameChars (removeFirst baseUrl url)))) in Hf.
    destruct (stripEdgeHyphens _) as [|c r]; [|done].
    split; [done | by repeat constructor]. }
  destruct H as [Hne Hf]. split; [done|]. split; [done|].
  rewrite Forall_forall in Hf. split; intros Hin; by specialize (Hf _ Hin).
Qed.

(** X14.  When every page record has its content, the category counts of
    the crawl summary add up to the number of pages: every page is counted
    once, in one category. *)
Theorem categorizeContent_total (baseUrl : jsstring) (pagesData : list PageData) :
  Forall (fun p => is_Some (content p)) pagesData ->
  exists c, CrawlReport.categorizeContent baseUrl pagesData = Ok c
            /\ CrawlReport.total c = length pagesData.
Proof.
  intros H. destruct (countPages_total baseUrl pagesData CrawlReport.noPages H)
    as (c & Hc & Ht).
  by exists c.
Qed.

Lemma categorizeContent_total_witness :
  exists c, CrawlReport.categorizeContent (lit "https://obraabc.org")
              [Crawler.toPageData Site.start (Site.extracted "Obra ABC");
               Crawler.toPageData Site.sobre (Site.extracted "About us")] = Ok c
            /\ CrawlReport.total c = 2%nat.
Proof.
  apply (categorizeContent_total (lit "https://obraabc.org")
           [Crawler.toPageData Site.start (Site.extracted "Obra ABC");
            Crawler.toPageData Site.sobre (Site.extracted "About us")]).
  repeat constructor; by eexists.
Defined.

(** X15.  A page whose URL ends with a slash counts as a home page whatever
    else its URL and title say: when all URLs end with a slash, every page is
    counted as home page and the other counts are zero. *)
Theorem categorizeContent_trailing_slashes (baseUrl : jsstring) (pagesData : list PageData) :
  Forall (fun p => is_Some (content p) /\ endsWith (lit "/") (url p) = true) pagesData ->
  CrawlReport.categorizeContent baseUrl pagesData
  = Ok {| CrawlReport.homepage := length pagesData; CrawlReport.about := 0;
          CrawlReport.services := 0; CrawlReport.contact := 0; CrawlReport.blog := 0;
          CrawlReport.resources := 0; CrawlReport.other := 0 |}.
Proof.
  intros H. unfold CrawlReport.categorizeContent. by rewrite countPages_slash.
Qed.

Lemma categorizeContent_trailing_slashes_witness :
  CrawlReport.categorizeContent (lit "https://obraabc.org")
    [ {| url := lit "https://obraabc.org/sobre/"; title := Some (lit "About us");
         content := Some {| main := None |}; meta := None |};
      {| url := lit "https://obraabc.org/blog/2021/festa/"; title := Some (lit "Festa");
         content := Some {| main := None |}; meta := None |} ]
  = Ok {| CrawlReport.homepage := 2; CrawlReport.about := 0;
          CrawlReport.services := 0; CrawlReport.contact := 0; CrawlReport.blog := 0;
          CrawlReport.resources := 0; CrawlReport.other := 0 |}.
Proof.
  apply (categorizeContent_trailing_slashes (lit "https://obraabc.org")
           [ {| url := lit "https://obraabc.org/sobre/"; title := Some (lit "About us");
                content := Some {| main := None |}; meta := None |};
             {| url := lit "https://obraabc.org/blog/2021/festa/"; title := Some (lit "Festa");
                content := Some {| main := None |}; meta := None |} ]).
  repeat constructor; by eexists.
Defined.

(** X16.  One page record without content makes the categorisation throw,
    wherever the record stands in the list. *)
Theorem categorizeContent_throws_without_content
    (baseUrl : jsstring) (pagesData : list PageData) (page : PageData) :
  page ∈ pagesData -> content page = None ->
  exists m, CrawlReport.categorizeContent baseUrl pagesData = Throw m.
Proof. intros Hin Hp. by apply (countPages_throw baseUrl pagesData _ page). Qed.

Lemma categorizeContent_throws_without_content_witness :
  exists m, CrawlReport.categorizeContent (lit "https://obraabc.org")
              [pageComplete;
               {| url := lit "https://obraabc.org/equipa"; title := None;
                  content := None; meta := None |}] = Throw m.
Proof.
  apply (categorizeContent_throws_without_content (lit "https://obraabc.org")
           [pageComplete;
            {| url := lit "https://obraabc.org/equipa"; title := None;
               content := None; meta := None |}]
           {| url := lit "https://obraabc.org/equipa"; title := None;
              content := None; meta := None |}).
  - apply list_elem_of_In. simpl. tauto.
  - reflexivity.
Defined.

(** * Properties of the manifest names and the frontmatter values *)

Section NameFacts.

Import Manifest.

Lemma collapseUnderscores_Forall (P : N -> Prop) (s : jsstring) :
  Forall P s -> Forall P (collapseUnderscores s).
Proof.
  induction 1 as [|c r Hc Hr IH]; simpl; [done|].
  destruct (isUnderscore c); [|by constructor].
  destruct r as [|d r']; [by constructor|].
  destruct (isUnderscore d); [done | by constructor].
Qed.

Lemma dropWhile_snoc_keep (f : N -> bool) (x : jsstring) (c : N) :
  f c = false -> exists y, dropWhile f (x ++ [c]) = y ++ [c].
Proof.
  intros Hc. induction x as [|a x IH]; simpl.
  - rewrite Hc. by exists [].
  - destruct (f a); [done|]. by exists (a :: x).
Qed.

Lemma dropWhileEnd_head_keep (f : N -> bool) (c : N) (r : jsstring) :
  f c = false -> exists t, dropWhileEnd f (c :: r) = c :: t.
Proof.
  intros Hc. unfold dropWhileEnd. rewrite reverse_cons.
  destruct (dropWhile_snoc_keep f (reverse r) c Hc) as [y ->].
  exists (reverse y). by rewrite reverse_snoc.
Qed.

End NameFacts.

(** X17.  The variable name made for an image import consists of letters,
    digits and underscores; and when the file name starts with a digit, the
    variable name starts with that digit. *)
Theorem varName_chars_and_leading_digit (filename : jsstring) :
  Forall (fun c => Manifest.isAlnum c = true \/ c = 95) (Manifest.varName filename)
  /\ (forall c rest, filename = c :: rest -> isDigit c = true ->
        head (Manifest.varName filename) = Some c).
Proof.
  split.
  - unfold Manifest.varName.
    apply collapseUnderscores_Forall, dropWhileEnd_Forall, dropWhile_Forall.
    apply Forall_forall. intros c (x & -> & _)%list_elem_of_fmap.
    destruct (Manifest.isAlnum x) eqn:E; [by left | by right].
  - intros c rest -> Hc. unfold Manifest.varName. simpl List.map.
    assert (Ha : Manifest.isAlnum c = true).
    { unfold Manifest.isAlnum. by rewrite Hc, orb_true_r. }
    assert (Hu : Manifest.isUnderscore c = false).
    { unfold Manifest.isUnderscore. unfold isDigit in Hc. apply inRange_true in Hc.
      apply N.eqb_neq. lia. }
    rewrite Ha. simpl dropWhile. rewrite Hu.
    destruct (dropWhileEnd_head_keep Manifest.isUnderscore c
                (List.map (fun c0 => if Manifest.isAlnum c0 then c0 else 95) rest) Hu)
      as [t ->].
    simpl. by rewrite Hu.
Qed.

Lemma varName_chars_and_leading_digit_witness :
  head (Manifest.varName (Fetcher.createSafeFilename 1700000000000 (lit "/fotos/1.jpg")))
  = Some 49.
Proof.
  apply (proj2 (varName_chars_and_leading_digit
                  (Fetcher.createSafeFilename 1700000000000 (lit "/fotos/1.jpg")))
           49 (lit "-1700000000000.jpg")).
  - by vm_compute.
  - reflexivity.
Defined.

Section YamlFacts.

Import Yaml.

Lemma includes_singleton (c : N) (s : jsstring) :
  includes [c] s = true <-> c ∈ s.
Proof.
  rewrite includes_infix. split.
  - intros (a & b & ->). apply elem_of_app. right. apply list_elem_of_here.
  - intros (a & b & ->)%list_elem_of_split. by exists a, b.
Qed.

Lemma collapseWhiteSpace_chars (s : jsstring) :
  Forall (fun c => c = 32 \/ isWhiteSpace c = false) (collapseWhiteSpace s).
Proof.
  induction s as [|c r IH]; simpl; [done|].
  destruct (isWhiteSpace c) eqn:Ec.
  - destruct r as [|d r']; [by repeat constructor|].
    destruct (isWhiteSpace d); [done|]. constructor; [by left | done].
  - constructor; [by right | done].
Qed.

End YamlFacts.

(** X18.  A formatted frontmatter value starts and ends with a double quote
    and has no line feed and no carriage return in it, so that it stays on
    the line of its key. *)
Theorem formatYamlValue_one_line (value : option jsstring) :
  head (Yaml.formatYamlValue value) = Some Yaml.quote
  /\ last (Yaml.formatYamlValue value) = Some Yaml.quote
  /\ (10 ∉ Yaml.formatYamlValue value)
  /\ (13 ∉ Yaml.formatYamlValue value).
Proof.
  assert (H : forall body : jsstring,
            head ([Yaml.quote] ++ body ++ [Yaml.quote]) = Some Yaml.quote
            /\ last ([Yaml.quote] ++ body ++ [Yaml.quote]) = Some Yaml.quote).
  { intros body. split; [done|]. by rewrite app_assoc, last_snoc. }
  assert (Hq : forall body : jsstring, 10 ∉ body -> 13 ∉ body ->
            (10 ∉ [Yaml.quote] ++ body ++ [Yaml.quote])
            /\ (13 ∉ [Yaml.quote] ++ body ++ [Yaml.quote])).
  { intros body H10 H13.
    split; intros Hin; apply elem_of_app in Hin as [Hin|Hin];
      try (apply list_elem_of_singleton in Hin; discriminate);
      apply elem_of_app in Hin as [Hin|Hin]; try done;
      apply list_elem_of_singleton in Hin; discriminate. }
  unfold Yaml.formatYamlValue. destruct value as [str|].
  2: { split; [done|]. split; [done|].
       split; intros Hin; repeat (apply elem_of_cons in Hin as [Hin|Hin]; [discriminate|]);
         by apply not_elem_of_nil in Hin. }
  destruct (existsb _ Yaml.specialChars) eqn:E.
  - destruct (H (trim (Yaml.collapseWhiteSpace (Yaml.breaksToSpaces (Yaml.escapeQuotes str)))))
      as [Hh Hl].
    split; [done|]. split; [done|].
    assert (Hc : Forall (fun c => c = 32 \/ isWhiteSpace c = false)
                   (trim (Yaml.collapseWhiteSpace (Yaml.breaksToSpaces (Yaml.escapeQuotes str)))))
      by apply trim_Forall, collapseWhiteSpace_chars.
    rewrite Forall_forall in Hc.
    apply Hq; intros Hin; by destruct (Hc _ Hin).
  - destruct (H str) as [Hh Hl]. split; [done|]. split; [done|].
    unfold Yaml.specialChars in E. simpl in E.
    repeat (apply orb_false_iff in E as [? E]).
    apply Hq; intros Hin%includes_singleton; congruence.
Qed.

(** * Properties of the directory walk *)

Section WalkFacts.

Import Transcoder Tree.

Variable sharpAvailable : bool.
Variable codec : jsstring -> WriteOutcome.
Variable scaledHeight : N -> Image -> N.
Variable now : N.

Local Abbreviation processEntry :=
  (Tree.processEntry sharpAvailable codec scaledHeight now).
Local Abbreviation processEntries :=
  (Tree.processEntries sharpAvailable codec scaledHeight now).

Lemma Ok_inj {A : Type} (a b : A) : Ok a = Ok b -> a = b.
Proof. by intros [= ->]. Qed.

Lemma join_below (dir name : jsstring) : (dir ++ [slash]) `prefix_of` join dir name.
Proof. exists name. unfold join. by rewrite <- app_assoc. Qed.

Lemma below_subdirectory (dir name p : jsstring) :
  (join dir name ++ [slash]) `prefix_of` p -> (dir ++ [slash]) `prefix_of` p.
Proof.
  intros [k ->]. exists (name ++ [slash] ++ k). unfold join.
  by rewrite <- !app_assoc.
Qed.

Lemma generates_outside (inputPath outputDir name : jsstring)
    (js : list (SizeClass * Format)) (st : Run) (p : jsstring) :
  ~ ((outputDir ++ [slash]) `prefix_of` p) ->
  fs (fold_left (generate codec scaledHeight now inputPath outputDir name) js st) !! p
  = fs st !! p.
Proof.
  intros Hp. revert st. induction js as [|job js IH]; intros st; simpl; [done|].
  rewrite IH. apply generate_other. intros ->. apply Hp.
  unfold targetOf. apply join_below.
Qed.

Lemma optimizeWithSharp_outside (inputPath outputDir filename : jsstring)
    (st st' : Run) (p : jsstring) :
  optimizeWithSharp sharpAvailable codec scaledHeight now inputPath outputDir filename st
  = Ok st' ->
  ~ ((outputDir ++ [slash]) `prefix_of` p) ->
  fs st' !! p = fs st !! p.
Proof.
  intros Hrun Hp. destruct sharpAvailable.
  - rewrite (optimizeWithSharp_jobs codec scaledHeight now inputPath outputDir
               (nameWithoutExt filename) filename st eq_refl) in Hrun.
    apply Ok_inj in Hrun. rewrite <- Hrun. by apply generates_outside.
  - unfold optimizeWithSharp, copyImageWithoutOptimization in Hrun.
    cbn [fs log] in Hrun.
    destruct (shouldSkipOptimization _ _ _).
    + apply Ok_inj in Hrun. by rewrite <- Hrun.
    + destruct (fs st !! inputPath) as [f|]; [|discriminate].
      apply Ok_inj in Hrun. rewrite <- Hrun. cbn [fs]. apply lookup_insert_ne.
      intros <-. apply Hp, join_below.
Qed.

Lemma copyThrough_outside (sourcePath outputDir name : jsstring)
    (st st' : Run) (p : jsstring) :
  copyThrough now sourcePath (join outputDir name) name st = Ok st' ->
  ~ ((outputDir ++ [slash]) `prefix_of` p) ->
  fs st' !! p = fs st !! p.
Proof.
  unfold copyThrough. intros Hrun Hp.
  destruct (fs st !! sourcePath) as [f|]; [|discriminate].
  injection Hrun as <-. simpl. apply lookup_insert_ne.
  intros <-. apply Hp, join_below.
Qed.

Lemma processEntry_Dir (sourceDir outputDir name : jsstring) (es : list Entry) (st : Run) :
  processEntry sourceDir outputDir (Dir name es) st
  = processEntries (join sourceDir name) (join outputDir name) es st.
Proof.
  simpl. revert st. induction es as [|e es IH]; intros st; simpl; [done|].
  destruct (Tree.processEntry _ _ _ _ _ _ e st); [apply IH | done].
Qed.

Lemma processEntry_outside (e : Entry) :
  forall (sourceDir outputDir : jsstring) (st st' : Run) (p : jsstring),
    processEntry sourceDir outputDir e st = Ok st' ->
    ~ ((outputDir ++ [slash]) `prefix_of` p) ->
    fs st' !! p = fs st !! p.
Proof.
  revert e. fix IH 1.
  intros [name|name es|name] sourceDir outputDir st st' p Hrun Hp.
  - simpl in Hrun. destruct (isImageName name).
    + by apply (optimizeWithSharp_outside _ _ _ _ _ _ Hrun).
    + by apply (copyThrough_outside _ _ _ _ _ _ Hrun).
  - rewrite processEntry_Dir in Hrun.
    assert (Hsub : ~ ((join outputDir name ++ [slash]) `prefix_of` p)).
    { intros H. by apply Hp, (below_subdirectory _ name). }
    revert st Hrun. induction es as [|e es IHes]; intros st Hrun; simpl in Hrun.
    + by injection Hrun as <-.
    + destruct (Tree.processEntry _ _ _ _ _ _ e st) as [st1|m] eqn:He; [|discriminate].
      rewrite (IHes _ Hrun). exact (IH e _ _ _ _ _ He Hsub).
  - simpl in Hrun. by injection Hrun as <-.
Qed.

Lemma processEntries_outside (sourceDir outputDir : jsstring) (es : list Entry)
    (st st' : Run) (p : jsstring) :
  processEntries sourceDir outputDir es st = Ok st' ->
  ~ ((outputDir ++ [slash]) `prefix_of` p) ->
  fs st' !! p = fs st !! p.
Proof.
  intros Hrun Hp. revert st Hrun.
  induction es as [|e es IH]; intros st Hrun; simpl in Hrun.
  - by injection Hrun as <-.
  - destruct (Tree.processEntry _ _ _ _ _ _ e st) as [st1|m] eqn:He; [|discriminate].
    rewrite (IH _ Hrun). by apply (processEntry_outside e _ _ _ _ _ He).
Qed.

End WalkFacts.

Lemma processEntry_imagesOnly
    (codec : jsstring -> Transcoder.WriteOutcome)
    (scaledHeight : N -> Transcoder.Image -> N) (now : N) (e : Tree.Entry) :
  forall (sourceDir outputDir : jsstring) (st : Transcoder.Run),
    Tree.imagesOnly e = true ->
    exists st', Tree.processEntry true codec scaledHeight now sourceDir outputDir e st
                = Ok st'.
Proof.
  revert e. fix IH 1.
  intros [name|name es|name] sourceDir outputDir st He.
  - simpl in He. simpl. rewrite He. by eexists.
  - rewrite processEntry_Dir. simpl in He.
    revert st He. induction es as [|e es IHes]; intros st He; simpl.
    + by eexists.
    + simpl in He. apply andb_true_iff in He as [He Hes].
      destruct (IH e (join sourceDir name) (join outputDir name) st He) as [st1 ->].
      by apply IHes.
  - by eexists.
Qed.

(** X19.  A completed walk leaves every path alone that does not lie below
    the output directory: all it writes, at any depth, it writes into the
    output tree. *)
Theorem processDirectory_writes_below_output
    (sharpAvailable : bool) (codec : jsstring -> Transcoder.WriteOutcome)
    (scaledHeight : N -> Transcoder.Image -> N) (now : N)
    (sourceDir outputDir : jsstring) (entries : list Tree.Entry)
    (st st' : Transcoder.Run) (p : jsstring) :
  Tree.processDirectory sharpAvailable codec scaledHeight now sourceDir outputDir entries st
  = Ok st' ->
  ~ ((outputDir ++ [slash]) `prefix_of` p) ->
  Transcoder.fs st' !! p = Transcoder.fs st !! p.
Proof. apply processEntries_outside. Qed.

Lemma processDirectory_writes_below_output_witness :
  Transcoder.fs Studio.afterNotesWalk !! Studio.notes = Some Studio.notesFile
  /\ Transcoder.fs Studio.afterNotesWalk
       !! lit "public/assets/articles/festa/notas.txt"
     = Some {| Transcoder.mtime := 30; Transcoder.data := Transcoder.NoPicture |}.
Proof.
  split; [|by vm_compute].
  rewrite (processDirectory_writes_below_output true Studio.allOk Studio.scaledHeight 30
             Studio.articles Studio.public Studio.photoAndNotes
             Studio.withNotes Studio.afterNotesWalk Studio.notes).
  - by vm_compute.
  - vm_compute. reflexivity.
  - apply (bool_decide_unpack _). by vm_compute.
Defined.

(** X20.  With the codec library available, a tree whose files are all
    images is always walked to the end: whatever the codec does on a variant
    and whatever the file system holds, the walk does not throw. *)
Theorem processDirectory_images_never_throw
    (codec : jsstring -> Transcoder.WriteOutcome)
    (scaledHeight : N -> Transcoder.Image -> N) (now : N)
    (sourceDir outputDir : jsstring) (entries : list Tree.Entry) (st : Transcoder.Run) :
  forallb Tree.imagesOnly entries = true ->
  exists st',
    Tree.processDirectory true codec scaledHeight now sourceDir outputDir entries st = Ok st'.
Proof.
  intros H. unfold Tree.processDirectory. revert st H.
  induction entries as [|e es IH]; intros st H; simpl.
  - by eexists.
  - simpl in H. apply andb_true_iff in H as [He Hes].
    destruct (processEntry_imagesOnly codec scaledHeight now e
                sourceDir outputDir st He) as [st1 ->].
    by apply IH.
Qed.

Lemma processDirectory_images_never_throw_witness :
  exists st',
    Tree.processDirectory true Studio.failsOnce Studio.scaledHeight 30
      Studio.articles Studio.public Studio.photosOnly Studio.withOld = Ok st'.
Proof.
  apply (processDirectory_images_never_throw Studio.failsOnce Studio.scaledHeight 30
           Studio.articles Studio.public Studio.photosOnly Studio.withOld).
  by vm_compute.
Defined.

(** * More on the names of the page files *)

Section PageFileFacts.

Lemma dropTrailingHyphen_snoc (z : jsstring) :
  dropTrailingHyphen (z ++ [hyphen]) = z.
Proof.
  induction z as [|c r IH]; [reflexivity|].
  destruct r as [|d r'].
  - change (([c] ++ [hyphen])) with (c :: [hyphen]).
    change (dropTrailingHyphen (c :: [hyphen])) with (c :: dropTrailingHyphen [hyphen]).
    reflexivity.
  - change ((c :: d :: r') ++ [hyphen]) with (c :: (d :: r') ++ [hyphen]).
    change (dropTrailingHyphen (c :: (d :: r') ++ [hyphen]))
      with (c :: dropTrailingHyphen ((d :: r') ++ [hyphen])).
    by rewrite IH.
Qed.

Lemma stripEdgeHyphens_snoc (y : jsstring) :
  last y ≠ Some hyphen -> stripEdgeHyphens (y ++ [hyphen]) = stripEdgeHyphens y.
Proof.
  intros Hlast. unfold stripEdgeHyphens. destruct y as [|c r].
  - reflexivity.
  - simpl. destruct (isHyphen c) eqn:Ec.
    + rewrite dropTrailingHyphen_snoc. symmetry. apply dropTrailingHyphen_fixed.
      destruct r as [|d r']; [done|]. by rewrite last_cons_cons in Hlast.
    + change (c :: r ++ [hyphen]) with ((c :: r) ++ [hyphen]).
      rewrite dropTrailingHyphen_snoc. symmetry. by apply dropTrailingHyphen_fixed.
Qed.

Lemma collapseHyphens_snoc_hyphen (x : jsstring) :
  (last (collapseHyphens x) = Some hyphen
   /\ collapseHyphens (x ++ [hyphen]) = collapseHyphens x)
  \/ (last (collapseHyphens x) ≠ Some hyphen
      /\ collapseHyphens (x ++ [hyphen]) = collapseHyphens x ++ [hyphen]).
Proof.
  induction x as [|c r IH].
  - right. split; [done | reflexivity].
  - destruct r as [|d r'].
    + change ([c] ++ [hyphen]) with (c :: hyphen :: []).
      rewrite collapseHyphens_cons2. rewrite isHyphen_hyphen, andb_true_r.
      destruct (isHyphen c) eqn:Ec.
      * left. apply N.eqb_eq in Ec as ->. split; reflexivity.
      * right. change (collapseHyphens [hyphen]) with [hyphen].
        simpl. rewrite Ec. split; [|done].
        simpl. intros [= ->]. by rewrite isHyphen_hyphen in Ec.
    + change ((c :: d :: r') ++ [hyphen]) with (c :: d :: (r' ++ [hyphen])).
      rewrite !collapseHyphens_cons2.
      change (d :: r' ++ [hyphen]) with ((d :: r') ++ [hyphen]).
      destruct (isHyphen c && isHyphen d); [exact IH|].
      pose proof (collapseHyphens_head (d :: r')) as Hh.
      destruct (collapseHyphens (d :: r')) as [|e t] eqn:Et; [done|].
      rewrite !last_cons_cons.
      destruct IH as [[Hl Heq] | [Hl Heq]]; [left | right]; split; try done;
        by rewrite Heq.
Qed.

Lemma stripEdgeHyphens_collapse_snoc (x : jsstring) :
  stripEdgeHyphens (collapseHyphens (x ++ [hyphen]))
  = stripEdgeHyphens (collapseHyphens x).
Proof.
  destruct (collapseHyphens_snoc_hyphen x) as [[_ ->] | [Hl ->]]; [done|].
  by apply stripEdgeHyphens_snoc.
Qed.

Lemma removeFirst_snoc_any (p s : jsstring) (c : N) :
  last p ≠ Some c -> removeFirst p (s ++ [c]) = removeFirst p s ++ [c].
Proof.
  intros Hlast. destruct p as [|a p]; [|by apply removeFirst_snoc].
  by destruct s.
Qed.

End PageFileFacts.

(** X21.  The crawler keeps a URL and the same URL with a slash at its end
    apart as two pages, and names one file for both: when the base URL does
    not end with a slash, a trailing slash does not change the name of the
    page file. *)
Theorem crawler_createSafeFilename_trailing_slash (baseUrl url : jsstring) :
  last baseUrl ≠ Some slash ->
  CrawlReport.createSafeFilename baseUrl (url ++ [slash])
  = CrawlReport.createSafeFilename baseUrl url.
Proof.
  intros Hlast. unfold CrawlReport.createSafeFilename.
  rewrite removeFirst_snoc_any by done.
  unfold CrawlReport.replaceNonNameChars. rewrite map_app.
  change (List.map _ [slash]) with [hyphen].
  by rewrite stripEdgeHyphens_collapse_snoc.
Qed.

Lemma crawler_createSafeFilename_trailing_slash_witness :
  CrawlReport.createSafeFilename Site.start (Site.start ++ [slash])
  = CrawlReport.createSafeFilename Site.start Site.start.
Proof.
  apply (crawler_createSafeFilename_trailing_slash Site.start Site.start).
  by vm_compute.
Defined.

(** * Properties of the descriptions *)

Section DescriptionFacts.

Import Yaml.

Lemma collapseWhiteSpace_adjacent (s a b : jsstring) (c d : N) :
  collapseWhiteSpace s = a ++ c :: d :: b ->
  isWhiteSpace c = true -> isWhiteSpace d = false.
Proof.
  revert a. induction s as [|x r IH]; intros a Heq Hc.
  - by destruct a.
  - simpl in Heq. destruct (isWhiteSpace x) eqn:Ex.
    + destruct r as [|y r']; [by destruct a as [|? [|? ?]]|].
      destruct (isWhiteSpace y) eqn:Ey; [by apply (IH a)|].
      destruct a as [|a0 a'].
      * simpl in Heq. rewrite Ey in Heq. injection Heq as _ <- _. done.
      * injection Heq as _ Heq. by apply (IH a').
    + destruct a as [|a0 a'].
      * injection Heq as <- _. congruence.
      * injection Heq as _ Heq. by apply (IH a').
Qed.

Lemma dropWhile_suffix (f : N -> bool) (s : jsstring) :
  exists k, s = k ++ dropWhile f s.
Proof.
  induction s as [|c s [k IH]]; simpl; [by exists []|].
  destruct (f c); [|by exists []].
  exists (c :: k). simpl. by f_equal.
Qed.

Lemma dropWhileEnd_prefix (f : N -> bool) (s : jsstring) :
  exists k, s = dropWhileEnd f s ++ k.
Proof.
  unfold dropWhileEnd. destruct (dropWhile_suffix f (reverse s)) as [k Hk].
  exists (reverse k). rewrite <- reverse_app, <- Hk. by rewrite reverse_involutive.
Qed.

Lemma dropWhile_head_false (f : N -> bool) (s : jsstring) (c : N) :
  head (dropWhile f s) = Some c -> f c = false.
Proof.
  induction s as [|a s IH]; simpl; [done|].
  destruct (f a) eqn:Ea; [done|]. simpl. by intros [= <-].
Qed.

Lemma trim_infix (s : jsstring) : exists k1 k2, s = k1 ++ trim s ++ k2.
Proof.
  unfold trim. destruct (dropWhile_suffix isWhiteSpace s) as [k1 H1].
  destruct (dropWhileEnd_prefix isWhiteSpace (dropWhile isWhiteSpace s)) as [k2 H2].
  exists k1, k2. by rewrite <- H2.
Qed.

Lemma trim_head (s : jsstring) (c : N) :
  head (trim s) = Some c -> isWhiteSpace c = false.
Proof.
  unfold trim. intros H.
  destruct (dropWhileEnd_prefix isWhiteSpace (dropWhile isWhiteSpace s)) as [k Hk].
  apply (dropWhile_head_false isWhiteSpace s). rewrite Hk.
  by destruct (dropWhileEnd isWhiteSpace (dropWhile isWhiteSpace s)).
Qed.

End DescriptionFacts.

(** X22.  A cleaned description has at most 160 code units and is one line
    of single-spaced text: its only white space is the space character, no
    two spaces are adjacent, and it does not start with one. *)
Theorem cleanDescription_single_spaced (description : option jsstring) :
  (length (Description.cleanDescription description) <= 160)%nat
  /\ Forall (fun c => c = 32 \/ isWhiteSpace c = false)
            (Description.cleanDescription description)
  /\ includes [32; 32] (Description.cleanDescription description) = false
  /\ head (Description.cleanDescription description) ≠ Some 32.
Proof.
  assert (Hnil : (length (@nil N) <= 160)%nat
                 /\ Forall (fun c => c = 32 \/ isWhiteSpace c = false) []
                 /\ includes [32; 32] [] = false
                 /\ head (@nil N) ≠ Some 32).
  { split; [simpl; lia|]. split; [constructor|]. split; [reflexivity | done]. }
  unfold Description.cleanDescription.
  destruct description as [[|c0 d]|]; [exact Hnil | | exact Hnil].
  set (y := Yaml.collapseWhiteSpace _).
  split; [rewrite length_take; lia|].
  split; [apply Forall_take, trim_Forall, collapseWhiteSpace_chars|].
  split.
  - destruct (includes [32; 32] (take 160 (trim y))) eqn:E; [|done].
    apply includes_infix in E as (a & b & E).
    destruct (trim_infix y) as (k1 & k2 & Hy).
    pose proof (take_drop 160 (trim y)) as Htd. rewrite E in Htd.
    set (t := drop 160 (trim y)) in Htd. rewrite <- Htd in Hy.
    assert (Hy' : y = (k1 ++ a) ++ 32 :: 32 :: (b ++ t ++ k2)).
    { rewrite Hy at 1. rewrite <- !app_assoc. reflexivity. }
    by pose proof (collapseWhiteSpace_adjacent _ _ _ _ _ Hy' eq_refl).
  - intros H.
    assert (Hh : head (trim y) = Some 32).
    { destruct (trim y); [done|]. done. }
    by pose proof (trim_head y 32 Hh).
Qed.

(** * The picture element and the generated files *)

(** X23.  The addresses the picture element names are, in order, the eight
    file names the optimisation generates for the image, each directly under
    [/assets/articles/]. *)
Theorem picture_sources_are_generated_names (imageName : jsstring) :
  Picture.sources imageName
  = List.map (fun job => lit "/assets/articles/"
                         ++ Transcoder.variantName (Transcoder.nameWithoutExt imageName)
                              job.1 job.2)
      Transcoder.jobs.
Proof.
  unfold Picture.sources, Transcoder.nameWithoutExt.
  generalize (basenameWithout imageName (extname imageName)). intros n.
  by vm_compute.
Qed.

(** * The slug of the code and the slug of the specification *)

Section SlugSpecFacts.

Lemma replace_not_alnum (c : N) :
  isLowerAlnum c = false -> (if isSlugChar c then c else hyphen) = hyphen.
Proof.
  intros Hc. unfold isSlugChar. unfold isLowerAlnum in Hc. rewrite Hc. simpl.
  destruct (isHyphen c) eqn:E; [|done]. by apply N.eqb_eq in E.
Qed.

Lemma replace_alnum (c : N) :
  isLowerAlnum c = true ->
  (if isSlugChar c then c else hyphen) = c /\ isHyphen c = false.
Proof. intros [-> ->]%isLowerAlnum_slug. done. Qed.

(** Replacing and then collapsing hyphens is collapsing the runs of what is
    not a letter or a digit. *)
Lemma collapse_replace_runs (s : jsstring) :
  collapseHyphens (replaceNonSlugChars s) = SlugSpec.collapseRuns s.
Proof.
  induction s as [|c r IH]; [done|].
  unfold replaceNonSlugChars in *. destruct r as [|d r'].
  - simpl. destruct (isLowerAlnum c) eqn:Ec.
    + destruct (replace_alnum c Ec) as [-> ->]. done.
    + by rewrite (replace_not_alnum c Ec).
  - change (List.map (fun c => if isSlugChar c then c else hyphen) (c :: d :: r'))
      with ((if isSlugChar c then c else hyphen)
            :: (if isSlugChar d then d else hyphen)
            :: List.map (fun c => if isSlugChar c then c else hyphen) r').
    rewrite collapseHyphens_cons2.
    change ((if isSlugChar d then d else hyphen)
            :: List.map (fun c => if isSlugChar c then c else hyphen) r')
      with (List.map (fun c => if isSlugChar c then c else hyphen) (d :: r')).
    rewrite IH.
    change (SlugSpec.collapseRuns (c :: d :: r'))
      with (if isLowerAlnum c then c :: SlugSpec.collapseRuns (d :: r')
            else if isLowerAlnum d then hyphen :: SlugSpec.collapseRuns (d :: r')
                 else SlugSpec.collapseRuns (d :: r')).
    destruct (isLowerAlnum c) eqn:Ec.
    + destruct (replace_alnum c Ec) as [-> ->]. done.
    + rewrite (replace_not_alnum c Ec), isHyphen_hyphen. simpl.
      destruct (isLowerAlnum d) eqn:Ed.
      * destruct (replace_alnum d Ed) as [-> ->]. done.
      * by rewrite (replace_not_alnum d Ed), isHyphen_hyphen.
Qed.

(** Where no two hyphens are side by side, stripping one hyphen at each
    end strips them all. *)
Lemma stripEdgeHyphens_trim (t : jsstring) :
  noDoubleHyphen t = true -> stripEdgeHyphens t = SlugSpec.trimHyphens t.
Proof.
  intros Ht. unfold stripEdgeHyphens, SlugSpec.trimHyphens.
  assert (Hlead : dropWhile isHyphen t = dropLeadingHyphen t).
  { destruct t as [|c r]; [done|]. simpl. destruct (isHyphen c) eqn:Ec; [|done].
    apply dropWhile_head. intros d Hd. destruct r as [|d' r']; [done|].
    injection Hd as ->. apply noDoubleHyphen_inv in Ht as [Hcd _].
    by rewrite Ec in Hcd. }
  rewrite Hlead.
  pose proof (dropLeadingHyphen_noDouble t Ht) as Hz.
  set (z := dropLeadingHyphen t) in *. clearbody z.
  pose proof (dropTrailingHyphen_last z Hz) as Hlast.
  destruct (decide (last z = Some hyphen)) as [Hl|Hl].
  - apply last_Some in Hl as [y ->]. rewrite dropTrailingHyphen_snoc in *.
    rewrite dropWhileEnd_snoc by reflexivity. symmetry. apply dropWhileEnd_last.
    intros c Hc. destruct (isHyphen c) eqn:Ec; [|done].
    apply N.eqb_eq in Ec as ->. done.
  - rewrite dropTrailingHyphen_fixed by done. symmetry. apply dropWhileEnd_last.
    intros c Hc. destruct (isHyphen c) eqn:Ec; [|done].
    apply N.eqb_eq in Ec as ->. done.
Qed.

Lemma createSlug_slugBySpec (url : jsstring) : createSlug url = SlugSpec.slug url.
Proof.
  unfold createSlug, SlugSpec.slug, slugPath, trimSlashes.
  destruct (dropWhileEnd isSlash (dropWhile isSlash (removeFirst baseUrl url)))
    as [|c path]; [done|].
  rewrite stripEdgeHyphens_trim by apply collapseHyphens_noDouble.
  by rewrite collapse_replace_runs.
Qed.

Lemma removeFirst_prefix_app (p r : jsstring) : removeFirst p (p ++ r) = r.
Proof.
  destruct (p ++ r) as [|c s] eqn:E; simpl.
  - destruct p; [|done]. simpl in E. subst. by destruct (startsWith [] []).
  - assert (Hs : startsWith p (c :: s) = true).
    { apply startsWith_prefix. exists r. by rewrite E. }
    rewrite Hs, <- E. by rewrite drop_app_length.
Qed.

Lemma createSlug_slashes (n : nat) : createSlug (baseUrl ++ repeat slash n) = lit "index".
Proof.
  unfold createSlug, slugPath, trimSlashes. rewrite removeFirst_prefix_app.
  assert (H : dropWhile isSlash (repeat slash n) = []).
  { induction n as [|n IH]; [done|]. simpl. by rewrite IH. }
  by rewrite H.
Qed.

End SlugSpecFacts.

(** C5.  [createSlug] is a function, so equal URLs have equal slugs; the
    slug of the site's home URL is [index], and so is that of the base URL
    followed by any number of slashes; the slug of [/Sobre-Nós/] under the
    site's base URL is [sobre-n-s].  For every URL the slug is the slug of
    the specification: the base URL and the outer slashes stripped, [index]
    for what is empty then, and else lower-cased, with every run of
    characters other than letters and digits collapsed to one hyphen, and
    the hyphens at both ends trimmed; so no slug starts or ends with a
    hyphen, and a run of characters outside [[a-z0-9-]] between two letters
    or digits comes out as one hyphen. *)
Theorem createSlug_deterministic_examples :
  (forall u1 u2 : jsstring, u1 = u2 -> createSlug u1 = createSlug u2)
  /\ createSlug (baseUrl ++ lit "/") = lit "index"
  /\ createSlug (baseUrl ++ lit "/Sobre-N" ++ [243] ++ lit "s/") = lit "sobre-n-s"
  /\ (forall n, createSlug (baseUrl ++ repeat slash n) = lit "index")
  /\ (forall url, createSlug url = SlugSpec.slug url)
  /\ (forall url, head (createSlug url) ≠ Some hyphen /\ last (createSlug url) ≠ Some hyphen)
  /\ (forall url, slugPath url = [] -> createSlug url = lit "index")
  /\ (forall a b run x y,
        isLowerAlnum x = true -> isLowerAlnum y = true -> run ≠ [] ->
        Forall (fun c => isSlugChar c = false) run ->
        collapseHyphens (replaceNonSlugChars (a ++ [x] ++ run ++ [y] ++ b))
        = collapseHyphens (replaceNonSlugChars (a ++ [x])) ++ [hyphen]
          ++ collapseHyphens (replaceNonSlugChars ([y] ++ b))).
Proof.
  split; [by intros ? ? ->|].
  split; [by vm_compute|].
  split; [by vm_compute|].
  split; [apply createSlug_slashes|].
  split; [apply createSlug_slugBySpec|].
  split.
  { intros url. unfold createSlug. destruct (slugPath url) as [|c0 path]; [by split|].
    assert (Ht : noDoubleHyphen
                   (collapseHyphens (replaceNonSlugChars (toLowerCase (c0 :: path)))) = true)
      by apply collapseHyphens_noDouble.
    split.
    - by apply dropTrailingHyphen_head, dropLeadingHyphen_head.
    - by apply dropTrailingHyphen_last, dropLeadingHyphen_noDouble. }
  split; [intros url H; unfold createSlug; by rewrite H|].
  apply normalize_run.
Qed.

Lemma createSlug_deterministic_examples_witness :
  createSlug (lit "https://obraabc.org") = lit "index"
  /\ collapseHyphens (replaceNonSlugChars (lit "so" ++ lit "b" ++ lit " &_" ++ lit "n" ++ lit "os"))
     = collapseHyphens (replaceNonSlugChars (lit "so" ++ lit "b")) ++ [hyphen]
       ++ collapseHyphens (replaceNonSlugChars (lit "n" ++ lit "os"))
  /\ createSlug (lit "https://obraabc.org/-- Quem Somos? --/")
     = SlugSpec.slug (lit "https://obraabc.org/-- Quem Somos? --/")
  /\ SlugSpec.slug (lit "https://obraabc.org/-- Quem Somos? --/") = lit "quem-somos".
Proof.
  destruct createSlug_deterministic_examples
    as (_ & _ & _ & _ & Hspec & _ & Hidx & Hrun).
  split; [apply Hidx; reflexivity|].
  split.
  { apply (Hrun (lit "so") (lit "os") (lit " &_") 98 110);
      [reflexivity | reflexivity | discriminate |].
    repeat constructor. }
  split; [apply Hspec | by vm_compute].
Defined.
